(** * FOC_RD_LAB: field-oriented control stack for a PMSM

    A shallow embedding of the control core of the repository
    (motor_model.py, foc_control.py, flux_weakening.py,
    disturbance_rejection.py, self_learning.py) and the properties
    its specification states about it.

    Numbers.  Python floats are modelled as real numbers ([R]): rounding
    and overflow are idealised away.  The plant state of motor_model.py,
    which is assigned from the rows an external ODE integrator returns, is
    modelled over [float64], the reals extended with the two infinities
    and NaN, because the specification speaks about non-finite states.
    One operation is modelled with its rounding, the remainder [%] that
    wraps the electrical angle: whether the wrapped angle can reach the
    modulus is decided by the rounding of one addition.

    Exceptions.  A Python call either returns a value or raises; methods
    whose failure the properties speak about return an [outcome].
    Methods that mutate [self] return the new object together with their
    result. *)

From Stdlib Require Import Reals Lra Lia ZArith String List Bool.
Import ListNotations.
Open Scope R_scope.

(** ** Python runtime conventions *)

Inductive exn : Type :=
| AttributeError (attribute : string)
| ValueError (message : string)
| TypeError
| IndexError.

Inductive outcome (A : Type) : Type :=
| Returned (value : A)
| Raised (e : exn).
Arguments Returned {A} value.
Arguments Raised {A} e.

Definition bind {A B : Type} (m : outcome A) (k : A -> outcome B) : outcome B :=
  match m with
  | Returned a => k a
  | Raised e => Raised e
  end.

Notation "x <- m ;; k" := (bind m (fun x => k))
  (at level 61, m at next level, right associativity).

(** The motor configuration record, config/motor_params.json. *)
Record MotorParameters : Type := mk_params {
  p_poles : R;
  p_Rs : R;
  p_Ld : R;
  p_Lq : R;
  p_flux_linkage : R;
  p_J : R;
  p_B : R;
  p_max_current : R;
  p_max_voltage : R;
  p_dc_bus_voltage : R;
  p_sample_time : R
}.

(** [int(x)] on a float truncates towards zero. *)
Definition py_int (x : R) : Z :=
  if Rle_dec 0 x then Int_part x else (- Int_part (- x))%Z.

(** [np.clip(x, lo, hi)] is [minimum(maximum(x, lo), hi)]. *)
Definition np_clip (x lo hi : R) : R := Rmin (Rmax x lo) hi.

(** [np.sign]. *)
Definition np_sign (x : R) : R :=
  if Rlt_dec x 0 then -1 else if Rgt_dec x 0 then 1 else 0.

(** [np.arctan2(y, x)] on real arguments: the angle of the point
    [(x, y)] in (-pi, pi], with [arctan2(0, 0) = 0]. *)
Definition np_arctan2 (y x : R) : R :=
  if Rlt_dec 0 x then atan (y / x)
  else if Rlt_dec x 0 then
    if Rle_dec 0 y then atan (y / x) + PI else atan (y / x) - PI
  else
    if Rlt_dec 0 y then PI / 2
    else if Rlt_dec y 0 then - (PI / 2)
    else 0.

(** *** numpy arrays

    One-dimensional arrays are lists and matrices are lists of rows.  The
    operations below agree with numpy on conformant shapes (where numpy
    raises or broadcasts on a mismatch, the lists are cut short). *)

Fixpoint dot (u v : list R) : R :=
  match u, v with
  | x :: u', y :: v' => x * y + dot u' v'
  | _, _ => 0
  end.

Fixpoint vadd (u v : list R) : list R :=
  match u, v with
  | x :: u', y :: v' => (x + y) :: vadd u' v'
  | _, _ => []
  end.

Fixpoint vsub (u v : list R) : list R :=
  match u, v with
  | x :: u', y :: v' => (x - y) :: vsub u' v'
  | _, _ => []
  end.

(** [v * c] and [v / c] for a scalar [c]. *)
Definition vscale (v : list R) (c : R) : list R := map (fun x => x * c) v.
Definition vdiv (v : list R) (c : R) : list R := map (fun x => x / c) v.

(** [M @ v] *)
Definition matvec (M : list (list R)) (v : list R) : list R :=
  map (fun r => dot r v) M.

Definition ncols (M : list (list R)) : nat :=
  match M with
  | [] => O
  | r :: _ => length r
  end.

Definition column (j : nat) (M : list (list R)) : list R :=
  map (fun r => nth j r 0) M.

(** [v.T @ M]: entry [j] is the sum over [i] of [v[i] * M[i][j]]. *)
Definition vecmat (v : list R) (M : list (list R)) : list R :=
  map (fun j => dot v (column j M)) (seq 0 (ncols M)).

(** [np.outer(u, v)] *)
Definition outer (u v : list R) : list (list R) :=
  map (fun x => map (fun y => x * y) v) u.

Fixpoint msub (M N : list (list R)) : list (list R) :=
  match M, N with
  | r :: M', s :: N' => vsub r s :: msub M' N'
  | _, _ => []
  end.

Definition mdiv (M : list (list R)) (c : R) : list (list R) :=
  map (fun r => vdiv r c) M.

(** [np.zeros_like(v)] *)
Definition zeros_like (v : list R) : list R := map (fun _ => 0) v.

Definition np_sum (l : list R) : R := fold_right Rplus 0 l.

(** [np.mean] *)
Definition np_mean (l : list R) : R := np_sum l / INR (length l).

(** [np.max] and [np.min] of a non-empty array. *)
Definition np_max (l : list R) : R := fold_right Rmax (hd 0 l) l.
Definition np_min (l : list R) : R := fold_right Rmin (hd 0 l) l.

(** [deque(maxlen=n).append(x)]: the oldest element leaves a full buffer. *)
Definition deque_append (maxlen : nat) (d : list R) (x : R) : list R :=
  if (length d <? maxlen)%nat then d ++ [x] else tl d ++ [x].

(** ** foc_control.py *)

Module FocControl.

(** *** class PIController *)
Module PIController.

Record t : Type := mk {
  kp : R;
  ki : R;
  output_limit : option (R * R);   (* None, or [low, high] *)
  integral : R;
  prev_error : R
}.

(** [__init__(kp, ki, output_limit=None)] *)
Definition init (kp ki : R) (output_limit : option (R * R)) : t :=
  mk kp ki output_limit 0 0.

Definition set_integral (self : t) (v : R) : t :=
  mk (kp self) (ki self) (output_limit self) v (prev_error self).

Definition reset (self : t) : t :=
  mk (kp self) (ki self) (output_limit self) 0 0.

(** [update(error, dt)]: the new controller and the returned output. *)
Definition update (self : t) (error dt : R) : t * R :=
  let p_term := kp self * error in
  let self := set_integral self (integral self + error * dt) in
  let i_term := ki self * integral self in
  let output := p_term + i_term in
  match output_limit self with
  | Some (low, high) =>
      if Rgt_dec output high then
        let output := high in
        if Rgt_dec error 0
        then (set_integral self (integral self - error * dt), output)
        else (self, output)
      else if Rlt_dec output low then
        let output := low in
        if Rlt_dec error 0
        then (set_integral self (integral self - error * dt), output)
        else (self, output)
      else (self, output)
  | None => (self, output)
  end.

(** The controller after [n] successive [update(error, dt)] calls. *)
Fixpoint repeat_update (n : nat) (self : t) (error dt : R) : t :=
  match n with
  | O => self
  | S n' => repeat_update n' (fst (update self error dt)) error dt
  end.

End PIController.

(** *** class FOCController *)
Module FOCController.

(** [get_sector(v_alpha, v_beta)]; the method does not read [self]. *)
Definition get_sector (v_alpha v_beta : R) : Z :=
  let angle := np_arctan2 v_beta v_alpha in
  let angle := if Rlt_dec angle 0 then angle + 2 * PI else angle in
  let sector := (py_int (angle / (PI / 3)) + 1)%Z in
  if (sector >? 6)%Z then 6%Z else sector.

Record t : Type := mk {
  poles : R;
  Rs : R;
  Ld : R;
  Lq : R;
  flux_linkage : R;
  max_current : R;
  max_voltage : R;
  dc_bus_voltage : R;
  sample_time : R;
  id_kp : R;
  id_ki : R;
  iq_kp : R;
  iq_ki : R;
  speed_kp : R;
  speed_ki : R;
  id_controller : PIController.t;
  iq_controller : PIController.t;
  speed_controller : PIController.t;
  id_ref : R;
  iq_ref : R;
  speed_ref : R;
  vd : R;
  vq : R
}.

(** The attributes the methods assign after construction. *)
Definition set_state (self : t) (id_controller iq_controller speed_controller :
    PIController.t) (id_ref iq_ref speed_ref vd vq : R) : t :=
  mk (poles self) (Rs self) (Ld self) (Lq self) (flux_linkage self)
     (max_current self) (max_voltage self) (dc_bus_voltage self)
     (sample_time self) (id_kp self) (id_ki self) (iq_kp self) (iq_ki self)
     (speed_kp self) (speed_ki self) id_controller iq_controller
     speed_controller id_ref iq_ref speed_ref vd vq.

Definition reset (self : t) : t :=
  set_state self (PIController.reset (id_controller self))
    (PIController.reset (iq_controller self))
    (PIController.reset (speed_controller self)) 0 0 0 0 0.

(** [__init__]: [load_parameters], [initialize_controllers], [reset]. *)
Definition init (params : MotorParameters) : t :=
  let id_kp := 2 * p_Ld params in
  let id_ki := p_Rs params in
  let iq_kp := 2 * p_Lq params in
  let iq_ki := p_Rs params in
  let speed_kp := 0.5 in
  let speed_ki := 5 in
  let voltage_limit := (- p_max_voltage params, p_max_voltage params) in
  let current_limit := (- p_max_current params, p_max_current params) in
  reset
    (mk (p_poles params) (p_Rs params) (p_Ld params) (p_Lq params)
        (p_flux_linkage params) (p_max_current params) (p_max_voltage params)
        (p_dc_bus_voltage params) (p_sample_time params)
        id_kp id_ki iq_kp iq_ki speed_kp speed_ki
        (PIController.init id_kp id_ki (Some voltage_limit))
        (PIController.init iq_kp iq_ki (Some voltage_limit))
        (PIController.init speed_kp speed_ki (Some current_limit))
        0 0 0 0 0).

Definition clarke_transform (ia ib ic : R) : R * R :=
  let i_alpha := ia in
  let i_beta := (ia + 2 * ib) / sqrt 3 in
  (i_alpha, i_beta).

Definition inverse_clarke_transform (v_alpha v_beta : R) : R * R * R :=
  let va := v_alpha in
  let vb := (- v_alpha + sqrt 3 * v_beta) / 2 in
  let vc := (- v_alpha - sqrt 3 * v_beta) / 2 in
  (va, vb, vc).

Definition park_transform (i_alpha i_beta theta_e : R) : R * R :=
  let id := i_alpha * cos theta_e + i_beta * sin theta_e in
  let iq := - i_alpha * sin theta_e + i_beta * cos theta_e in
  (id, iq).

Definition inverse_park_transform (vd vq theta_e : R) : R * R :=
  let v_alpha := vd * cos theta_e - vq * sin theta_e in
  let v_beta := vd * sin theta_e + vq * cos theta_e in
  (v_alpha, v_beta).

(** [space_vector_modulation(v_alpha, v_beta)]: the three duty cycles.  The
    division by [dc_bus_voltage] is meaningful for a non-zero bus voltage. *)
Definition space_vector_modulation (self : t) (v_alpha v_beta : R) : R * R * R :=
  let sector := get_sector v_alpha v_beta in
  let '(t1, t2) :=
    if (sector =? 1)%Z then (sqrt 3 * v_beta - v_alpha, 2 * v_alpha)
    else if (sector =? 2)%Z then
      (sqrt 3 * v_beta + v_alpha, - sqrt 3 * v_beta + v_alpha)
    else if (sector =? 3)%Z then (2 * v_beta, - sqrt 3 * v_beta - v_alpha)
    else if (sector =? 4)%Z then (- sqrt 3 * v_beta - v_alpha, - 2 * v_alpha)
    else if (sector =? 5)%Z then
      (- sqrt 3 * v_beta + v_alpha, sqrt 3 * v_beta + v_alpha)
    else (- 2 * v_beta, sqrt 3 * v_beta - v_alpha) in
  let v_dc := dc_bus_voltage self in
  let t1 := t1 / v_dc in
  let t2 := t2 / v_dc in
  let t0 := (1 - t1 - t2) / 2 in
  if (sector =? 1)%Z then (t1 + t2 + t0, t2 + t0, t0)
  else if (sector =? 2)%Z then (t1 + t0, t1 + t2 + t0, t0)
  else if (sector =? 3)%Z then (t0, t1 + t2 + t0, t2 + t0)
  else if (sector =? 4)%Z then (t0, t1 + t0, t1 + t2 + t0)
  else if (sector =? 5)%Z then (t2 + t0, t0, t1 + t2 + t0)
  else (t1 + t2 + t0, t0, t1 + t0).

(** [speed_control(speed_ref, speed_actual)]; the arguments that share a
    name with an attribute are primed. *)
Definition speed_control (self : t) (speed_ref' speed_actual : R) : t * R :=
  let speed_error := speed_ref' - speed_actual in
  let '(controller, iq_ref') :=
    PIController.update (speed_controller self) speed_error (sample_time self) in
  (set_state self (id_controller self) (iq_controller self) controller
     (id_ref self) (iq_ref self) (speed_ref self) (vd self) (vq self),
   iq_ref').

Definition current_control (self : t)
    (id_ref' iq_ref' id_actual iq_actual theta_e : R) : t * (R * R) :=
  let id_error := id_ref' - id_actual in
  let iq_error := iq_ref' - iq_actual in
  let '(id_controller', vd') :=
    PIController.update (id_controller self) id_error (sample_time self) in
  let '(iq_controller', vq') :=
    PIController.update (iq_controller self) iq_error (sample_time self) in
  let v_mag := sqrt (vd' * vd' + vq' * vq') in
  let v_max := dc_bus_voltage self / sqrt 3 in
  let '(vd', vq') :=
    if Rgt_dec v_mag v_max then
      let scale := v_max / v_mag in
      (vd' * scale, vq' * scale)
    else (vd', vq') in
  (set_state self id_controller' iq_controller' (speed_controller self)
     (id_ref self) (iq_ref self) (speed_ref self) vd' vq',
   (vd', vq')).

(** The dictionary [update] returns. *)
Record telemetry : Type := mk_telemetry {
  duty_a : R;
  duty_b : R;
  duty_c : R;
  id_actual : R;
  iq_actual : R;
  out_id_ref : R;
  out_iq_ref : R;
  out_vd : R;
  out_vq : R
}.

(** [update(ia, ib, ic, speed_ref, speed_actual, theta_e)] *)
Definition update (self : t) (ia ib ic speed_ref' speed_actual theta_e : R)
    : t * telemetry :=
  let '(i_alpha, i_beta) := clarke_transform ia ib ic in
  let '(id_actual', iq_actual') := park_transform i_alpha i_beta theta_e in
  let '(self, iq_ref') := speed_control self speed_ref' speed_actual in
  let self :=
    set_state self (id_controller self) (iq_controller self)
      (speed_controller self) (id_ref self) iq_ref' (speed_ref self)
      (vd self) (vq self) in
  let '(self, _) :=
    current_control self (id_ref self) (iq_ref self) id_actual' iq_actual' theta_e in
  let '(v_alpha, v_beta) := inverse_park_transform (vd self) (vq self) theta_e in
  let '(duty_a', duty_b', duty_c') := space_vector_modulation self v_alpha v_beta in
  (self,
   mk_telemetry duty_a' duty_b' duty_c' id_actual' iq_actual' (id_ref self)
     (iq_ref self) (vd self) (vq self)).

Definition set_id_reference (self : t) (id_ref' : R) : t :=
  set_state self (id_controller self) (iq_controller self)
    (speed_controller self)
    (np_clip id_ref' (- max_current self) (max_current self))
    (iq_ref self) (speed_ref self) (vd self) (vq self).

Definition set_speed_reference (self : t) (speed_ref' : R) : t :=
  set_state self (id_controller self) (iq_controller self)
    (speed_controller self) (id_ref self) (iq_ref self) speed_ref'
    (vd self) (vq self).

End FOCController.

End FocControl.

(** ** motor_model.py *)

(** *** Values of the plant state

    The plant state is assigned from the array the integrator returns, so
    it holds numpy [float64] values: a real number (rounding idealised,
    except in [%] below), an infinity or NaN.  Arithmetic follows
    IEEE 754 on the special values; there are no signed zeros and division
    never raises (numpy returns an infinity or NaN). *)
Inductive float64 : Type :=
| Fin (x : R)
| PInf
| NInf
| NaN.

(** [np.isfinite] *)
Definition isfinite (a : float64) : bool :=
  match a with Fin _ => true | _ => false end.

Definition signed_inf (positive : bool) : float64 :=
  if positive then PInf else NInf.

(** An infinity of sign [positive] multiplied by the finite [x]. *)
Definition inf_times (positive : bool) (x : R) : float64 :=
  if Rlt_dec 0 x then signed_inf positive
  else if Rlt_dec x 0 then signed_inf (negb positive)
  else NaN.

Definition fneg (a : float64) : float64 :=
  match a with
  | Fin x => Fin (- x)
  | PInf => NInf
  | NInf => PInf
  | NaN => NaN
  end.

Definition fadd (a b : float64) : float64 :=
  match a, b with
  | NaN, _ | _, NaN => NaN
  | Fin x, Fin y => Fin (x + y)
  | PInf, NInf | NInf, PInf => NaN
  | PInf, _ | _, PInf => PInf
  | NInf, _ | _, NInf => NInf
  end.

Definition fsub (a b : float64) : float64 := fadd a (fneg b).

Definition fmul (a b : float64) : float64 :=
  match a, b with
  | NaN, _ | _, NaN => NaN
  | Fin x, Fin y => Fin (x * y)
  | PInf, Fin y | Fin y, PInf => inf_times true y
  | NInf, Fin y | Fin y, NInf => inf_times false y
  | PInf, PInf | NInf, NInf => PInf
  | PInf, NInf | NInf, PInf => NInf
  end.

Definition fdiv (a b : float64) : float64 :=
  match a, b with
  | NaN, _ | _, NaN => NaN
  | Fin x, Fin y => if Req_dec_T y 0 then inf_times true x else Fin (x / y)
  | Fin _, PInf | Fin _, NInf => Fin 0
  | PInf, Fin y => if Rle_dec 0 y then PInf else NInf
  | NInf, Fin y => if Rle_dec 0 y then NInf else PInf
  | _, _ => NaN
  end.

(** **** Rounding to binary64

    [floor(log2 |x|)], the binary exponent of a non-zero [x]. *)
Definition exponent (x : R) : Z := Int_part (ln (Rabs x) / ln 2).

(** The unit in the last place at [x]: 53 significant bits, and the
    fixed spacing [2^-1074] of the subnormal numbers below [2^-1022]. *)
Definition ulp (x : R) : R := powerRZ 2 (Z.max (exponent x - 52) (-1074)).

(** The integer nearest to [t]; of two equally near ones the even one. *)
Definition nearest_even (t : R) : Z :=
  let f := Int_part t in
  if Rlt_dec (t - IZR f) (1 / 2) then f
  else if Rlt_dec (1 / 2) (t - IZR f) then (f + 1)%Z
  else if Z.even f then f else (f + 1)%Z.

(** Round to nearest, ties to even: the double nearest to [x].  Overflow
    to an infinity is not modelled; the one sum rounded below is smaller
    in magnitude than one of its operands. *)
Definition round64 (x : R) : R :=
  if Req_dec_T x 0 then 0 else IZR (nearest_even (x / ulp x)) * ulp x.

(** Rounding toward zero. *)
Definition truncate (t : R) : Z :=
  if Rle_dec 0 t then Int_part t else (- Int_part (- t))%Z.

(** C's [fmod(x, y)] for a non-zero [y]: [x - n*y] with [n] the quotient
    rounded toward zero.  The result has the sign of [x] and is computed
    without rounding error. *)
Definition c_fmod (x y : R) : R := x - y * IZR (truncate (x / y)).

(** [a % b] on floats, as CPython's [float_rem] and numpy's
    [npy_remainder] compute it:
    [mod = fmod(a, b); if (mod) { if ((b < 0) != (mod < 0)) mod += b; }
     else mod = copysign(0, b);]
    The sum [mod + b] is a floating-point addition, so it is rounded. *)
Definition fmod (a b : float64) : float64 :=
  match a, b with
  | Fin x, Fin y =>
      if Req_dec_T y 0 then NaN
      else
        let rem := c_fmod x y in
        if Req_dec_T rem 0 then Fin 0
        else if Bool.eqb (if Rlt_dec y 0 then true else false)
                         (if Rlt_dec rem 0 then true else false)
             then Fin rem
             else Fin (round64 (rem + y))
  | Fin x, PInf => if Rle_dec 0 x then Fin x else PInf
  | Fin x, NInf => if Rle_dec x 0 then Fin x else NInf
  | _, _ => NaN
  end.

(** [np.sqrt] *)
Definition fsqrt (a : float64) : float64 :=
  match a with
  | Fin x => if Rle_dec 0 x then Fin (sqrt x) else NaN
  | PInf => PInf
  | _ => NaN
  end.

(** [a > b]; false as soon as one side is NaN. *)
Definition fgt (a b : float64) : bool :=
  match a, b with
  | NaN, _ | _, NaN => false
  | Fin x, Fin y => if Rgt_dec x y then true else false
  | PInf, PInf => false
  | PInf, _ => true
  | _, PInf => false
  | NInf, _ => false
  | Fin _, NInf => true
  end.

Declare Scope f64_scope.
Delimit Scope f64_scope with f64.
Bind Scope f64_scope with float64.
Infix "+" := fadd : f64_scope.
Infix "-" := fsub : f64_scope.
Infix "*" := fmul : f64_scope.
Infix "/" := fdiv : f64_scope.
Infix "mod" := fmod (at level 40, no associativity) : f64_scope.

(** [np.pi]: the double nearest to pi.  It enters the plant only as the
    modulus [2 * np.pi] of the angle and in the rpm conversion. *)
Definition np_pi : float64 := Fin (round64 PI).

(** The value of [2 * np.pi]; doubling a double is exact. *)
Definition two_pi : R := 2 * round64 PI.

(** [np.cos], [np.sin]: NaN outside the finite numbers. *)
Definition fcos (a : float64) : float64 :=
  match a with Fin x => Fin (cos x) | _ => NaN end.

Definition fsin (a : float64) : float64 :=
  match a with Fin x => Fin (sin x) | _ => NaN end.

(** [abs] *)
Definition fabs (a : float64) : float64 :=
  match a with
  | Fin x => Fin (Rabs x)
  | PInf | NInf => PInf
  | NaN => NaN
  end.

(** *** class PMSMModel *)
Module PMSMModel.

Record t : Type := mk {
  poles : float64;
  Rs : float64;
  Ld : float64;
  Lq : float64;
  flux_linkage : float64;
  J : float64;
  B : float64;
  max_current : float64;
  max_voltage : float64;
  dc_bus_voltage : float64;
  sample_time : float64;
  id : float64;
  iq : float64;
  wr : float64;
  theta_e : float64;
  load_torque : float64
}.

(** The state vector [[id, iq, wr, theta_e]] handed to the integrator. *)
Definition row : Type := (float64 * float64 * float64 * float64)%type.

Definition set_state (self : t) (id iq wr theta_e load_torque : float64) : t :=
  mk (poles self) (Rs self) (Ld self) (Lq self) (flux_linkage self) (J self)
     (B self) (max_current self) (max_voltage self) (dc_bus_voltage self)
     (sample_time self) id iq wr theta_e load_torque.

Definition reset_state (self : t) : t :=
  set_state self (Fin 0) (Fin 0) (Fin 0) (Fin 0) (Fin 0).

Definition electrical_dynamics (self : t) (state : row) (t : float64)
    (vd vq load_torque : float64) : row :=
  let '(id, iq, wr, theta_e) := state in
  let did_dt := ((vd - Rs self * id + wr * Lq self * iq) / Ld self)%f64 in
  let diq_dt :=
    ((vq - Rs self * iq - wr * Ld self * id - wr * flux_linkage self) / Lq self)%f64 in
  let Te :=
    (Fin 1.5 * poles self *
     (flux_linkage self * iq + (Ld self - Lq self) * id * iq))%f64 in
  let dwr_dt := ((Te - load_torque - B self * wr) / J self)%f64 in
  let dtheta_dt := wr in
  (did_dt, diq_dt, dwr_dt, dtheta_dt).

(** The telemetry dictionary [update] returns. *)
Record telemetry : Type := mk_telemetry {
  out_id : float64;
  out_iq : float64;
  out_wr : float64;
  out_theta_e : float64;
  out_Te : float64;
  out_speed_rpm : float64
}.

Section Update.

(** [scipy.integrate.odeint(func, y0, t)] called with the two time points
    [t = [0, sample_time]]: an external integrator, which returns one
    state row per time point. *)
Variable odeint : (row -> float64 -> row) -> row -> float64 * float64 -> row * row.

(** The last row of the solution of one [update] call, [solution[-1]]. *)
Definition integrate (self : t) (vd vq load_torque : float64) : row :=
  let state := (id self, iq self, wr self, theta_e self) in
  let t := (Fin 0, sample_time self) in
  let solution :=
    odeint (fun y t => electrical_dynamics self y t vd vq load_torque) state t in
  snd solution.

(** [update(vd, vq, load_torque)]: the body has no [raise] and no check, so
    the call always returns. *)
Definition update (self : t) (vd vq load_torque : float64)
    : outcome (t * telemetry) :=
  let '(new_id, new_iq, new_wr, new_theta_e) := integrate self vd vq load_torque in
  let new_theta_e := (new_theta_e mod (Fin 2 * np_pi))%f64 in
  let self := set_state self new_id new_iq new_wr new_theta_e load_torque in
  let Te :=
    (Fin 1.5 * poles self *
     (flux_linkage self * iq self + (Ld self - Lq self) * id self * iq self))%f64 in
  Returned (self,
    mk_telemetry (id self) (iq self) (wr self) (theta_e self) Te
      (wr self * Fin 60 / (Fin 2 * np_pi * poles self / Fin 2))%f64).

(** The plant after a sequence of [update] calls, one state per call. *)
Fixpoint run (self : t) (inputs : list (float64 * float64 * float64)) : list t :=
  match inputs with
  | [] => []
  | (vd, vq, load_torque) :: rest =>
      match update self vd vq load_torque with
      | Returned (self', _) => self' :: run self' rest
      | Raised _ => []
      end
  end.

End Update.

Definition apply_voltage_limits (self : t) (vd vq : float64) : float64 * float64 :=
  let v_mag := fsqrt (vd * vd + vq * vq)%f64 in
  let v_max := (dc_bus_voltage self / fsqrt (Fin 3))%f64 in
  if fgt v_mag v_max then
    let scale := (v_max / v_mag)%f64 in
    ((vd * scale)%f64, (vq * scale)%f64)
  else (vd, vq).

Definition apply_current_limits (self : t) (id_ref iq_ref : float64)
    : float64 * float64 :=
  let i_mag := fsqrt (id_ref * id_ref + iq_ref * iq_ref)%f64 in
  if fgt i_mag (max_current self) then
    let scale := (max_current self / i_mag)%f64 in
    ((id_ref * scale)%f64, (iq_ref * scale)%f64)
  else (id_ref, iq_ref).

Definition get_three_phase_currents (self : t) : float64 * float64 * float64 :=
  let i_alpha := (id self * fcos (theta_e self) - iq self * fsin (theta_e self))%f64 in
  let i_beta := (id self * fsin (theta_e self) + iq self * fcos (theta_e self))%f64 in
  let ia := i_alpha in
  let ib := (Fin (-0.5) * i_alpha + fsqrt (Fin 3) / Fin 2 * i_beta)%f64 in
  let ic := (Fin (-0.5) * i_alpha - fsqrt (Fin 3) / Fin 2 * i_beta)%f64 in
  (ia, ib, ic).

Definition get_dc_bus_current (self : t) : float64 :=
  let '(ia, ib, ic) := get_three_phase_currents self in
  (fabs ia + fabs ib + fabs ic)%f64.

End PMSMModel.

(** ** flux_weakening.py *)

Module FluxWeakening.

(** The file's own [class PIController] (lines 230-270) is a verbatim copy
    of the class in foc_control.py; one embedding serves both. *)
Module PIController := FocControl.PIController.

(** *** class FluxWeakeningController *)
Module FluxWeakeningController.

Record t : Type := mk {
  poles : R;
  Rs : R;
  Ld : R;
  Lq : R;
  flux_linkage : R;
  max_current : R;
  max_voltage : R;
  dc_bus_voltage : R;
  sample_time : R;
  base_speed : R;
  fw_kp : R;
  fw_ki : R;
  voltage_margin : R;
  fw_controller : PIController.t;
  id_fw : R;
  in_flux_weakening : bool
}.

(** [calculate_base_speed()], on the fields [load_parameters] has just read. *)
Definition calculate_base_speed (dc_bus_voltage flux_linkage poles : R) : R :=
  let v_max := dc_bus_voltage / sqrt 3 in
  let base_speed_e := v_max / flux_linkage in
  let base_speed_m := base_speed_e / (poles / 2) in
  base_speed_m.

Definition set_fw (self : t) (fw_controller : PIController.t) (id_fw : R)
    (in_flux_weakening : bool) : t :=
  mk (poles self) (Rs self) (Ld self) (Lq self) (flux_linkage self)
     (max_current self) (max_voltage self) (dc_bus_voltage self)
     (sample_time self) (base_speed self) (fw_kp self) (fw_ki self)
     (voltage_margin self) fw_controller id_fw in_flux_weakening.

Definition reset (self : t) : t :=
  set_fw self (PIController.reset (fw_controller self)) 0 false.

(** [__init__]: [load_parameters], [initialize_controller], [reset]. *)
Definition init (params : MotorParameters) : t :=
  let fw_kp := 0.5 in
  let fw_ki := 10 in
  let current_limit := (- p_max_current params, 0) in
  reset
    (mk (p_poles params) (p_Rs params) (p_Ld params) (p_Lq params)
        (p_flux_linkage params) (p_max_current params) (p_max_voltage params)
        (p_dc_bus_voltage params) (p_sample_time params)
        (calculate_base_speed (p_dc_bus_voltage params) (p_flux_linkage params)
           (p_poles params))
        fw_kp fw_ki 0.95
        (PIController.init fw_kp fw_ki (Some current_limit)) 0 false).

Definition voltage_based_flux_weakening (self : t) (wr vd vq : R) : t * R :=
  let v_mag := sqrt (vd * vd + vq * vq) in
  let v_limit := dc_bus_voltage self / sqrt 3 * voltage_margin self in
  let v_error := v_mag - v_limit in
  let self :=
    if Rgt_dec v_error 0 then
      let '(pi, out) := PIController.update (fw_controller self) v_error (sample_time self) in
      set_fw self pi out true
    else
      let self := set_fw self (fw_controller self) (id_fw self * 0.95) false in
      if Rlt_dec (Rabs (id_fw self)) 0.01
      then set_fw self (PIController.reset (fw_controller self)) 0 false
      else self in
  (self, id_fw self).

Definition speed_based_flux_weakening (self : t) (wr iq_ref : R) : t * R :=
  let self :=
    if Rgt_dec wr (base_speed self) then
      let id_fw := - (flux_linkage self + Lq self * iq_ref) / Ld self in
      let id_fw := np_clip id_fw (- max_current self) 0 in
      set_fw self (fw_controller self) id_fw true
    else
      set_fw self (PIController.reset (fw_controller self)) 0 false in
  (self, id_fw self).

Definition lookup_table_flux_weakening (self : t) (wr iq_ref : R) : t * R :=
  let speed_ratio := wr / base_speed self in
  if Rle_dec speed_ratio 1 then (self, 0)
  else
    let over_speed_factor := speed_ratio - 1 in
    let id_fw := - over_speed_factor * flux_linkage self / Ld self in
    let id_fw := id_fw - Lq self * iq_ref / Ld self in
    let id_fw := np_clip id_fw (- max_current self) 0 in
    (self, id_fw).

(** [update(wr, vd, vq, iq_ref, method='voltage')] *)
Definition update (self : t) (wr vd vq iq_ref : R) (method : string)
    : outcome (t * R) :=
  if (method =? "voltage")%string then
    Returned (voltage_based_flux_weakening self wr vd vq)
  else if (method =? "speed")%string then
    Returned (speed_based_flux_weakening self wr iq_ref)
  else if (method =? "lookup")%string then
    Returned (lookup_table_flux_weakening self wr iq_ref)
  else Returned (self, 0).

(** [calculate_voltage_limit_ellipse(wr)]: centre and radii. *)
Definition calculate_voltage_limit_ellipse (self : t) (wr : R) : R * R * R * R :=
  let v_max := dc_bus_voltage self / sqrt 3 in
  if Rgt_dec wr 10 then
    let id_center := - flux_linkage self / Ld self in
    let iq_center := 0 in
    let a := v_max / (wr * Ld self) in
    let b := v_max / (wr * Lq self) in
    (id_center, iq_center, a, b)
  else (0, 0, max_current self, max_current self).

Definition calculate_current_limit_circle (self : t) : R * R * R :=
  (0, 0, max_current self).

(** [get_optimal_current_references(wr, torque_ref)].  The divisions and
    [np.sqrt] are meaningful for non-zero divisors and non-negative
    arguments (numpy returns an infinity or NaN otherwise). *)
Definition get_optimal_current_references (self : t) (wr torque_ref : R)
    : t * (R * R) :=
  let '(self, (id_ref, iq_ref)) :=
    if Rlt_dec (Rabs (Ld self - Lq self)) 1e-6 then
      if Rle_dec wr (base_speed self) then
        let id_ref := 0 in
        let iq_ref := torque_ref / (1.5 * poles self * flux_linkage self) in
        (self, (id_ref, iq_ref))
      else
        let '(self, id_ref) :=
          speed_based_flux_weakening self wr
            (torque_ref / (1.5 * poles self * flux_linkage self)) in
        let iq_ref :=
          torque_ref / (1.5 * poles self * (flux_linkage self + Ld self * id_ref)) in
        (self, (id_ref, iq_ref))
    else
      if Rle_dec wr (base_speed self) then
        let iq_ref :=
          sqrt (Rabs torque_ref / (1.5 * poles self * (Ld self - Lq self))) in
        let id_ref :=
          - flux_linkage self / (2 * (Ld self - Lq self)) -
          sqrt ((flux_linkage self / (2 * (Ld self - Lq self))) *
                (flux_linkage self / (2 * (Ld self - Lq self))) + iq_ref * iq_ref) in
        (self, (id_ref, iq_ref))
      else
        let iq_ref := torque_ref / (1.5 * poles self * flux_linkage self) in
        let '(self, id_ref) := speed_based_flux_weakening self wr iq_ref in
        (self, (id_ref, iq_ref)) in
  let i_mag := sqrt (id_ref * id_ref + iq_ref * iq_ref) in
  if Rgt_dec i_mag (max_current self) then
    let scale := max_current self / i_mag in
    (self, (id_ref * scale, iq_ref * scale))
  else (self, (id_ref, iq_ref)).

End FluxWeakeningController.

End FluxWeakening.

(** ** self_learning.py *)

Module SelfLearning.

(** An estimator dictionary [{'theta': ..., 'P': ..., 'lambda': ...}]. *)
Record estimator : Type := mk_estimator {
  theta : list R;
  P : list (list R);
  lambda : R
}.

(** [np.eye(n) * 1000] for the sizes in use. *)
Definition eye1_1000 : list (list R) := [[1000]].
Definition eye2_1000 : list (list R) := [[1000; 0]; [0; 1000]].

(** *** class MotorParameterIdentification *)
Module MotorParameterIdentification.

Record t : Type := mk {
  poles : R;
  Rs_nominal : R;
  Ld_nominal : R;
  Lq_nominal : R;
  flux_nominal : R;
  J_nominal : R;
  B_nominal : R;
  max_current : R;
  sample_time : R;
  identification_enabled : bool;
  forgetting_factor : R;
  min_speed_for_identification : R;
  Rs_estimator : estimator;
  L_estimator : estimator;
  flux_estimator : estimator;
  mech_estimator : estimator;
  Rs_identified : R;
  Ld_identified : R;
  Lq_identified : R;
  flux_identified : R;
  J_identified : R;
  B_identified : R;
  identification_count : Z;
  identification_complete : bool
}.

(** [__init__]: [load_parameters], [initialize_estimators], [reset]
    (the data buffers of [reset] are not modelled). *)
Definition init (params : MotorParameters) : t :=
  let forgetting_factor := 0.99 in
  mk (p_poles params) (p_Rs params) (p_Ld params) (p_Lq params)
     (p_flux_linkage params) (p_J params) (p_B params) (p_max_current params)
     (p_sample_time params) true forgetting_factor 10
     (mk_estimator [p_Rs params] eye1_1000 forgetting_factor)
     (mk_estimator [p_Ld params; p_Lq params] eye2_1000 forgetting_factor)
     (mk_estimator [p_flux_linkage params] eye1_1000 forgetting_factor)
     (mk_estimator [p_J params; p_B params] eye2_1000 forgetting_factor)
     (p_Rs params) (p_Ld params) (p_Lq params) (p_flux_linkage params)
     (p_J params) (p_B params) 0%Z false.

(** [rls_update(estimator, phi, y)]: the updated estimator and the error. *)
Definition rls_update (est : estimator) (phi : list R) (y : R) : estimator * R :=
  let theta := theta est in
  let P := P est in
  let lambda_factor := lambda est in
  let denominator := lambda_factor + dot (vecmat phi P) phi in
  let K :=
    if Rgt_dec (Rabs denominator) 1e-10
    then vdiv (matvec P phi) denominator
    else zeros_like theta in
  let error := y - dot phi theta in
  let theta_new := vadd theta (vscale K error) in
  let P_new := mdiv (msub P (outer K (vecmat phi P))) lambda_factor in
  (mk_estimator theta_new P_new lambda_factor, error).

Definition set_Rs (self : t) (Rs_estimator : estimator) (Rs_identified : R) : t :=
  mk (poles self) (Rs_nominal self) (Ld_nominal self) (Lq_nominal self)
     (flux_nominal self) (J_nominal self) (B_nominal self) (max_current self)
     (sample_time self) (identification_enabled self) (forgetting_factor self)
     (min_speed_for_identification self) Rs_estimator (L_estimator self)
     (flux_estimator self) (mech_estimator self) Rs_identified
     (Ld_identified self) (Lq_identified self) (flux_identified self)
     (J_identified self) (B_identified self) (identification_count self)
     (identification_complete self).

(** [identify_resistance(vd, id, vq, iq, wr)];
    [self.Rs_estimator['theta'][0]] raises [IndexError] on an empty array. *)
Definition identify_resistance (self : t) (vd id vq iq wr : R) : outcome t :=
  if Rlt_dec (Rabs wr) (min_speed_for_identification self) then
    if Rgt_dec (Rabs id) 0.1 then
      let phi := [id] in
      let y := vd in
      let '(Rs_estimator, error) := rls_update (Rs_estimator self) phi y in
      match theta Rs_estimator with
      | theta0 :: _ => Returned (set_Rs self Rs_estimator theta0)
      | [] => Raised IndexError
      end
    else if Rgt_dec (Rabs iq) 0.1 then
      let phi := [iq] in
      let y := vq in
      let '(Rs_estimator, error) := rls_update (Rs_estimator self) phi y in
      match theta Rs_estimator with
      | theta0 :: _ => Returned (set_Rs self Rs_estimator theta0)
      | [] => Raised IndexError
      end
    else Returned self
  else Returned self.

(** [array[i]], raising [IndexError] past the end. *)
Definition array_get (a : list R) (i : nat) : outcome R :=
  match nth_error a i with
  | Some x => Returned x
  | None => Raised IndexError
  end.

(** [array[0] = x], in place. *)
Definition array_set0 (a : list R) (x : R) : outcome (list R) :=
  match a with
  | _ :: rest => Returned (x :: rest)
  | [] => Raised IndexError
  end.

Definition set_L (self : t) (L_estimator : estimator) (Ld_identified : R) : t :=
  mk (poles self) (Rs_nominal self) (Ld_nominal self) (Lq_nominal self)
     (flux_nominal self) (J_nominal self) (B_nominal self) (max_current self)
     (sample_time self) (identification_enabled self) (forgetting_factor self)
     (min_speed_for_identification self) (Rs_estimator self) L_estimator
     (flux_estimator self) (mech_estimator self) (Rs_identified self)
     Ld_identified (Lq_identified self) (flux_identified self)
     (J_identified self) (B_identified self) (identification_count self)
     (identification_complete self).

Definition set_Lq_identified (self : t) (Lq_identified : R) : t :=
  mk (poles self) (Rs_nominal self) (Ld_nominal self) (Lq_nominal self)
     (flux_nominal self) (J_nominal self) (B_nominal self) (max_current self)
     (sample_time self) (identification_enabled self) (forgetting_factor self)
     (min_speed_for_identification self) (Rs_estimator self) (L_estimator self)
     (flux_estimator self) (mech_estimator self) (Rs_identified self)
     (Ld_identified self) Lq_identified (flux_identified self)
     (J_identified self) (B_identified self) (identification_count self)
     (identification_complete self).

Definition set_flux (self : t) (flux_estimator : estimator) (flux_identified : R) : t :=
  mk (poles self) (Rs_nominal self) (Ld_nominal self) (Lq_nominal self)
     (flux_nominal self) (J_nominal self) (B_nominal self) (max_current self)
     (sample_time self) (identification_enabled self) (forgetting_factor self)
     (min_speed_for_identification self) (Rs_estimator self) (L_estimator self)
     flux_estimator (mech_estimator self) (Rs_identified self)
     (Ld_identified self) (Lq_identified self) flux_identified
     (J_identified self) (B_identified self) (identification_count self)
     (identification_complete self).

Definition set_mech (self : t) (mech_estimator : estimator)
    (J_identified B_identified : R) : t :=
  mk (poles self) (Rs_nominal self) (Ld_nominal self) (Lq_nominal self)
     (flux_nominal self) (J_nominal self) (B_nominal self) (max_current self)
     (sample_time self) (identification_enabled self) (forgetting_factor self)
     (min_speed_for_identification self) (Rs_estimator self) (L_estimator self)
     (flux_estimator self) mech_estimator (Rs_identified self)
     (Ld_identified self) (Lq_identified self) (flux_identified self)
     J_identified B_identified (identification_count self)
     (identification_complete self).

Definition set_status (self : t) (identification_enabled : bool)
    (identification_count : Z) (identification_complete : bool) : t :=
  mk (poles self) (Rs_nominal self) (Ld_nominal self) (Lq_nominal self)
     (flux_nominal self) (J_nominal self) (B_nominal self) (max_current self)
     (sample_time self) identification_enabled (forgetting_factor self)
     (min_speed_for_identification self) (Rs_estimator self) (L_estimator self)
     (flux_estimator self) (mech_estimator self) (Rs_identified self)
     (Ld_identified self) (Lq_identified self) (flux_identified self)
     (J_identified self) (B_identified self) identification_count
     identification_complete.

(** [identify_inductance(vd, id, vq, iq, wr, did_dt, diq_dt)].  The second
    regression works on a temporary dictionary that borrows the covariance
    of [L_estimator]; only its [theta[0]] is kept. *)
Definition identify_inductance (self : t) (vd id vq iq wr did_dt diq_dt : R)
    : outcome t :=
  if Rgt_dec (Rabs wr) (min_speed_for_identification self) then
    self <-
      (if Rgt_dec (Rabs diq_dt) 1e-6 then
         let phi_Ld := [wr * id; diq_dt] in
         let y_Ld := vq - Rs_identified self * iq - wr * flux_identified self in
         theta0 <- array_set0 (theta (L_estimator self)) (Ld_identified self) ;;
         let '(L_estimator', error_Ld) :=
           rls_update
             (mk_estimator theta0 (P (L_estimator self)) (lambda (L_estimator self)))
             phi_Ld y_Ld in
         Ld <- array_get (theta L_estimator') 0 ;;
         Returned (set_L self L_estimator' Ld)
       else Returned self) ;;
    if Rgt_dec (Rabs did_dt) 1e-6 then
      let phi_Lq := [- wr * iq; did_dt] in
      let y_Lq := vd - Rs_identified self * id in
      let temp_theta := [Lq_identified self; Ld_identified self] in
      let temp_estimator :=
        mk_estimator temp_theta (P (L_estimator self)) (lambda (L_estimator self)) in
      let '(temp_estimator, error_Lq) := rls_update temp_estimator phi_Lq y_Lq in
      Lq <- array_get (theta temp_estimator) 0 ;;
      Returned (set_Lq_identified self Lq)
    else Returned self
  else Returned self.

(** [identify_flux_linkage(vd, id, vq, iq, wr)] *)
Definition identify_flux_linkage (self : t) (vd id vq iq wr : R) : outcome t :=
  if Rgt_dec (Rabs wr) (min_speed_for_identification self) then
    if Rgt_dec (Rabs iq) 0.1 then
      let phi_flux := [wr] in
      let y_flux := vq - Rs_identified self * iq - wr * Ld_identified self * id in
      let '(flux_estimator', error) :=
        rls_update (flux_estimator self) phi_flux y_flux in
      flux <- array_get (theta flux_estimator') 0 ;;
      Returned (set_flux self flux_estimator' flux)
    else Returned self
  else Returned self.

(** [identify_mechanical_parameters(Te, wr, dwr_dt)] *)
Definition identify_mechanical_parameters (self : t) (Te wr dwr_dt : R) : outcome t :=
  if Rgt_dec (Rabs dwr_dt) 1e-6 then
    let phi_mech := [dwr_dt; wr] in
    let y_mech := Te in
    let '(mech_estimator', error) := rls_update (mech_estimator self) phi_mech y_mech in
    J <- array_get (theta mech_estimator') 0 ;;
    B <- array_get (theta mech_estimator') 1 ;;
    Returned (set_mech self mech_estimator' J B)
  else Returned self.

Definition enable_identification (self : t) : t :=
  set_status self true (identification_count self) (identification_complete self).

Definition disable_identification (self : t) : t :=
  set_status self false (identification_count self) (identification_complete self).

(** [deque(maxlen=n).append(x)] for buffers of any element type. *)
Definition buffer_append {A : Type} (maxlen : nat) (d : list A) (x : A) : list A :=
  if (length d <? maxlen)%nat then d ++ [x] else tl d ++ [x].

(** [buffer[-2]], defined for at least two elements. *)
Definition second_last {A : Type} (d : list A) : option A := nth_error (rev d) 1.

(** The object together with the four data buffers [reset] creates
    ([data_buffer_size] is 1000). *)
Record session : Type := mk_session {
  identifier : t;
  voltage_buffer : list (R * R);
  current_buffer : list (R * R);
  speed_buffer : list R;
  torque_buffer : list R
}.

Definition new_session (params : MotorParameters) : session :=
  mk_session (init params) [] [] [] [].

(** [update(vd, id, vq, iq, wr, Te=None, load_torque=0.0)].  The finite
    differences divide by [sample_time], which must not be zero. *)
Definition update (s : session) (vd id vq iq wr : R) (Te : option R)
    (load_torque : R) : outcome session :=
  let self := identifier s in
  if negb (identification_enabled self) then Returned s
  else
    let voltage_buffer := buffer_append 1000 (voltage_buffer s) (vd, vq) in
    let current_buffer := buffer_append 1000 (current_buffer s) (id, iq) in
    let speed_buffer := buffer_append 1000 (speed_buffer s) wr in
    let torque_buffer :=
      match Te with
      | Some Te => buffer_append 1000 (torque_buffer s) Te
      | None => torque_buffer s
      end in
    let '(did_dt, diq_dt) :=
      match second_last current_buffer with
      | Some (id_prev, iq_prev) =>
          ((id - id_prev) / sample_time self, (iq - iq_prev) / sample_time self)
      | None => (0, 0)
      end in
    let dwr_dt :=
      match second_last speed_buffer with
      | Some wr_prev => (wr - wr_prev) / sample_time self
      | None => 0
      end in
    self <- identify_resistance self vd id vq iq wr ;;
    self <- identify_inductance self vd id vq iq wr did_dt diq_dt ;;
    self <- identify_flux_linkage self vd id vq iq wr ;;
    self <-
      match Te with
      | Some Te => identify_mechanical_parameters self Te wr dwr_dt
      | None => Returned self
      end ;;
    let count := (identification_count self + 1)%Z in
    let self :=
      set_status self (identification_enabled self) count
        (if (count >? 100)%Z then true else identification_complete self) in
    Returned (mk_session self voltage_buffer current_buffer speed_buffer torque_buffer).

End MotorParameterIdentification.

End SelfLearning.

(** ** disturbance_rejection.py *)

Module DisturbanceRejection.

(** *** class DisturbanceObserver *)
Module DisturbanceObserver.

Record t : Type := mk {
  J : R;
  B : R;
  poles : R;
  sample_time : R;
  observer_bandwidth : R;
  observer_gain : R;
  disturbance_estimate : R;
  speed_estimate : R;
  observed_torque : R
}.

Definition set_state (self : t) (disturbance_estimate speed_estimate observed_torque : R) : t :=
  mk (J self) (B self) (poles self) (sample_time self) (observer_bandwidth self)
     (observer_gain self) disturbance_estimate speed_estimate observed_torque.

Definition reset (self : t) : t := set_state self 0 0 0.

Definition init (params : MotorParameters) : t :=
  let observer_bandwidth := 100 in
  mk (p_J params) (p_B params) (p_poles params) (p_sample_time params)
     observer_bandwidth (observer_bandwidth * p_J params) 0 0 0.

(** [update(Te, wr_actual, load_torque_estimate=0.0)] *)
Definition update (self : t) (Te wr_actual load_torque_estimate : R) : t * R :=
  let speed_error := speed_estimate self - wr_actual in
  let disturbance_estimate :=
    disturbance_estimate self + observer_gain self * speed_error * sample_time self in
  let speed_estimate :=
    speed_estimate self +
    ((Te - B self * wr_actual - disturbance_estimate) / J self) * sample_time self in
  let observed_torque := disturbance_estimate + load_torque_estimate in
  (set_state self disturbance_estimate speed_estimate observed_torque, observed_torque).

End DisturbanceObserver.

(** *** class AdaptiveController *)
Module AdaptiveController.

(** The dictionary [get_adaptive_gains] returns. *)
Record gains : Type := mk_gains {
  id_kp : R;
  id_ki : R;
  iq_kp : R;
  iq_ki : R;
  speed_kp : R;
  speed_ki : R
}.

Record t : Type := mk {
  Rs : R;
  Ld : R;
  Lq : R;
  flux_linkage : R;
  J : R;
  B : R;
  sample_time : R;
  adaptation_rate : R;
  min_gain : R;
  max_gain : R;
  id_kp_adaptive : R;
  id_ki_adaptive : R;
  iq_kp_adaptive : R;
  iq_ki_adaptive : R;
  speed_kp_adaptive : R;
  speed_ki_adaptive : R;
  id_error_integral : R;
  iq_error_integral : R;
  speed_error_integral : R
}.

Definition set_state (self : t) (g : gains) (id_int iq_int speed_int : R) : t :=
  mk (Rs self) (Ld self) (Lq self) (flux_linkage self) (J self) (B self)
     (sample_time self) (adaptation_rate self) (min_gain self) (max_gain self)
     (id_kp g) (id_ki g) (iq_kp g) (iq_ki g) (speed_kp g) (speed_ki g)
     id_int iq_int speed_int.

Definition get_adaptive_gains (self : t) : gains :=
  mk_gains (id_kp_adaptive self) (id_ki_adaptive self) (iq_kp_adaptive self)
    (iq_ki_adaptive self) (speed_kp_adaptive self) (speed_ki_adaptive self).

Definition reset (self : t) : t :=
  set_state self (get_adaptive_gains self) 0 0 0.

Definition init (params : MotorParameters) : t :=
  mk (p_Rs params) (p_Ld params) (p_Lq params) (p_flux_linkage params)
     (p_J params) (p_B params) (p_sample_time params) 0.01 0.1 10
     (2 * p_Ld params) (p_Rs params) (2 * p_Lq params) (p_Rs params) 0.5 5
     0 0 0.

(** [update_gains(id_error, iq_error, speed_error, wr)] *)
Definition update_gains (self : t) (id_error iq_error speed_error wr : R) : t :=
  let id_int := id_error_integral self + id_error * id_error * sample_time self in
  let iq_int := iq_error_integral self + iq_error * iq_error * sample_time self in
  let speed_int :=
    speed_error_integral self + speed_error * speed_error * sample_time self in
  let '(id_kp, id_ki) :=
    if Rgt_dec id_int 0.1
    then (id_kp_adaptive self * (1 + adaptation_rate self),
          id_ki_adaptive self * (1 + adaptation_rate self))
    else (id_kp_adaptive self * (1 - adaptation_rate self * 0.5),
          id_ki_adaptive self * (1 - adaptation_rate self * 0.5)) in
  let '(iq_kp, iq_ki) :=
    if Rgt_dec iq_int 0.1
    then (iq_kp_adaptive self * (1 + adaptation_rate self),
          iq_ki_adaptive self * (1 + adaptation_rate self))
    else (iq_kp_adaptive self * (1 - adaptation_rate self * 0.5),
          iq_ki_adaptive self * (1 - adaptation_rate self * 0.5)) in
  let '(speed_kp, speed_ki) :=
    if Rgt_dec speed_int 1
    then (speed_kp_adaptive self * (1 + adaptation_rate self),
          speed_ki_adaptive self * (1 + adaptation_rate self))
    else (speed_kp_adaptive self * (1 - adaptation_rate self * 0.5),
          speed_ki_adaptive self * (1 - adaptation_rate self * 0.5)) in
  let g :=
    mk_gains (np_clip id_kp (min_gain self) (max_gain self))
      (np_clip id_ki (min_gain self) (max_gain self))
      (np_clip iq_kp (min_gain self) (max_gain self))
      (np_clip iq_ki (min_gain self) (max_gain self))
      (np_clip speed_kp (min_gain self) (max_gain self))
      (np_clip speed_ki (min_gain self) (max_gain self)) in
  if (py_int wr mod 100 =? 0)%Z
  then set_state self g (id_int * 0.9) (iq_int * 0.9) (speed_int * 0.9)
  else set_state self g id_int iq_int speed_int.

End AdaptiveController.

(** *** class RobustController *)
Module RobustController.

Record t : Type := mk {
  Rs : R;
  Ld : R;
  Lq : R;
  flux_linkage : R;
  J : R;
  B : R;
  sample_time : R;
  sliding_gain : R;
  boundary_layer : R;
  h_infinity_gamma : R;
  sliding_surface : R;
  sliding_surface_prev : R;
  control_output_prev : R;
  hinf_state : R * R
}.

Definition set_state (self : t) (sliding_surface sliding_surface_prev
    control_output_prev : R) (hinf_state : R * R) : t :=
  mk (Rs self) (Ld self) (Lq self) (flux_linkage self) (J self) (B self)
     (sample_time self) (sliding_gain self) (boundary_layer self)
     (h_infinity_gamma self) sliding_surface sliding_surface_prev
     control_output_prev hinf_state.

Definition reset (self : t) : t := set_state self 0 0 0 (0, 0).

Definition init (params : MotorParameters) : t :=
  mk (p_Rs params) (p_Ld params) (p_Lq params) (p_flux_linkage params)
     (p_J params) (p_B params) (p_sample_time params) 10 0.1 1 0 0 0 (0, 0).

(** [sliding_mode_control(error, error_dot, disturbance_estimate=0.0)] *)
Definition sliding_mode_control (self : t) (error error_dot disturbance_estimate : R)
    : t * R :=
  let lambda_smc := 10 in
  let self :=
    set_state self (error_dot + lambda_smc * error) (sliding_surface_prev self)
      (control_output_prev self) (hinf_state self) in
  let equivalent_control := - error_dot - lambda_smc * error in
  let switching_control := - sliding_gain self * np_sign (sliding_surface self) in
  let switching_control :=
    if Rlt_dec (Rabs (sliding_surface self)) (boundary_layer self)
    then - sliding_gain self * sliding_surface self / boundary_layer self
    else switching_control in
  let control_output := equivalent_control + switching_control - disturbance_estimate in
  (self, control_output).

End RobustController.

(** *** class DisturbanceRejectionController *)
Module DisturbanceRejectionController.

(** The [performance_metrics] dictionary. *)
Record metrics : Type := mk_metrics {
  speed_error_rms : R;
  torque_ripple : R;
  disturbance_rejection_ratio : R
}.

(** The instance attributes, all assigned by [__init__]; no other method
    of the class assigns an attribute that [__init__] does not. *)
Record t : Type := mk {
  disturbance_observer : DisturbanceObserver.t;
  adaptive_controller : AdaptiveController.t;
  robust_controller : RobustController.t;
  control_mode : string;
  performance_metrics : metrics;
  speed_error_buffer : list R;
  torque_buffer : list R;
  disturbance_buffer : list R
}.

Definition init (params : MotorParameters) : t :=
  mk (DisturbanceObserver.init params) (AdaptiveController.init params)
     (RobustController.init params) "observer" (mk_metrics 0 0 0) [] [] [].

Definition reset (self : t) : t :=
  mk (DisturbanceObserver.reset (disturbance_observer self))
     (AdaptiveController.reset (adaptive_controller self))
     (RobustController.reset (robust_controller self))
     (control_mode self) (performance_metrics self) [] [] [].

(** What an attribute of an instance can hold. *)
Inductive attribute : Type :=
| ObserverObject (o : DisturbanceObserver.t)
| AdaptiveObject (a : AdaptiveController.t)
| RobustObject (r : RobustController.t)
| Str (s : string)
| MetricsDict (m : metrics)
| Deque (d : list R)
| BoundMethod (name : string).

(** [self.<name>]: the instance attributes, then the methods of the class;
    any other name raises [AttributeError]. *)
Definition getattr (self : t) (name : string) : outcome attribute :=
  if (name =? "disturbance_observer")%string then
    Returned (ObserverObject (disturbance_observer self))
  else if (name =? "adaptive_controller")%string then
    Returned (AdaptiveObject (adaptive_controller self))
  else if (name =? "robust_controller")%string then
    Returned (RobustObject (robust_controller self))
  else if (name =? "control_mode")%string then Returned (Str (control_mode self))
  else if (name =? "performance_metrics")%string then
    Returned (MetricsDict (performance_metrics self))
  else if (name =? "speed_error_buffer")%string then
    Returned (Deque (speed_error_buffer self))
  else if (name =? "torque_buffer")%string then Returned (Deque (torque_buffer self))
  else if (name =? "disturbance_buffer")%string then
    Returned (Deque (disturbance_buffer self))
  else if (name =? "__init__")%string then Returned (BoundMethod name)
  else if (name =? "reset")%string then Returned (BoundMethod name)
  else if (name =? "set_control_mode")%string then Returned (BoundMethod name)
  else if (name =? "update")%string then Returned (BoundMethod name)
  else if (name =? "update_performance_metrics")%string then
    Returned (BoundMethod name)
  else Raised (AttributeError name).

(** An attribute used as an operand of float arithmetic: none of the
    values above is a number, so the product raises [TypeError]. *)
Definition number_attribute (self : t) (name : string) : outcome R :=
  a <- getattr self name ;;
  match a with
  | _ => Raised TypeError
  end.

Definition set_control_mode (self : t) (mode : string) : outcome t :=
  if existsb (String.eqb mode) ["observer"; "adaptive"; "robust"; "combined"]%string
  then
    Returned
      (mk (disturbance_observer self) (adaptive_controller self)
          (robust_controller self) mode (performance_metrics self)
          (speed_error_buffer self) (torque_buffer self) (disturbance_buffer self))
  else
    Raised (ValueError
      "Invalid control mode. Use 'observer', 'adaptive', 'robust', or 'combined'").

Definition update_performance_metrics (self : t) : t :=
  if (10 <? length (speed_error_buffer self))%nat then
    let speed_errors := speed_error_buffer self in
    let rms := sqrt (np_mean (map (fun e => e * e) speed_errors)) in
    let m := performance_metrics self in
    let m := mk_metrics rms (torque_ripple m) (disturbance_rejection_ratio m) in
    let torques := torque_buffer self in
    let m :=
      if (0 <? length torques)%nat && (if Rgt_dec (np_mean (map Rabs torques)) 0 then true else false)
      then
        mk_metrics (speed_error_rms m)
          ((np_max torques - np_min torques) / (2 * np_mean (map Rabs torques)))
          (disturbance_rejection_ratio m)
      else m in
    let disturbances := disturbance_buffer self in
    let m :=
      if (0 <? length disturbances)%nat && (if Rgt_dec (np_max (map Rabs disturbances)) 0 then true else false)
      then
        mk_metrics (speed_error_rms m) (torque_ripple m)
          (speed_error_rms m / np_max (map Rabs disturbances))
      else m in
    mk (disturbance_observer self) (adaptive_controller self)
       (robust_controller self) (control_mode self) m
       (speed_error_buffer self) (torque_buffer self) (disturbance_buffer self)
  else self.

(** The dictionary [update] returns. *)
Record telemetry : Type := mk_telemetry {
  id_ref_modified : R;
  iq_ref_modified : R;
  disturbance_estimate : R;
  adaptive_gains : AdaptiveController.gains;
  out_performance_metrics : metrics
}.

Definition set_controllers (self : t) (a : AdaptiveController.t)
    (r : RobustController.t) : t :=
  mk (disturbance_observer self) a r (control_mode self)
     (performance_metrics self) (speed_error_buffer self) (torque_buffer self)
     (disturbance_buffer self).

(** [update(Te, wr_actual, wr_ref, id_actual, iq_actual, id_ref, iq_ref)]:
    the object as the call leaves it, and what the call returns or raises. *)
Definition update (self : t) (Te wr_actual wr_ref id_actual iq_actual id_ref iq_ref : R)
    : t * outcome telemetry :=
  let speed_error := wr_ref - wr_actual in
  let id_error := id_ref - id_actual in
  let iq_error := iq_ref - iq_actual in
  let '(observer, disturbance_torque) :=
    DisturbanceObserver.update (disturbance_observer self) Te wr_actual 0 in
  let self :=
    mk observer (adaptive_controller self) (robust_controller self)
       (control_mode self) (performance_metrics self)
       (deque_append 1000 (speed_error_buffer self) speed_error)
       (deque_append 1000 (torque_buffer self) Te)
       (deque_append 1000 (disturbance_buffer self) disturbance_torque) in
  let action : outcome (t * R) :=
    if (control_mode self =? "observer")%string then
      poles <- number_attribute self "poles" ;;
      flux_linkage <- number_attribute self "flux_linkage" ;;
      let compensation := disturbance_torque / (1.5 * poles * flux_linkage) in
      Returned (self, iq_ref + compensation)
    else if (control_mode self =? "adaptive")%string then
      let adaptive :=
        AdaptiveController.update_gains (adaptive_controller self)
          id_error iq_error speed_error wr_actual in
      Returned (set_controllers self adaptive (robust_controller self), iq_ref)
    else if (control_mode self =? "robust")%string then
      let speed_error_dot := 0 in
      let '(robust, compensation) :=
        RobustController.sliding_mode_control (robust_controller self)
          speed_error speed_error_dot disturbance_torque in
      Returned (set_controllers self (adaptive_controller self) robust,
                iq_ref + compensation / 10)
    else if (control_mode self =? "combined")%string then
      poles <- number_attribute self "poles" ;;
      flux_linkage <- number_attribute self "flux_linkage" ;;
      let compensation := disturbance_torque / (1.5 * poles * flux_linkage) in
      let adaptive :=
        AdaptiveController.update_gains (adaptive_controller self)
          id_error iq_error speed_error wr_actual in
      let speed_error_dot := 0 in
      let '(robust, robust_compensation) :=
        RobustController.sliding_mode_control (robust_controller self)
          speed_error speed_error_dot disturbance_torque in
      Returned (set_controllers self adaptive robust,
                iq_ref + compensation + robust_compensation / 20)
    else Returned (self, iq_ref) in
  match action with
  | Raised e => (self, Raised e)
  | Returned (self, iq_ref_modified) =>
      let self := update_performance_metrics self in
      (self,
       Returned
         (mk_telemetry id_ref iq_ref_modified disturbance_torque
            (AdaptiveController.get_adaptive_gains (adaptive_controller self))
            (performance_metrics self)))
  end.

End DisturbanceRejectionController.

End DisturbanceRejection.

(** * Properties *)

Section PIControllerFacts.
Import FocControl.PIController.

(** The output before saturation: [Kp*error + Ki*integral], with the
    integral already holding the current step's contribution. *)
Definition raw_output (self : t) (error dt : R) : R :=
  kp self * error + ki self * (integral self + error * dt).

(** The output is beyond a limit and the error pushes further that way. *)
Definition drives_saturation (self : t) (error dt low high : R) : Prop :=
  (raw_output self error dt > high /\ error > 0) \/
  (raw_output self error dt < low /\ error < 0).

Lemma update_output (self : t) (error dt low high : R) :
  output_limit self = Some (low, high) ->
  low <= high ->
  snd (update self error dt) = np_clip (raw_output self error dt) low high.
Proof.
  intros Hlim Hle. unfold update, np_clip, raw_output. cbn. rewrite Hlim.
  destruct (Rgt_dec _ high) as [Hhi|Hhi].
  - destruct (Rgt_dec error 0); cbn;
      (rewrite Rmin_right; [reflexivity|]);
      unfold Rmax; destruct (Rle_dec _ low); lra.
  - destruct (Rlt_dec _ low) as [Hlo|Hlo].
    + destruct (Rlt_dec error 0); cbn;
        rewrite Rmax_right by lra; rewrite Rmin_left by lra; reflexivity.
    + cbn. rewrite Rmax_left by lra. rewrite Rmin_left by lra. reflexivity.
Qed.

Lemma update_integral (self : t) (error dt low high : R) :
  output_limit self = Some (low, high) ->
  low <= high ->
  (drives_saturation self error dt low high ->
   integral (fst (update self error dt)) = integral self + error * dt - error * dt) /\
  (~ drives_saturation self error dt low high ->
   integral (fst (update self error dt)) = integral self + error * dt).
Proof.
  intros Hlim Hle. unfold drives_saturation, update, raw_output. cbn. rewrite Hlim.
  destruct (Rgt_dec _ high) as [Hhi|Hhi].
  - destruct (Rgt_dec error 0) as [He|He]; cbn; split; intros H; try reflexivity.
    + exfalso. apply H. left. split; assumption.
    + exfalso. destruct H as [[_ H]|[H _]]; lra.
  - destruct (Rlt_dec _ low) as [Hlo|Hlo].
    + destruct (Rlt_dec error 0) as [He|He]; cbn; split; intros H; try reflexivity.
      * exfalso. apply H. right. split; assumption.
      * exfalso. destruct H as [[H _]|[_ H]]; lra.
    + cbn. split; intros H; try reflexivity.
      exfalso. destruct H as [[H _]|[H _]]; lra.
Qed.

(** The scenario controller: Kp = 1, Ki = 1, limits [-1, 1]. *)
Definition scenario_pi : t := init 1 1 (Some (-1, 1)).

Lemma scenario_step (c : t) :
  kp c = 1 -> ki c = 1 -> output_limit c = Some (-1, 1) -> integral c = 0 ->
  snd (update c 10 (1/10)) = 1 /\
  kp (fst (update c 10 (1/10))) = 1 /\
  ki (fst (update c 10 (1/10))) = 1 /\
  output_limit (fst (update c 10 (1/10))) = Some (-1, 1) /\
  integral (fst (update c 10 (1/10))) = 0.
Proof.
  intros Hkp Hki Hlim Hint. unfold update. cbn. rewrite Hlim, Hkp, Hki, Hint.
  destruct (Rgt_dec _ 1) as [H|H]; [|exfalso; lra].
  destruct (Rgt_dec 10 0) as [H'|H']; [|exfalso; lra].
  cbn. repeat split; try assumption. lra.
Qed.

Lemma scenario_invariant (n : nat) (c : t) :
  kp c = 1 -> ki c = 1 -> output_limit c = Some (-1, 1) -> integral c = 0 ->
  integral (repeat_update n c 10 (1/10)) = 0.
Proof.
  revert c. induction n as [|n IH]; intros c Hkp Hki Hlim Hint; cbn.
  - assumption.
  - destruct (scenario_step c Hkp Hki Hlim Hint) as (_ & H1 & H2 & H3 & H4).
    apply IH; assumption.
Qed.

(** C2.  With limits [low, high] set, [update] returns
    [Kp*error + Ki*integral] clamped to [low, high]; the integral
    accumulator is rolled back by exactly [error*dt] when the raw output
    is beyond a limit and the error pushes further in that direction, and
    keeps the step's contribution otherwise.  With Kp = 1, Ki = 1, limits
    [-1, 1], error 10 and dt = 0.1 the first call returns 1 and the
    accumulator stays bounded (it is 0 after every call). *)
Theorem pi_update_anti_windup (self : t) (error dt low high : R) :
  output_limit self = Some (low, high) ->
  low <= high ->
  snd (update self error dt) = np_clip (raw_output self error dt) low high /\
  (drives_saturation self error dt low high ->
   integral (fst (update self error dt)) = integral self + error * dt - error * dt) /\
  (~ drives_saturation self error dt low high ->
   integral (fst (update self error dt)) = integral self + error * dt) /\
  snd (update scenario_pi 10 (1/10)) = 1 /\
  (forall n, integral (repeat_update n scenario_pi 10 (1/10)) = 0) /\
  (exists bound, forall n, Rabs (integral (repeat_update n scenario_pi 10 (1/10))) <= bound).
Proof.
  intros Hlim Hle.
  split; [apply update_output; assumption|].
  split; [apply update_integral; assumption|].
  split; [apply update_integral; assumption|].
  assert (Hinv : forall n, integral (repeat_update n scenario_pi 10 (1/10)) = 0)
    by (intros n; apply scenario_invariant; reflexivity).
  split; [apply (scenario_step scenario_pi); reflexivity|].
  split; [exact Hinv|].
  exists 0. intros n. rewrite Hinv, Rabs_R0. lra.
Qed.

Lemma pi_update_anti_windup_witness :
  snd (update scenario_pi 10 (1/10)) = np_clip (raw_output scenario_pi 10 (1/10)) (-1) 1 /\
  (drives_saturation scenario_pi 10 (1/10) (-1) 1 ->
   integral (fst (update scenario_pi 10 (1/10))) = integral scenario_pi + 10 * (1/10) - 10 * (1/10)) /\
  (~ drives_saturation scenario_pi 10 (1/10) (-1) 1 ->
   integral (fst (update scenario_pi 10 (1/10))) = integral scenario_pi + 10 * (1/10)) /\
  snd (update scenario_pi 10 (1/10)) = 1 /\
  (forall n, integral (repeat_update n scenario_pi 10 (1/10)) = 0) /\
  (exists bound, forall n, Rabs (integral (repeat_update n scenario_pi 10 (1/10))) <= bound).
Proof.
  apply (pi_update_anti_windup scenario_pi 10 (1/10) (-1) 1).
  - reflexivity.
  - lra.
Defined.

End PIControllerFacts.

(** ** Sector classification *)

Section SectorFacts.
Import FocControl.FOCController.

(** The angle [get_sector] classifies: the [arctan2] angle moved into
    [0, 2*pi). *)
Definition normalized_angle (v_alpha v_beta : R) : R :=
  let angle := np_arctan2 v_beta v_alpha in
  if Rlt_dec angle 0 then angle + 2 * PI else angle.

Lemma atan_nonpos (x : R) : x <= 0 -> atan x <= 0.
Proof.
  intros [H|H].
  - left. rewrite <- atan_0. apply atan_increasing. exact H.
  - subst. rewrite atan_0. right. reflexivity.
Qed.

Lemma atan_pos (x : R) : 0 < x -> 0 < atan x.
Proof. intros H. rewrite <- atan_0. apply atan_increasing. exact H. Qed.

Lemma np_arctan2_bound (y x : R) : - PI < np_arctan2 y x <= PI.
Proof.
  pose proof PI_RGT_0 as Hpi. unfold np_arctan2.
  destruct (Rlt_dec 0 x) as [Hx|Hx].
  - pose proof (atan_bound (y / x)). lra.
  - destruct (Rlt_dec x 0) as [Hx'|Hx'].
    + pose proof (atan_bound (y / x)) as Hb.
      destruct (Rle_dec 0 y) as [Hy|Hy].
      * assert (y / x <= 0).
        { unfold Rdiv. pose proof (Rinv_lt_0_compat _ Hx'). nra. }
        pose proof (atan_nonpos _ H). lra.
      * assert (0 < y / x).
        { unfold Rdiv. pose proof (Rinv_lt_0_compat _ Hx'). nra. }
        pose proof (atan_pos _ H). lra.
    + destruct (Rlt_dec 0 y); [lra|]. destruct (Rlt_dec y 0); lra.
Qed.

Lemma normalized_angle_range (v_alpha v_beta : R) :
  0 <= normalized_angle v_alpha v_beta < 2 * PI.
Proof.
  unfold normalized_angle.
  pose proof (np_arctan2_bound v_beta v_alpha) as H. pose proof PI_RGT_0.
  destruct (Rlt_dec _ 0); lra.
Qed.

Lemma Int_part_bounds (x : R) (k : Z) :
  Int_part x = k <-> IZR k <= x < IZR k + 1.
Proof.
  split.
  - intros <-. destruct (base_Int_part x). lra.
  - intros H. symmetry. apply Int_part_spec. lra.
Qed.

Lemma get_sector_normalized (v_alpha v_beta : R) :
  get_sector v_alpha v_beta =
  Z.min 6 (Int_part (normalized_angle v_alpha v_beta / (PI / 3)) + 1).
Proof.
  unfold get_sector. fold (normalized_angle v_alpha v_beta).
  pose proof (normalized_angle_range v_alpha v_beta) as [H0 H1].
  pose proof PI_RGT_0 as Hpi.
  set (a := normalized_angle v_alpha v_beta) in *.
  assert (Hq : 0 <= a / (PI / 3)).
  { apply Rmult_le_pos; [exact H0|]. left. apply Rinv_0_lt_compat. lra. }
  unfold py_int. destruct (Rle_dec 0 (a / (PI / 3))); [|contradiction].
  destruct (Z.gtb_spec (Int_part (a / (PI / 3)) + 1) 6); lia.
Qed.

Lemma get_sector_interval (v_alpha v_beta : R) (k : Z) :
  (0 <= k <= 5)%Z ->
  get_sector v_alpha v_beta = (k + 1)%Z <->
  IZR k * (PI / 3) <= normalized_angle v_alpha v_beta < (IZR k + 1) * (PI / 3).
Proof.
  intros Hk. rewrite get_sector_normalized.
  pose proof (normalized_angle_range v_alpha v_beta) as [H0 H1].
  pose proof PI_RGT_0 as Hpi.
  set (a := normalized_angle v_alpha v_beta) in *.
  assert (Hpi3 : 0 < PI / 3) by lra.
  assert (Ha : a = a / (PI / 3) * (PI / 3)) by (field; lra).
  set (q := a / (PI / 3)) in *.
  assert (Hq0 : 0 <= q).
  { apply Rmult_le_pos; [exact H0|]. left. apply Rinv_0_lt_compat. lra. }
  assert (Hq6 : q < 6).
  { apply (Rmult_lt_reg_r (PI / 3)); [exact Hpi3|]. lra. }
  destruct (base_Int_part q) as [Hf1 Hf2].
  assert (Hfl : (0 <= Int_part q <= 5)%Z).
  { assert (-1 < Int_part q)%Z by (apply lt_IZR; lra).
    assert (Int_part q < 6)%Z by (apply lt_IZR; lra). lia. }
  rewrite Z.min_r by lia.
  split.
  - intros H. assert (Hk' : Int_part q = k) by lia.
    apply Int_part_bounds in Hk'. rewrite Ha. nra.
  - intros [Hlo Hhi]. cut (Int_part q = k); [lia|].
    apply Int_part_bounds. rewrite Ha in Hlo, Hhi. nra.
Qed.

Lemma get_sector_range (v_alpha v_beta : R) :
  (1 <= get_sector v_alpha v_beta <= 6)%Z.
Proof.
  rewrite get_sector_normalized.
  pose proof (normalized_angle_range v_alpha v_beta) as [H0 H1].
  pose proof PI_RGT_0 as Hpi.
  set (a := normalized_angle v_alpha v_beta) in *.
  assert (Hq0 : 0 <= a / (PI / 3)).
  { apply Rmult_le_pos; [exact H0|]. left. apply Rinv_0_lt_compat. lra. }
  destruct (base_Int_part (a / (PI / 3))) as [Hf1 Hf2].
  assert (-1 < Int_part (a / (PI / 3)))%Z by (apply lt_IZR; lra).
  lia.
Qed.

(** [arctan2] recovers the angle of a point given in polar form. *)
Lemma np_arctan2_polar (r theta : R) :
  0 < r -> - PI < theta <= PI ->
  np_arctan2 (r * sin theta) (r * cos theta) = theta.
Proof.
  intros Hr [Hlo Hhi]. pose proof PI_RGT_0 as Hpi. unfold np_arctan2.
  destruct (Rlt_dec theta (- (PI / 2))) as [H1|H1].
  - (* third quadrant *)
    assert (Hc : 0 < cos (theta + PI)) by (apply cos_gt_0; lra).
    assert (Hs : 0 < sin (theta + PI)) by (apply sin_gt_0; lra).
    rewrite neg_cos in Hc. rewrite neg_sin in Hs.
    destruct (Rlt_dec 0 (r * cos theta)); [nra|].
    destruct (Rlt_dec (r * cos theta) 0); [|nra].
    destruct (Rle_dec 0 (r * sin theta)); [nra|].
    replace (r * sin theta / (r * cos theta)) with (tan (theta + PI)).
    + rewrite atan_tan by lra. lra.
    + unfold tan. rewrite neg_sin, neg_cos. field. lra.
  - destruct (Req_dec theta (- (PI / 2))) as [H2|H2].
    + subst theta. rewrite cos_neg, sin_neg, cos_PI2, sin_PI2.
      repeat match goal with
             | |- context [Rlt_dec ?a ?b] => destruct (Rlt_dec a b)
             end; lra.
    + destruct (Rlt_dec theta (PI / 2)) as [H3|H3].
      * (* right half plane *)
        assert (Hc : 0 < cos theta) by (apply cos_gt_0; lra).
        destruct (Rlt_dec 0 (r * cos theta)); [|nra].
        replace (r * sin theta / (r * cos theta)) with (tan theta).
        -- apply atan_tan. lra.
        -- unfold tan. field. lra.
      * destruct (Req_dec theta (PI / 2)) as [H4|H4].
        -- subst theta. rewrite cos_PI2, sin_PI2.
           repeat match goal with
                  | |- context [Rlt_dec ?a ?b] => destruct (Rlt_dec a b)
                  end; lra.
        -- (* second quadrant *)
           assert (Hc : 0 < cos (theta - PI)) by (apply cos_gt_0; lra).
           assert (Hs : sin (theta - PI) <= 0).
           { destruct (Req_dec theta PI) as [->|Hne].
             - replace (PI - PI) with 0 by ring. rewrite sin_0. lra.
             - left. apply sin_lt_0_var; lra. }
           assert (Ec : cos theta = - cos (theta - PI)).
           { rewrite <- neg_cos. f_equal. ring. }
           assert (Es : sin theta = - sin (theta - PI)).
           { rewrite <- neg_sin. f_equal. ring. }
           destruct (Rlt_dec 0 (r * cos theta)); [nra|].
           destruct (Rlt_dec (r * cos theta) 0); [|nra].
           destruct (Rle_dec 0 (r * sin theta)); [|nra].
           replace (r * sin theta / (r * cos theta)) with (tan (theta - PI)).
           ++ rewrite atan_tan by lra. lra.
           ++ unfold tan. rewrite Es, Ec. field. lra.
Qed.

Lemma normalized_angle_polar (r theta : R) :
  0 < r -> 0 <= theta < 2 * PI ->
  normalized_angle (r * cos theta) (r * sin theta) = theta.
Proof.
  intros Hr [Hlo Hhi]. pose proof PI_RGT_0 as Hpi. unfold normalized_angle.
  destruct (Rle_dec theta PI) as [H|H].
  - rewrite np_arctan2_polar by lra. destruct (Rlt_dec theta 0); lra.
  - assert (Es : sin theta = sin (theta - 2 * PI)).
    { rewrite <- (sin_period (theta - 2 * PI) 1). f_equal. simpl. ring. }
    assert (Ec : cos theta = cos (theta - 2 * PI)).
    { rewrite <- (cos_period (theta - 2 * PI) 1). f_equal. simpl. ring. }
    rewrite Es, Ec. rewrite np_arctan2_polar by lra.
    destruct (Rlt_dec (theta - 2 * PI) 0); lra.
Qed.

(** C5.  [get_sector] is [floor(angle / (pi/3)) + 1], clamped to 6, on the
    [arctan2] angle normalized to [0, 2*pi); the result is one of 1..6;
    sector [k+1] is exactly the half-open arc [[k*pi/3, (k+1)*pi/3)], so
    the arcs cover the circle without gap or overlap and a boundary angle
    belongs to the one sector that starts there; every angle of the
    circle is the normalized angle of a vector; angle 0 gives sector 1 and
    the angles from 5*pi/3 up to 2*pi give sector 6. *)
Theorem get_sector_partition (v_alpha v_beta : R) :
  0 <= normalized_angle v_alpha v_beta < 2 * PI /\
  get_sector v_alpha v_beta =
    Z.min 6 (Int_part (normalized_angle v_alpha v_beta / (PI / 3)) + 1) /\
  (1 <= get_sector v_alpha v_beta <= 6)%Z /\
  (forall k, (0 <= k <= 5)%Z ->
     get_sector v_alpha v_beta = (k + 1)%Z <->
     IZR k * (PI / 3) <= normalized_angle v_alpha v_beta < (IZR k + 1) * (PI / 3)) /\
  (forall r theta, 0 < r -> 0 <= theta < 2 * PI ->
     normalized_angle (r * cos theta) (r * sin theta) = theta) /\
  (forall r, 0 < r -> get_sector (r * cos 0) (r * sin 0) = 1%Z) /\
  (forall r theta, 0 < r -> 5 * (PI / 3) <= theta < 2 * PI ->
     get_sector (r * cos theta) (r * sin theta) = 6%Z) /\
  (forall r k, 0 < r -> (0 <= k <= 5)%Z ->
     get_sector (r * cos (IZR k * (PI / 3))) (r * sin (IZR k * (PI / 3))) = (k + 1)%Z).
Proof.
  pose proof PI_RGT_0 as Hpi.
  split; [apply normalized_angle_range|].
  split; [apply get_sector_normalized|].
  split; [apply get_sector_range|].
  split; [intros k Hk; apply get_sector_interval; exact Hk|].
  split; [intros r theta Hr Ht; apply normalized_angle_polar; assumption|].
  assert (Hb : forall r k, 0 < r -> (0 <= k <= 5)%Z ->
     get_sector (r * cos (IZR k * (PI / 3))) (r * sin (IZR k * (PI / 3))) = (k + 1)%Z).
  { intros r k Hr Hk. apply get_sector_interval; [exact Hk|].
    assert (0 <= IZR k <= 5) by (split; apply IZR_le; lia).
    rewrite normalized_angle_polar; [nra|exact Hr|nra]. }
  split.
  - intros r Hr. specialize (Hb r 0%Z Hr ltac:(lia)).
    replace (0 * (PI / 3)) with 0 in Hb by ring. exact Hb.
  - split; [|exact Hb].
    intros r theta Hr Ht. apply (get_sector_interval _ _ 5); [lia|].
    rewrite normalized_angle_polar; [lra|exact Hr|lra].
Qed.

End SectorFacts.

(** ** The plant: circular clamps *)

Section ClampFacts.
Import PMSMModel.

Lemma fsqrt_sum_squares (x y : R) :
  fsqrt (Fin x * Fin x + Fin y * Fin y)%f64 = Fin (sqrt (x * x + y * y)).
Proof.
  cbn. destruct (Rle_dec 0 (x * x + y * y)) as [H|H]; [reflexivity|].
  exfalso. apply H. nra.
Qed.

Lemma fdiv_sqrt3 (d : R) : (Fin d / fsqrt (Fin 3))%f64 = Fin (d / sqrt 3).
Proof.
  cbn. destruct (Rle_dec 0 3) as [H|H]; [|exfalso; lra].
  destruct (Req_dec_T (sqrt 3) 0) as [E|E]; [|reflexivity].
  exfalso. pose proof (sqrt_lt_R0 3). lra.
Qed.

(** Scaling a vector longer than [limit] by [limit / length]. *)
Lemma scaled_magnitude (x y limit : R) :
  0 <= limit -> sqrt (x * x + y * y) > limit ->
  0 <= limit / sqrt (x * x + y * y) /\
  sqrt (x * (limit / sqrt (x * x + y * y)) * (x * (limit / sqrt (x * x + y * y))) +
        y * (limit / sqrt (x * x + y * y)) * (y * (limit / sqrt (x * x + y * y))))
  = limit.
Proof.
  intros Hl Hm. set (m := sqrt (x * x + y * y)) in *.
  assert (Hm0 : 0 < m) by lra.
  assert (Hk : 0 <= limit / m).
  { apply Rmult_le_pos; [exact Hl|]. left. apply Rinv_0_lt_compat. exact Hm0. }
  split; [exact Hk|].
  assert (Hsq : m * m = x * x + y * y).
  { unfold m. apply sqrt_sqrt. nra. }
  replace (x * (limit / m) * (x * (limit / m)) + y * (limit / m) * (y * (limit / m)))
    with (limit * limit).
  - apply sqrt_square. exact Hl.
  - replace (x * (limit / m) * (x * (limit / m)) + y * (limit / m) * (y * (limit / m)))
      with ((x * x + y * y) * (limit / m) * (limit / m)) by ring.
    rewrite <- Hsq. field. lra.
Qed.

(** What a circular clamp to the radius [limit] returns on [(x, y)]. *)
Definition circular_clamp (limit x y x' y' : R) : Prop :=
  (exists k, 0 <= k /\ x' = k * x /\ y' = k * y) /\
  (sqrt (x * x + y * y) > limit -> sqrt (x' * x' + y' * y') = limit) /\
  (sqrt (x * x + y * y) <= limit -> x' = x /\ y' = y).

Lemma clamp_body (limit x y : R) (b : bool) :
  0 <= limit ->
  fgt (Fin (sqrt (x * x + y * y))) (Fin limit) = b ->
  exists x' y',
    (if b then
       ((Fin x * (Fin limit / Fin (sqrt (x * x + y * y))))%f64,
        (Fin y * (Fin limit / Fin (sqrt (x * x + y * y))))%f64)
     else (Fin x, Fin y)) = (Fin x', Fin y') /\
    circular_clamp limit x y x' y'.
Proof.
  intros Hl Hb. cbn in Hb.
  destruct (Rgt_dec (sqrt (x * x + y * y)) limit) as [Hgt|Hle]; subst b.
  - destruct (scaled_magnitude x y limit Hl Hgt) as [Hk Hmag].
    exists (x * (limit / sqrt (x * x + y * y))), (y * (limit / sqrt (x * x + y * y))).
    split.
    + cbn. destruct (Req_dec_T (sqrt (x * x + y * y)) 0) as [E|E]; [exfalso; lra|].
      reflexivity.
    + split; [|split].
      * exists (limit / sqrt (x * x + y * y)). repeat split; [exact Hk|ring|ring].
      * intros _. exact Hmag.
      * intros H. exfalso. lra.
  - exists x, y. split; [reflexivity|]. split; [|split].
    + exists 1. repeat split; lra.
    + intros H. exfalso. lra.
    + intros _. split; reflexivity.
Qed.

(** C7.  With non-negative limits, [apply_voltage_limits] and
    [apply_current_limits] return, on every finite vector, a non-negative
    multiple of the input; its magnitude is the limit
    ([dc_bus_voltage / sqrt 3], [max_current]) when the input magnitude
    exceeds the limit, and the input is returned unchanged otherwise. *)
Theorem limits_are_circular_clamps (self : t) (v_dc i_max x y : R) :
  dc_bus_voltage self = Fin v_dc -> 0 <= v_dc ->
  max_current self = Fin i_max -> 0 <= i_max ->
  (exists x' y',
     apply_voltage_limits self (Fin x) (Fin y) = (Fin x', Fin y') /\
     circular_clamp (v_dc / sqrt 3) x y x' y') /\
  (exists x' y',
     apply_current_limits self (Fin x) (Fin y) = (Fin x', Fin y') /\
     circular_clamp i_max x y x' y').
Proof.
  intros Hv Hv0 Hi Hi0. split.
  - unfold apply_voltage_limits. rewrite Hv, fsqrt_sum_squares, fdiv_sqrt3.
    apply clamp_body; [|reflexivity].
    apply Rmult_le_pos; [exact Hv0|]. left. apply Rinv_0_lt_compat.
    apply sqrt_lt_R0. lra.
  - unfold apply_current_limits. rewrite Hi, fsqrt_sum_squares.
    apply clamp_body; [exact Hi0|reflexivity].
Qed.

End ClampFacts.

(** ** The plant: one integration step *)

Section PlantFacts.
Import PMSMModel.

Definition finite (a : float64) : Prop := isfinite a = true.

Definition row_finite (y : row) : Prop :=
  let '(a, b, c, d) := y in finite a /\ finite b /\ finite c /\ finite d.

Definition state_finite (self : t) : Prop :=
  row_finite (id self, iq self, wr self, theta_e self).

(** The configuration is made of finite numbers, and the quantities the
    dynamics divide by are not zero. *)
Definition parameters_finite (self : t) : Prop :=
  finite (poles self) /\ finite (Rs self) /\ finite (Ld self) /\
  finite (Lq self) /\ finite (flux_linkage self) /\ finite (J self) /\
  finite (B self) /\ finite (sample_time self) /\
  Ld self <> Fin 0 /\ Lq self <> Fin 0 /\ J self <> Fin 0.

(** A right-hand side that maps finite states to finite derivatives. *)
Definition finite_preserving (f : row -> float64 -> row) : Prop :=
  forall y t, row_finite y -> finite t -> row_finite (f y t).

(** An integrator that returns a finite final row on a finite problem. *)
Definition finite_integrator
    (odeint : (row -> float64 -> row) -> row -> float64 * float64 -> row * row)
    : Prop :=
  forall f y0 t0 t1,
    finite_preserving f -> row_finite y0 -> finite t0 -> finite t1 ->
    row_finite (snd (odeint f y0 (t0, t1))).

(** An angle in [0, 2*pi), as a program tests it: against [2 * np.pi]. *)
Definition wrapped (a : float64) : Prop :=
  exists x, a = Fin x /\ 0 <= x < two_pi.

(** An angle in the closed interval [0, 2*pi], or NaN. *)
Definition wrapped_or_nan (a : float64) : Prop :=
  a = NaN \/ exists x, a = Fin x /\ 0 <= x <= two_pi.

(** What [% (2 * np.pi)] makes of the integrated angle [d]: NaN of a
    non-finite angle; of a finite one a value in [0, 2*pi] that is below
    [2 * np.pi] when the angle is not negative and equal to [2 * np.pi]
    when the angle is negative and smaller in magnitude than [2^-51]. *)
Definition wrap_of (d a : float64) : Prop :=
  match d with
  | Fin x =>
      exists y, a = Fin y /\ 0 <= y <= two_pi /\
        (0 <= x -> y = x - two_pi * IZR (Int_part (x / two_pi)) /\ y < two_pi) /\
        (- powerRZ 2 (-51) < x < 0 -> y = two_pi)
  | _ => a = NaN
  end.

Lemma finite_inv (a : float64) : finite a -> exists x, a = Fin x.
Proof. destruct a; intros H; try discriminate H. eexists; reflexivity. Qed.

Lemma finite_Fin (x : R) : finite (Fin x).
Proof. reflexivity. Qed.

(** Replace every value known to be finite by a [Fin]. *)
Ltac finite_as_Fin :=
  repeat match goal with
         | H : finite ?a |- _ =>
             lazymatch a with
             | Fin _ => clear H
             | _ => let E := fresh "E" in
                    destruct (finite_inv a H) as [? E];
                    rewrite E in *; clear H
             end
         end.

Lemma fdiv_finite (x y : R) : Fin y <> Fin 0 -> finite (Fin x / Fin y)%f64.
Proof.
  intros H. cbn. destruct (Req_dec_T y 0) as [E|E]; [|reflexivity].
  exfalso. apply H. rewrite E. reflexivity.
Qed.

Lemma floor_remainder (x m : R) :
  0 < m -> 0 <= x - m * IZR (Int_part (x / m)) < m.
Proof.
  intros Hm. destruct (base_Int_part (x / m)) as [H1 H2].
  assert (E : x = x / m * m) by (field; lra).
  set (q := x / m) in *. split; nra.
Qed.

(** *** Binary64 rounding around [2 * np.pi] *)

Lemma ln2_pos : 0 < ln 2.
Proof. rewrite <- ln_1. apply ln_increasing; lra. Qed.

Lemma ln_pow2 (e : Z) : ln (powerRZ 2 e) = IZR e * ln 2.
Proof.
  rewrite powerRZ_Rpower by lra. unfold Rpower. apply ln_exp.
Qed.

Lemma pow2_pos (e : Z) : 0 < powerRZ 2 e.
Proof. apply powerRZ_lt. lra. Qed.

Lemma log2_bounds (x : R) (e : Z) :
  0 < x ->
  (powerRZ 2 e <= x -> IZR e <= ln x / ln 2) /\
  (x < powerRZ 2 e -> ln x / ln 2 < IZR e).
Proof.
  intros Hx. pose proof ln2_pos as H2. pose proof (pow2_pos e) as Hp. split; intros H.
  - assert (ln (powerRZ 2 e) <= ln x).
    { destruct H as [H|H]; [left; apply ln_increasing; assumption|rewrite H; right; reflexivity]. }
    rewrite ln_pow2 in H0. apply Rmult_le_reg_r with (ln 2); [exact H2|].
    replace (ln x / ln 2 * ln 2) with (ln x) by (field; lra). exact H0.
  - assert (ln x < ln (powerRZ 2 e)) by (apply ln_increasing; assumption).
    rewrite ln_pow2 in H0. apply Rmult_lt_reg_r with (ln 2); [exact H2|].
    replace (ln x / ln 2 * ln 2) with (ln x) by (field; lra). exact H0.
Qed.

Lemma exponent_binade (x : R) (e : Z) :
  powerRZ 2 e <= x < powerRZ 2 (e + 1) -> exponent x = e.
Proof.
  intros [Hlo Hhi]. pose proof (pow2_pos e) as Hp.
  assert (Hx : 0 < x) by lra.
  unfold exponent. rewrite Rabs_pos_eq by lra. apply Int_part_bounds.
  destruct (log2_bounds x e Hx) as [H1 _].
  destruct (log2_bounds x (e + 1) Hx) as [_ H2].
  rewrite plus_IZR in H2. split; [apply H1; exact Hlo|apply H2; exact Hhi].
Qed.

Lemma exponent_below (x : R) (e : Z) :
  0 < x < powerRZ 2 (e + 1) -> (exponent x <= e)%Z.
Proof.
  intros [Hx Hhi]. unfold exponent. rewrite Rabs_pos_eq by lra.
  destruct (log2_bounds x (e + 1) Hx) as [_ H2]. specialize (H2 Hhi).
  destruct (base_Int_part (ln x / ln 2)) as [H3 _].
  assert (H : IZR (Int_part (ln x / ln 2)) < IZR (e + 1)) by lra.
  apply lt_IZR in H. lia.
Qed.

Lemma nearest_even_le (t : R) (k : Z) : t <= IZR k -> (nearest_even t <= k)%Z.
Proof.
  intros H. unfold nearest_even. destruct (base_Int_part t) as [H1 H2].
  set (f := Int_part t) in *.
  assert (Hf : (f <= k)%Z) by (apply le_IZR; lra).
  destruct (Rlt_dec (t - IZR f) (1 / 2)) as [Hd|Hd]; [exact Hf|].
  assert (Hlt : (f < k)%Z) by (apply lt_IZR; lra).
  destruct (Rlt_dec (1 / 2) (t - IZR f)); [lia|]. destruct (Z.even f); lia.
Qed.

Lemma nearest_even_ge (t : R) (k : Z) : IZR k <= t -> (k <= nearest_even t)%Z.
Proof.
  intros H. unfold nearest_even. destruct (base_Int_part t) as [H1 H2].
  set (f := Int_part t) in *.
  assert (Hf : (k < f + 1)%Z) by (apply lt_IZR; rewrite plus_IZR; lra).
  destruct (Rlt_dec (t - IZR f) (1 / 2)); [lia|].
  destruct (Rlt_dec (1 / 2) (t - IZR f)); [lia|]. destruct (Z.even f); lia.
Qed.

Lemma nearest_even_near (t : R) (k : Z) :
  Rabs (t - IZR k) < 1 / 2 -> nearest_even t = k.
Proof.
  intros H. apply Rabs_def2 in H. destruct H as [Hhi Hlo]. unfold nearest_even.
  destruct (Rle_dec (IZR k) t) as [Hk|Hk].
  - assert (E : Int_part t = k) by (apply Int_part_bounds; lra).
    rewrite E. destruct (Rlt_dec (t - IZR k) (1 / 2)); [reflexivity|lra].
  - assert (E : Int_part t = (k - 1)%Z).
    { apply Int_part_bounds. rewrite minus_IZR. lra. }
    rewrite E, minus_IZR.
    destruct (Rlt_dec (t - (IZR k - 1)) (1 / 2)); [lra|].
    destruct (Rlt_dec (1 / 2) (t - (IZR k - 1))); [lia|lra].
Qed.

Lemma pow2_nonneg_IZR (z : Z) : (0 <= z)%Z -> powerRZ 2 z = IZR (2 ^ z).
Proof.
  intros Hz. destruct z as [|p|p]; [reflexivity| |lia].
  cbn [powerRZ]. rewrite pow_IZR, positive_nat_Z. reflexivity.
Qed.

Lemma pow2_split (a b : Z) : powerRZ 2 (a + b) = powerRZ 2 a * powerRZ 2 b.
Proof. apply powerRZ_add. lra. Qed.

Lemma round64_nonneg (y : R) : 0 <= y -> 0 <= round64 y.
Proof.
  intros Hy. unfold round64. destruct (Req_dec_T y 0); [lra|].
  pose proof (pow2_pos (Z.max (exponent y - 52) (-1074))) as Hu. fold (ulp y) in Hu.
  apply Rmult_le_pos; [|lra]. apply IZR_le.
  apply (nearest_even_ge _ 0). apply Rmult_le_pos; [lra|].
  left. apply Rinv_0_lt_compat. exact Hu.
Qed.

(** Below 4 the rounded value does not exceed 4. *)
Lemma round64_below_4 (y : R) : 0 < y < 4 -> round64 y <= 4.
Proof.
  intros [Hy H4]. unfold round64. destruct (Req_dec_T y 0); [lra|].
  assert (He : (exponent y <= 1)%Z).
  { apply exponent_below. split; [exact Hy|]. change (1 + 1)%Z with 2%Z.
    rewrite (pow2_nonneg_IZR 2) by lia. cbn. lra. }
  unfold ulp. set (c := Z.max (exponent y - 52) (-1074)).
  assert (Hc : (c <= -51)%Z) by (unfold c; lia).
  pose proof (pow2_pos c) as Hu.
  assert (E4 : 4 = IZR (2 ^ (2 - c)) * powerRZ 2 c).
  { rewrite <- pow2_nonneg_IZR by lia. rewrite <- pow2_split.
    replace (2 - c + c)%Z with 2%Z by lia. rewrite (pow2_nonneg_IZR 2) by lia.
    cbn. lra. }
  apply Rle_trans with (IZR (2 ^ (2 - c)) * powerRZ 2 c); [|lra].
  apply Rmult_le_compat_r; [lra|]. apply IZR_le.
  apply nearest_even_le. apply Rmult_le_reg_r with (powerRZ 2 c); [exact Hu|].
  rewrite <- E4. replace (y / powerRZ 2 c * powerRZ 2 c) with y by (field; lra). lra.
Qed.

(** Between 4 and 8 the doubles are the multiples of [2^-50]. *)
Lemma round64_binade_4_8 (y : R) :
  4 <= y < 8 -> round64 y = IZR (nearest_even (y / powerRZ 2 (-50))) * powerRZ 2 (-50).
Proof.
  intros [H4 H8]. unfold round64. destruct (Req_dec_T y 0); [lra|].
  assert (He : exponent y = 2%Z).
  { apply exponent_binade. change (2 + 1)%Z with 3%Z.
    rewrite (pow2_nonneg_IZR 2), (pow2_nonneg_IZR 3) by lia. cbn. lra. }
  unfold ulp. rewrite He. reflexivity.
Qed.

Lemma PI_bounds : 3 < PI <= 7 / 2.
Proof.
  pose proof PI2_3_2 as H1. pose proof pi2_int as [_ H2]. unfold PI in *. lra.
Qed.

(** The double [2 * np.pi] is a multiple of [2^-50] between 6 and 7. *)
Lemma two_pi_double :
  exists n : Z, two_pi = IZR n * powerRZ 2 (-50) /\ 6 <= two_pi <= 7.
Proof.
  pose proof PI_bounds as [Hlo Hhi].
  assert (He : exponent PI = 1%Z).
  { apply exponent_binade. change (1 + 1)%Z with 2%Z.
    rewrite (pow2_nonneg_IZR 1), (pow2_nonneg_IZR 2) by lia. cbn. lra. }
  unfold two_pi, round64. destruct (Req_dec_T PI 0) as [Hz|_]; [lra|].
  unfold ulp. rewrite He. change (Z.max (1 - 52) (-1074)) with (-51)%Z.
  set (n := nearest_even (PI / powerRZ 2 (-51))).
  pose proof (pow2_pos (-51)) as Hu.
  assert (E50 : powerRZ 2 (-50) = 2 * powerRZ 2 (-51)).
  { change (-50)%Z with (1 + -51)%Z. rewrite pow2_split.
    rewrite (pow2_nonneg_IZR 1) by lia. cbn. reflexivity. }
  assert (E1 : 1 = IZR (2 ^ 51) * powerRZ 2 (-51)).
  { rewrite <- pow2_nonneg_IZR by lia. rewrite <- pow2_split. reflexivity. }
  exists n. split; [rewrite E50; ring|].
  assert (Hn : (3 * 2 ^ 51 <= n <= 7 * 2 ^ 50)%Z).
  { split.
    - apply nearest_even_ge. apply Rmult_le_reg_r with (powerRZ 2 (-51)); [exact Hu|].
      replace (PI / powerRZ 2 (-51) * powerRZ 2 (-51)) with PI by (field; lra).
      rewrite mult_IZR, Rmult_assoc, <- E1. lra.
    - apply nearest_even_le. apply Rmult_le_reg_r with (powerRZ 2 (-51)); [exact Hu|].
      replace (PI / powerRZ 2 (-51) * powerRZ 2 (-51)) with PI by (field; lra).
      replace (7 * 2 ^ 50)%Z with (7 * 2 ^ 51 / 2)%Z by reflexivity.
      change (IZR (7 * 2 ^ 51 / 2)) with (IZR (7 * 2 ^ 50)).
      replace (IZR (7 * 2 ^ 50) * powerRZ 2 (-51))
        with (7 / 2 * (IZR (2 ^ 51) * powerRZ 2 (-51))).
      + rewrite <- E1. lra.
      + change (2 ^ 51)%Z with (2 * 2 ^ 50)%Z. rewrite !mult_IZR. field. }
  destruct Hn as [Hn1 Hn2]. apply IZR_le in Hn1, Hn2.
  rewrite mult_IZR in Hn1. 
  replace (IZR (7 * 2 ^ 50)) with (7 / 2 * IZR (2 ^ 51)) in Hn2
    by (change (2 ^ 51)%Z with (2 * 2 ^ 50)%Z; rewrite !mult_IZR; field).
  split.
  - replace 6 with (2 * (3 * (IZR (2 ^ 51) * powerRZ 2 (-51)))) by (rewrite <- E1; ring).
    apply Rmult_le_compat_l; [lra|]. rewrite <- Rmult_assoc.
    apply Rmult_le_compat_r; [lra|]. exact Hn1.
  - replace 7 with (2 * (7 / 2 * IZR (2 ^ 51) * powerRZ 2 (-51)))
      by (rewrite Rmult_assoc, <- E1; field).
    apply Rmult_le_compat_l; [lra|]. apply Rmult_le_compat_r; [lra|]. exact Hn2.
Qed.

Lemma round64_below_two_pi (y : R) : 0 < y < two_pi -> 0 <= round64 y <= two_pi.
Proof.
  intros [Hy Hm]. split; [apply round64_nonneg; lra|].
  destruct two_pi_double as (n & En & H6 & H7).
  destruct (Rlt_dec y 4) as [H4|H4].
  - pose proof (round64_below_4 y (conj Hy H4)). lra.
  - rewrite round64_binade_4_8 by lra. rewrite En.
    pose proof (pow2_pos (-50)) as Hu.
    apply Rmult_le_compat_r; [lra|]. apply IZR_le. apply nearest_even_le.
    apply Rmult_le_reg_r with (powerRZ 2 (-50)); [exact Hu|].
    replace (y / powerRZ 2 (-50) * powerRZ 2 (-50)) with y by (field; lra).
    rewrite <- En. lra.
Qed.

(** A sum that falls short of [2 * np.pi] by less than half a unit in the
    last place rounds to [2 * np.pi]. *)
Lemma round64_reaches_two_pi (d : R) :
  0 <= d < powerRZ 2 (-51) -> round64 (two_pi - d) = two_pi.
Proof.
  intros [Hd0 Hd]. destruct two_pi_double as (n & En & H6 & H7).
  pose proof (pow2_pos (-50)) as Hu. pose proof (pow2_pos (-51)) as Hu'.
  assert (E50 : powerRZ 2 (-50) = 2 * powerRZ 2 (-51)).
  { change (-50)%Z with (1 + -51)%Z. rewrite pow2_split.
    rewrite (pow2_nonneg_IZR 1) by lia. cbn. reflexivity. }
  assert (Hsmall : powerRZ 2 (-51) < 1).
  { assert (E1 : 1 = IZR (2 ^ 51) * powerRZ 2 (-51)).
    { rewrite <- pow2_nonneg_IZR by lia. rewrite <- pow2_split. reflexivity. }
    assert (2 <= IZR (2 ^ 51)) by (apply IZR_le; lia). nra. }
  rewrite round64_binade_4_8 by lra.
  rewrite (nearest_even_near _ n); [symmetry; exact En|].
  replace ((two_pi - d) / powerRZ 2 (-50) - IZR n) with (- (d / powerRZ 2 (-50)))
    by (rewrite En; field; lra).
  rewrite Rabs_Ropp, Rabs_pos_eq.
  - apply Rmult_lt_reg_r with (powerRZ 2 (-50)); [exact Hu|].
    replace (d / powerRZ 2 (-50) * powerRZ 2 (-50)) with d by (field; lra). lra.
  - apply Rmult_le_pos; [lra|]. left. apply Rinv_0_lt_compat. exact Hu.
Qed.

(** *** The remainder *)

Lemma c_fmod_nonneg (x y : R) :
  0 < y -> 0 <= x ->
  c_fmod x y = x - y * IZR (Int_part (x / y)) /\ 0 <= c_fmod x y < y.
Proof.
  intros Hy Hx. unfold c_fmod, truncate.
  assert (Hq : 0 <= x / y).
  { apply Rmult_le_pos; [exact Hx|]. left. apply Rinv_0_lt_compat. exact Hy. }
  destruct (Rle_dec 0 (x / y)) as [_|H]; [|exfalso; apply H; exact Hq].
  split; [reflexivity|]. apply floor_remainder. exact Hy.
Qed.

Lemma c_fmod_neg (x y : R) : 0 < y -> x < 0 -> - y < c_fmod x y <= 0.
Proof.
  intros Hy Hx. unfold c_fmod, truncate.
  assert (Hq : x / y < 0).
  { unfold Rdiv. pose proof (Rinv_0_lt_compat y Hy). nra. }
  destruct (Rle_dec 0 (x / y)) as [H|_]; [exfalso; lra|].
  rewrite opp_IZR. pose proof (floor_remainder (- x) y Hy) as H.
  replace (- (x / y)) with (- x / y) by (field; lra). lra.
Qed.

Lemma c_fmod_small_neg (x y : R) : 0 < y -> - y < x < 0 -> c_fmod x y = x.
Proof.
  intros Hy [Hlo Hhi]. unfold c_fmod, truncate.
  assert (Hq : -1 < x / y < 0).
  { pose proof (Rinv_0_lt_compat y Hy) as Hi.
    assert (E : x = x / y * y) by (field; lra). split; nra. }
  destruct (Rle_dec 0 (x / y)) as [H|_]; [exfalso; lra|].
  assert (E : Int_part (- (x / y)) = 0%Z) by (apply Int_part_bounds; lra).
  rewrite E. cbn. lra.
Qed.

Lemma two_pi_pos : 0 < two_pi.
Proof. destruct two_pi_double as (n & _ & H & _). lra. Qed.

Lemma half_ulp_small : 0 < powerRZ 2 (-51) < 1.
Proof.
  assert (E1 : 1 = IZR (2 ^ 51) * powerRZ 2 (-51)).
  { rewrite <- pow2_nonneg_IZR by lia. rewrite <- pow2_split. reflexivity. }
  pose proof (pow2_pos (-51)).
  assert (2 <= IZR (2 ^ 51)) by (apply IZR_le; lia). nra.
Qed.

Lemma wrap_finite (x : R) : wrap_of (Fin x) (Fin x mod (Fin 2 * np_pi))%f64.
Proof.
  pose proof two_pi_pos as Hm. pose proof half_ulp_small as [_ Hp].
  destruct two_pi_double as (n & _ & H6 & _).
  cbn [wrap_of fmul np_pi fmod]. fold two_pi.
  destruct (Req_dec_T two_pi 0) as [E|_]; [exfalso; lra|].
  destruct (Rlt_dec two_pi 0) as [H|_]; [exfalso; lra|].
  destruct (Rle_dec 0 x) as [Hx|Hx].
  - (* a non-negative angle: no sign to fix *)
    destruct (c_fmod_nonneg x two_pi Hm Hx) as [E [H0 H1]].
    destruct (Req_dec_T (c_fmod x two_pi) 0) as [Ez|Hnz].
    + exists 0. split; [reflexivity|]. split; [lra|].
      split; [intros _; rewrite <- E, Ez; split; lra|intros [_ H]; exfalso; lra].
    + destruct (Rlt_dec (c_fmod x two_pi) 0) as [H|_]; [exfalso; lra|].
      cbn [Bool.eqb]. exists (c_fmod x two_pi). split; [reflexivity|].
      split; [lra|]. split; [intros _; split; [exact E|lra]|].
      intros [_ H]. exfalso. lra.
  - (* a negative angle: the modulus is added, and the sum rounded *)
    assert (Hneg : x < 0) by lra.
    destruct (c_fmod_neg x two_pi Hm Hneg) as [H0 H1].
    assert (Hsmall : - powerRZ 2 (-51) < x -> c_fmod x two_pi = x).
    { intros Hlo. apply c_fmod_small_neg; [exact Hm|lra]. }
    destruct (Req_dec_T (c_fmod x two_pi) 0) as [Ez|Hnz].
    + exists 0. split; [reflexivity|]. split; [lra|].
      split; [intros H; exfalso; lra|].
      intros [Hlo _]. exfalso. rewrite (Hsmall Hlo) in Ez. lra.
    + destruct (Rlt_dec (c_fmod x two_pi) 0) as [_|H]; [|exfalso; lra].
      cbn [Bool.eqb]. exists (round64 (c_fmod x two_pi + two_pi)).
      split; [reflexivity|].
      split; [apply round64_below_two_pi; lra|].
      split; [intros H; exfalso; lra|].
      intros [Hlo _]. rewrite (Hsmall Hlo).
      replace (x + two_pi) with (two_pi - - x) by ring.
      apply round64_reaches_two_pi. lra.
Qed.

Lemma wrap_not_finite (a : float64) :
  isfinite a = false -> (a mod (Fin 2 * np_pi))%f64 = NaN.
Proof. destruct a; intros H; try discriminate H; reflexivity. Qed.

Lemma dynamics_finite (self : t) (vd vq load_torque : float64) :
  parameters_finite self -> finite vd -> finite vq -> finite load_torque ->
  finite_preserving (fun y t => electrical_dynamics self y t vd vq load_torque).
Proof.
  intros (Hp & HRs & HLd & HLq & Hfl & HJ & HB & _ & NLd & NLq & NJ) Hvd Hvq Htl.
  intros [[[a b] c] d] t (Ha & Hb & Hc & Hd) _.
  unfold electrical_dynamics. clear Hd. finite_as_Fin.
  repeat split; try reflexivity;
    cbn [fadd fsub fmul fneg]; apply fdiv_finite; assumption.
Qed.

Section Integrator.
Variable odeint : (row -> float64 -> row) -> row -> float64 * float64 -> row * row.

(** [update] never raises: it stores the integrator's final row, with the
    angle wrapped, and returns the telemetry of the stored state. *)
Lemma update_returns (self : t) (vd vq load_torque : float64) :
  exists self' tel,
    update odeint self vd vq load_torque = Returned (self', tel) /\
    (id self', iq self', wr self') =
      (let '(a, b, c, _) := integrate odeint self vd vq load_torque in (a, b, c)) /\
    theta_e self' =
      (let '(_, _, _, d) := integrate odeint self vd vq load_torque in
       (d mod (Fin 2 * np_pi))%f64) /\
    (poles self', Rs self', Ld self', Lq self', flux_linkage self', J self',
     B self', sample_time self') =
    (poles self, Rs self, Ld self, Lq self, flux_linkage self, J self,
     B self, sample_time self) /\
    (out_id tel, out_iq tel, out_wr tel, out_theta_e tel) =
    (id self', iq self', wr self', theta_e self').
Proof.
  unfold update. destruct (integrate odeint self vd vq load_torque) as [[[a b] c] d].
  eexists. eexists. split; [reflexivity|]. cbn. repeat split.
Qed.

Lemma wrap_any (d : float64) : wrap_of d (d mod (Fin 2 * np_pi))%f64.
Proof. destruct d; [apply wrap_finite|reflexivity..]. Qed.

Lemma wrap_of_closed (d a : float64) : wrap_of d a -> wrapped_or_nan a.
Proof.
  destruct d; cbn [wrap_of]; intros H; try (left; exact H).
  destruct H as (y & E & Hy & _). right. exists y. split; assumption.
Qed.

(** C4 as amended.  For every integrator and every sequence of inputs,
    [update] returns at each call and the electrical angle it stores is
    NaN or lies in the closed interval [0, 2*pi], the bound being the
    double [2 * np.pi].  Call by call: a non-finite integrated angle is
    stored as NaN; a finite non-negative one as its remainder, below
    [2 * np.pi]; a negative one of magnitude below [2^-51] as exactly
    [2 * np.pi], because the sum the remainder forms is rounded. *)
Theorem theta_e_wrapped_up_to_rounding
    (self : t) (inputs : list (float64 * float64 * float64)) :
  length (run odeint self inputs) = length inputs /\
  Forall (fun plant => wrapped_or_nan (theta_e plant)) (run odeint self inputs) /\
  (forall vd vq load_torque,
     exists self' tel,
       update odeint self vd vq load_torque = Returned (self', tel) /\
       (let '(_, _, _, d) := integrate odeint self vd vq load_torque in
        wrap_of d (theta_e self'))).
Proof.
  assert (Hstep : forall self vd vq load_torque,
    exists self' tel,
      update odeint self vd vq load_torque = Returned (self', tel) /\
      (let '(_, _, _, d) := integrate odeint self vd vq load_torque in
       wrap_of d (theta_e self'))).
  { intros s vd vq tl.
    destruct (update_returns s vd vq tl) as (self' & tel & Hup & _ & Hth & _).
    exists self', tel. split; [exact Hup|].
    destruct (integrate odeint s vd vq tl) as [[[a b] c] d].
    rewrite Hth. apply wrap_any. }
  split; [|split; [|apply Hstep]]; revert self;
    induction inputs as [|[[vd vq] tl] rest IH]; intros self;
    try reflexivity; try constructor;
    destruct (Hstep self vd vq tl) as (self' & tel & Hup & Hw);
    cbn [run]; rewrite Hup.
  - cbn [length]. rewrite IH. reflexivity.
  - constructor; [|apply IH].
    destruct (integrate odeint self vd vq tl) as [[[a b] c] d].
    apply (wrap_of_closed d). exact Hw.
Qed.

(** Whether a state row holds only finite numbers. *)
Definition row_isfinite (y : row) : bool :=
  let '(a, b, c, d) := y in isfinite a && isfinite b && isfinite c && isfinite d.

(** C9 as amended.  [update] makes no finiteness check and never reports
    an error: for every integrator and every input it returns the
    telemetry bundle, stores the integrator's final d/q currents and speed
    as they are and the angle modulo 2*pi, so a non-finite final row
    leaves a non-finite state in the plant, and that state is the initial
    condition of the next call's integration. *)
Theorem update_stores_state_unchecked (self : t) (vd vq load_torque : float64) :
  exists self' tel,
    update odeint self vd vq load_torque = Returned (self', tel) /\
    (id self', iq self', wr self') =
      (let '(a, b, c, _) := integrate odeint self vd vq load_torque in (a, b, c)) /\
    theta_e self' =
      (let '(_, _, _, d) := integrate odeint self vd vq load_torque in
       (d mod (Fin 2 * np_pi))%f64) /\
    (row_isfinite (integrate odeint self vd vq load_torque) = false ->
     row_isfinite (id self', iq self', wr self', theta_e self') = false) /\
    (forall vd' vq' load_torque',
       integrate odeint self' vd' vq' load_torque' =
       snd (odeint (fun y t => electrical_dynamics self' y t vd' vq' load_torque')
              (id self', iq self', wr self', theta_e self')
              (Fin 0, sample_time self'))).
Proof.
  destruct (update_returns self vd vq load_torque)
    as (self' & tel & Hup & Hrow & Hth & _ & _).
  exists self', tel. split; [exact Hup|]. split; [exact Hrow|]. split; [exact Hth|].
  split; [|reflexivity].
  destruct (integrate odeint self vd vq load_torque) as [[[a b] c] d].
  cbv beta iota in Hrow, Hth. injection Hrow as -> -> ->. rewrite Hth.
  unfold row_isfinite. intros H.
  destruct (isfinite a); [|reflexivity]. destruct (isfinite b); [|reflexivity].
  destruct (isfinite c); [|reflexivity]. cbn [andb] in H |- *.
  rewrite (wrap_not_finite d H). reflexivity.
Qed.

End Integrator.

(** A stand-in for the external integrator: one explicit Euler step over
    the sample interval. *)
Definition euler_odeint (f : row -> float64 -> row) (y0 : row)
    (t : float64 * float64) : row * row :=
  let '(t0, t1) := t in
  let h := (t1 - t0)%f64 in
  let '(a, b, c, d) := y0 in
  let '(da, db, dc, dd) := f y0 t0 in
  (y0, ((a + h * da)%f64, (b + h * db)%f64, (c + h * dc)%f64, (d + h * dd)%f64)).

Lemma euler_odeint_finite : finite_integrator euler_odeint.
Proof.
  intros f [[[a b] c] d] t0 t1 Hf Hy Ht0 Ht1. unfold euler_odeint.
  pose proof (Hf _ _ Hy Ht0) as Hd.
  destruct (f (a, b, c, d) t0) as [[[da db] dc] dd].
  destruct Hy as (Ha & Hb & Hc & Hd'). destruct Hd as (Hda & Hdb & Hdc & Hdd).
  clear Hf. finite_as_Fin. cbn. repeat split.
Qed.

(** An example motor at rest: 8 poles, Rs = 0.5 Ohm, Ld = Lq = 1 mH,
    flux 0.1 Wb, 10 A, 24 V, 1 ms sample time. *)
Definition example_motor : t :=
  mk (Fin 8) (Fin 0.5) (Fin 0.001) (Fin 0.001) (Fin 0.1) (Fin 0.001)
     (Fin 0.0001) (Fin 10) (Fin 24) (Fin 24) (Fin 0.001)
     (Fin 0) (Fin 0) (Fin 0) (Fin 0) (Fin 0).

Lemma example_motor_finite : parameters_finite example_motor.
Proof.
  unfold parameters_finite, example_motor, finite. cbn.
  repeat split; intros E; injection E as E; lra.
Qed.

(** The configuration of [example_motor], whatever the state. *)
Definition example_configuration (self : t) : Prop :=
  (poles self, Rs self, Ld self, Lq self, flux_linkage self, J self, B self,
   sample_time self) =
  (Fin 8, Fin 0.5, Fin 0.001, Fin 0.001, Fin 0.1, Fin 0.001, Fin 0.0001, Fin 0.001).

Lemma fdiv_Fin (x y : R) : y <> 0 -> (Fin x / Fin y)%f64 = Fin (x / y).
Proof. intros H. cbn. destruct (Req_dec_T y 0); [contradiction|reflexivity]. Qed.

(** One Euler step of the example motor with [vd = 0] and no load. *)
Lemma euler_update_example (self : t) (a b c d v : R) :
  example_configuration self ->
  (id self, iq self, wr self, theta_e self) = (Fin a, Fin b, Fin c, Fin d) ->
  exists self' tel,
    update euler_odeint self (Fin 0) (Fin v) (Fin 0) = Returned (self', tel) /\
    example_configuration self' /\
    (id self', iq self', wr self') =
      (Fin (a - a / 2 + c * b / 1000), Fin (b + v - b / 2 - c * a / 1000 - c / 10),
       Fin (c + 12 / 10 * b - c / 10000)) /\
    theta_e self' = (Fin (d + c / 1000) mod (Fin 2 * np_pi))%f64.
Proof.
  intros Hc Hs. injection Hc as E1 E2 E3 E4 E5 E6 E7 E8.
  injection Hs as Ea Eb Ec Ed.
  unfold update, integrate, euler_odeint, electrical_dynamics.
  rewrite E1, E2, E3, E4, E5, E6, E7, E8, Ea, Eb, Ec, Ed.
  set (modulus := (Fin 2 * np_pi)%f64).
  cbn [fadd fsub fmul fneg snd].
  rewrite !fdiv_Fin by lra. cbn [fadd fmul].
  eexists. eexists. split; [reflexivity|].
  cbn [set_state poles Rs Ld Lq flux_linkage J B sample_time id iq wr theta_e].
  split; [unfold example_configuration; cbn; congruence|].
  split.
  - f_equal; [f_equal|]; apply f_equal; nra.
  - f_equal. apply f_equal. lra.
Qed.

Lemma wrap_zero : (Fin 0 mod (Fin 2 * np_pi))%f64 = Fin 0.
Proof.
  pose proof (wrap_finite 0) as (y & E & _ & H & _). rewrite E.
  destruct H as [Hy _]; [lra|]. rewrite Hy.
  assert (E0 : Int_part (0 / two_pi) = 0%Z).
  { apply Int_part_bounds. unfold Rdiv. rewrite Rmult_0_l. cbn. lra. }
  rewrite E0. apply f_equal. cbn. ring.
Qed.

(** From rest, a q-axis voltage of [-1e-14] V for three steps: the motor
    creeps backwards and the third call stores exactly [2 * np.pi]. *)
Lemma backward_creep_reaches_two_pi :
  map theta_e
    (run euler_odeint example_motor
       [(Fin 0, Fin (-1e-14), Fin 0); (Fin 0, Fin (-1e-14), Fin 0);
        (Fin 0, Fin (-1e-14), Fin 0)]) =
  [Fin 0; Fin 0; Fin two_pi].
Proof.
  destruct (euler_update_example example_motor 0 0 0 0 (-1e-14))
    as (s1 & t1 & U1 & C1 & S1 & T1); [reflexivity..|].
  replace (0 + 0 / 1000) with 0 in T1 by lra. rewrite wrap_zero in T1.
  assert (R1 : (id s1, iq s1, wr s1, theta_e s1) =
               (Fin 0, Fin (-1e-14), Fin 0, Fin 0)).
  { rewrite T1. injection S1 as -> -> ->.
    repeat apply f_equal2; try reflexivity; apply f_equal; lra. }
  destruct (euler_update_example s1 0 (-1e-14) 0 0 (-1e-14) C1 R1)
    as (s2 & t2 & U2 & C2 & S2 & T2).
  replace (0 + 0 / 1000) with 0 in T2 by lra. rewrite wrap_zero in T2.
  assert (R2 : (id s2, iq s2, wr s2, theta_e s2) =
               (Fin 0, Fin (-1.5e-14), Fin (-1.2e-14), Fin 0)).
  { rewrite T2. injection S2 as -> -> ->.
    repeat apply f_equal2; try reflexivity; apply f_equal; lra. }
  destruct (euler_update_example s2 0 (-1.5e-14) (-1.2e-14) 0 (-1e-14) C2 R2)
    as (s3 & t3 & U3 & C3 & S3 & T3).
  cbn [run]. rewrite U1, U2, U3. cbn [map]. rewrite T1, T2, T3.
  f_equal. f_equal. f_equal.
  pose proof (wrap_finite (0 + -1.2e-14 / 1000)) as (y & E & _ & _ & H).
  rewrite E. apply f_equal. apply H.
  assert (E1 : 1 = IZR (2 ^ 51) * powerRZ 2 (-51)).
  { rewrite <- pow2_nonneg_IZR by lia. rewrite <- pow2_split. reflexivity. }
  change (2 ^ 51)%Z with 2251799813685248%Z in E1.
  pose proof (pow2_pos (-51)). lra.
Qed.

(** C4 as stated fails: the example motor starts at rest, the integrator
    keeps finite problems finite and all inputs are finite, yet the angle
    stored by the third call is [2 * np.pi], outside [0, 2*pi). *)
Lemma theta_e_reaches_two_pi :
  ~ (forall odeint self inputs,
       finite_integrator odeint -> parameters_finite self -> state_finite self ->
       Forall (fun '(vd, vq, load_torque) =>
                 finite vd /\ finite vq /\ finite load_torque) inputs ->
       Forall (fun plant => wrapped (theta_e plant)) (run odeint self inputs)).
Proof.
  intros H.
  specialize (H euler_odeint example_motor
                [(Fin 0, Fin (-1e-14), Fin 0); (Fin 0, Fin (-1e-14), Fin 0);
                 (Fin 0, Fin (-1e-14), Fin 0)]
                euler_odeint_finite example_motor_finite).
  assert (Hall : Forall wrapped [Fin 0; Fin 0; Fin two_pi]).
  { rewrite <- backward_creep_reaches_two_pi. apply Forall_map. apply H.
    - repeat split.
    - repeat constructor. }
  inversion Hall as [|? ? _ H1]; subst. inversion H1 as [|? ? _ H2]; subst.
  inversion H2 as [|? ? (x & E & _ & Hx) _]; subst.
  injection E as <-. lra.
Qed.

(** C9 as stated fails: with a NaN voltage the integrated state is not
    finite, and [update] still returns instead of reporting an error. *)
Lemma update_reports_no_instability :
  ~ (forall odeint self vd vq load_torque,
       row_isfinite (integrate odeint self vd vq load_torque) = false ->
       exists e, update odeint self vd vq load_torque = Raised e).
Proof.
  intros H.
  destruct (H euler_odeint example_motor NaN (Fin 0) (Fin 0)) as [e He].
  - reflexivity.
  - destruct (update_returns euler_odeint example_motor NaN (Fin 0) (Fin 0))
      as (self' & tel & Hup & _).
    rewrite Hup in He. discriminate He.
Qed.

Lemma limits_are_circular_clamps_witness :
  (exists x' y',
     apply_voltage_limits example_motor (Fin 30) (Fin 40) = (Fin x', Fin y') /\
     circular_clamp (24 / sqrt 3) 30 40 x' y') /\
  (exists x' y',
     apply_current_limits example_motor (Fin 30) (Fin 40) = (Fin x', Fin y') /\
     circular_clamp 10 30 40 x' y').
Proof.
  apply (limits_are_circular_clamps example_motor 24 10 30 40).
  - reflexivity.
  - lra.
  - reflexivity.
  - lra.
Defined.

End PlantFacts.

(** ** Flux weakening *)

Module PI := FluxWeakening.PIController.

Section FluxWeakeningFacts.
Import FluxWeakening.FluxWeakeningController.

(** An example configuration: the values of [example_motor]. *)
Definition example_parameters : MotorParameters :=
  mk_params 8 0.5 0.001 0.001 0.1 0.001 0.0001 10 24 24 0.001.

Lemma np_clip_upper_zero (x limit : R) :
  0 < limit -> (np_clip x (- limit) 0 < 0 <-> x < 0).
Proof.
  intros Hl. unfold np_clip, Rmin, Rmax.
  destruct (Rle_dec x (- limit)); destruct (Rle_dec _ 0); split; lra.
Qed.

Lemma speed_policy_below (self : t) (wr iq_ref : R) :
  wr <= base_speed self ->
  speed_based_flux_weakening self wr iq_ref =
  (set_fw self (PI.reset (fw_controller self)) 0 false, 0).
Proof.
  intros H. unfold speed_based_flux_weakening.
  destruct (Rgt_dec wr (base_speed self)); [exfalso; lra|reflexivity].
Qed.

Lemma speed_policy_above (self : t) (wr iq_ref : R) :
  wr > base_speed self ->
  speed_based_flux_weakening self wr iq_ref =
  let id_fw :=
    np_clip (- (flux_linkage self + Lq self * iq_ref) / Ld self)
      (- max_current self) 0 in
  (set_fw self (fw_controller self) id_fw true, id_fw).
Proof.
  intros H. unfold speed_based_flux_weakening.
  destruct (Rgt_dec wr (base_speed self)); [reflexivity|contradiction].
Qed.

(** A base speed computed from a positive bus voltage and pole count is
    positive only for a positive flux linkage. *)
Lemma positive_base_speed_flux (v_dc flux poles : R) :
  0 < v_dc -> 0 < poles -> 0 < calculate_base_speed v_dc flux poles -> 0 < flux.
Proof.
  intros Hv Hp Hb. unfold calculate_base_speed in Hb.
  assert (Hs : 0 < sqrt 3) by (apply sqrt_lt_R0; lra).
  destruct (Rlt_dec 0 flux) as [H|H]; [exact H|exfalso].
  assert (Hv3 : 0 < v_dc / sqrt 3).
  { apply Rmult_lt_0_compat; [exact Hv|]. apply Rinv_0_lt_compat. exact Hs. }
  assert (Hp2 : 0 < / (poles / 2)) by (apply Rinv_0_lt_compat; lra).
  destruct (Req_dec flux 0) as [->|Hne].
  - unfold Rdiv in Hb at 1 2. rewrite Rinv_0 in Hb. lra.
  - assert (Hf : / flux < 0) by (apply Rinv_lt_0_compat; lra).
    unfold Rdiv in Hb at 1 2.
    assert (v_dc / sqrt 3 * / flux < 0) by nra. nra.
Qed.

(** C6.  At or below base speed the speed-threshold policy returns exactly
    0 and resets the flux-weakening PI controller; above base speed it
    returns [-(flux_linkage + Lq*iq_ref)/Ld] clipped to [-max_current, 0].
    With base speed 100, at wr = 150 and iq_ref = 5 it returns that clipped
    value, which is negative for a positive inductance, current limit and
    [flux_linkage + Lq*5] (so for every controller built from a
    configuration with positive inductances, limits and pole count); at
    wr = 50 it returns exactly 0. *)
Theorem speed_based_flux_weakening_policy (self : t) (wr iq_ref : R) :
  (wr <= base_speed self ->
   snd (speed_based_flux_weakening self wr iq_ref) = 0 /\
   id_fw (fst (speed_based_flux_weakening self wr iq_ref)) = 0 /\
   fw_controller (fst (speed_based_flux_weakening self wr iq_ref)) =
     PI.reset (fw_controller self) /\
   PI.integral (fw_controller (fst (speed_based_flux_weakening self wr iq_ref))) = 0 /\
   PI.prev_error (fw_controller (fst (speed_based_flux_weakening self wr iq_ref))) = 0) /\
  (wr > base_speed self ->
   snd (speed_based_flux_weakening self wr iq_ref) =
   np_clip (- (flux_linkage self + Lq self * iq_ref) / Ld self)
     (- max_current self) 0) /\
  (base_speed self = 100 ->
   snd (speed_based_flux_weakening self 150 5) =
     np_clip (- (flux_linkage self + Lq self * 5) / Ld self) (- max_current self) 0 /\
   snd (speed_based_flux_weakening self 50 5) = 0 /\
   (0 < Ld self -> 0 < max_current self ->
    (snd (speed_based_flux_weakening self 150 5) < 0 <->
     0 < flux_linkage self + Lq self * 5))) /\
  (forall params,
     0 < p_Ld params -> 0 < p_Lq params -> 0 < p_max_current params ->
     0 < p_dc_bus_voltage params -> 0 < p_poles params ->
     base_speed (init params) = 100 ->
     snd (speed_based_flux_weakening (init params) 150 5) < 0).
Proof.
  assert (Hneg : forall c, base_speed c = 100 -> 0 < Ld c -> 0 < max_current c ->
            (snd (speed_based_flux_weakening c 150 5) < 0 <->
             0 < flux_linkage c + Lq c * 5)).
  { intros c Hb HLd HI. rewrite speed_policy_above by lra. cbn [snd].
    rewrite np_clip_upper_zero by exact HI.
    assert (Hi : 0 < / Ld c) by (apply Rinv_0_lt_compat; exact HLd).
    unfold Rdiv. split; intros H; nra. }
  split; [|split; [|split]].
  - intros H. rewrite speed_policy_below by exact H. cbn. repeat split.
  - intros H. rewrite speed_policy_above by exact H. reflexivity.
  - intros Hb. split; [|split].
    + rewrite speed_policy_above by lra. reflexivity.
    + rewrite speed_policy_below by lra. reflexivity.
    + intros HLd HI. apply Hneg; assumption.
  - intros params HLd HLq HI Hv Hp Hb.
    apply Hneg; [exact Hb|exact HLd|exact HI|].
    assert (Hf : 0 < p_flux_linkage params).
    { apply (positive_base_speed_flux (p_dc_bus_voltage params) _ (p_poles params));
        [exact Hv|exact Hp|].
      change (0 < base_speed (init params)). lra. }
    change (0 < p_flux_linkage params + p_Lq params * 5). nra.
Qed.

(** The example configuration with the base speed set to 100 rad/s. *)
Definition example_flux_weakening : t :=
  mk 8 0.5 0.001 0.001 0.1 10 24 24 0.001 100 0.5 10 0.95
     (PI.init 0.5 10 (Some (- 10, 0))) 0 false.

End FluxWeakeningFacts.

Lemma speed_based_flux_weakening_policy_witness :
  snd (FluxWeakening.FluxWeakeningController.speed_based_flux_weakening
         example_flux_weakening 150 5) < 0 /\
  snd (FluxWeakening.FluxWeakeningController.speed_based_flux_weakening
         example_flux_weakening 50 5) = 0.
Proof.
  destruct (speed_based_flux_weakening_policy example_flux_weakening 150 5)
    as (_ & _ & H & _).
  destruct (H eq_refl) as (_ & H50 & Hneg).
  split; [|exact H50].
  apply Hneg; cbn; lra.
Defined.

(** ** Mode selectors *)

Section ModeFacts.

Definition control_modes : list string :=
  ["observer"; "adaptive"; "robust"; "combined"]%string.

Definition flux_weakening_methods : list string :=
  ["voltage"; "speed"; "lookup"]%string.

Lemma existsb_eqb_In (s : string) (l : list string) :
  existsb (String.eqb s) l = true <-> In s l.
Proof.
  rewrite existsb_exists. split.
  - intros (x & Hx & E). apply String.eqb_eq in E. subst. exact Hx.
  - intros H. exists s. split; [exact H|apply String.eqb_refl].
Qed.

Lemma unknown_method_returns_zero
    (self : FluxWeakening.FluxWeakeningController.t) (wr vd vq iq_ref : R)
    (method : string) :
  ~ In method flux_weakening_methods ->
  FluxWeakening.FluxWeakeningController.update self wr vd vq iq_ref method =
  Returned (self, 0).
Proof.
  intros H. unfold FluxWeakening.FluxWeakeningController.update.
  destruct (String.eqb_spec method "voltage") as [E|_].
  { exfalso. apply H. subst. cbn. auto. }
  destruct (String.eqb_spec method "speed") as [E|_].
  { exfalso. apply H. subst. cbn. auto. }
  destruct (String.eqb_spec method "lookup") as [E|_].
  { exfalso. apply H. subst. cbn. auto. }
  reflexivity.
Qed.

(** C8 as stated fails: [FluxWeakeningController.update] does not reject
    the unknown method ["mtpa"]. *)
Lemma flux_weakening_update_accepts_unknown_method :
  ~ (forall self wr vd vq iq_ref method,
       ~ In method flux_weakening_methods ->
       exists e,
         FluxWeakening.FluxWeakeningController.update self wr vd vq iq_ref method =
         Raised e).
Proof.
  intros H.
  destruct (H example_flux_weakening 150 0 0 5 "mtpa"%string) as [e He].
  - intros [E|[E|[E|[]]]]; discriminate E.
  - rewrite unknown_method_returns_zero in He.
    + discriminate He.
    + intros [E|[E|[E|[]]]]; discriminate E.
Qed.

(** C8 as amended.  [DisturbanceRejectionController.set_control_mode]
    raises [ValueError] for every mode outside 'observer', 'adaptive',
    'robust', 'combined' and selects every mode inside; and
    [FluxWeakeningController.update] does not reject a method outside
    'voltage', 'speed', 'lookup': it returns 0.0 and leaves the
    controller as it was. *)
Theorem unknown_mode_selectors
    (dr : DisturbanceRejection.DisturbanceRejectionController.t)
    (fw : FluxWeakening.FluxWeakeningController.t)
    (selector : string) (wr vd vq iq_ref : R) :
  (~ In selector control_modes ->
   DisturbanceRejection.DisturbanceRejectionController.set_control_mode dr selector =
   Raised (ValueError
     "Invalid control mode. Use 'observer', 'adaptive', 'robust', or 'combined'")) /\
  (In selector control_modes ->
   exists dr',
     DisturbanceRejection.DisturbanceRejectionController.set_control_mode dr selector =
     Returned dr' /\
     DisturbanceRejection.DisturbanceRejectionController.control_mode dr' = selector) /\
  (~ In selector flux_weakening_methods ->
   FluxWeakening.FluxWeakeningController.update fw wr vd vq iq_ref selector =
   Returned (fw, 0)).
Proof.
  unfold DisturbanceRejection.DisturbanceRejectionController.set_control_mode.
  fold control_modes.
  split; [|split].
  - intros H. destruct (existsb (String.eqb selector) control_modes) eqn:E.
    + exfalso. apply H. apply existsb_eqb_In. exact E.
    + reflexivity.
  - intros H. apply existsb_eqb_In in H. rewrite H.
    eexists. split; reflexivity.
  - apply unknown_method_returns_zero.
Qed.

Lemma unknown_mode_selectors_witness :
  DisturbanceRejection.DisturbanceRejectionController.set_control_mode
    (DisturbanceRejection.DisturbanceRejectionController.init example_parameters)
    "mtpa" =
  Raised (ValueError
    "Invalid control mode. Use 'observer', 'adaptive', 'robust', or 'combined'") /\
  FluxWeakening.FluxWeakeningController.update example_flux_weakening 150 0 0 5 "mtpa" =
  Returned (example_flux_weakening, 0).
Proof.
  destruct (unknown_mode_selectors
              (DisturbanceRejection.DisturbanceRejectionController.init example_parameters)
              example_flux_weakening "mtpa" 150 0 0 5) as (H1 & _ & H3).
  split.
  - apply H1. intros [E|[E|[E|[E|[]]]]]; discriminate E.
  - apply H3. intros [E|[E|[E|[]]]]; discriminate E.
Defined.

End ModeFacts.

(** ** Disturbance rejection: the feed-forward term *)

Section DisturbanceRejectionFacts.
Import DisturbanceRejection.DisturbanceRejectionController.

Lemma missing_attributes (self : t) :
  getattr self "poles" = Raised (AttributeError "poles") /\
  getattr self "flux_linkage" = Raised (AttributeError "flux_linkage").
Proof. split; reflexivity. Qed.

(** C1.  In mode 'observer' (the mode [__init__] selects) and in mode
    'combined', [update] raises [AttributeError]: the feed-forward term
    reads [self.poles], which no instance has (nor [self.flux_linkage]);
    in modes 'adaptive' and 'robust' it returns the telemetry bundle, and
    of the four modes only these two do. *)
Theorem update_feed_forward_raises
    (self : t) (Te wr_actual wr_ref id_actual iq_actual id_ref iq_ref : R) :
  (control_mode self = "observer"%string \/ control_mode self = "combined"%string ->
   snd (update self Te wr_actual wr_ref id_actual iq_actual id_ref iq_ref) =
   Raised (AttributeError "poles")) /\
  (control_mode self = "adaptive"%string \/ control_mode self = "robust"%string ->
   exists bundle,
     snd (update self Te wr_actual wr_ref id_actual iq_actual id_ref iq_ref) =
     Returned bundle /\
     id_ref_modified bundle = id_ref) /\
  (In (control_mode self) control_modes ->
   (exists bundle,
      snd (update self Te wr_actual wr_ref id_actual iq_actual id_ref iq_ref) =
      Returned bundle) <->
   control_mode self = "adaptive"%string \/ control_mode self = "robust"%string) /\
  (forall params, control_mode (init params) = "observer"%string) /\
  getattr self "poles" = Raised (AttributeError "poles") /\
  getattr self "flux_linkage" = Raised (AttributeError "flux_linkage").
Proof.
  assert (Hraise :
    control_mode self = "observer"%string \/ control_mode self = "combined"%string ->
    snd (update self Te wr_actual wr_ref id_actual iq_actual id_ref iq_ref) =
    Raised (AttributeError "poles")).
  { intros [H|H]; unfold update;
      destruct (DisturbanceRejection.DisturbanceObserver.update _ _ _ _) as [obs dq];
      cbn [control_mode]; rewrite H; reflexivity. }
  assert (Hreturn :
    control_mode self = "adaptive"%string \/ control_mode self = "robust"%string ->
    exists bundle,
      snd (update self Te wr_actual wr_ref id_actual iq_actual id_ref iq_ref) =
      Returned bundle /\
      id_ref_modified bundle = id_ref).
  { intros [H|H]; unfold update;
      destruct (DisturbanceRejection.DisturbanceObserver.update _ _ _ _) as [obs dq];
      cbn [control_mode]; rewrite H; cbn; eexists; split; reflexivity. }
  split; [exact Hraise|]. split; [exact Hreturn|].
  split; [|split; [reflexivity|apply missing_attributes]].
  intros Hin. split.
  - intros [bundle Hb].
    destruct Hin as [E|[E|[E|[E|[]]]]]; symmetry in E; auto;
      rewrite Hraise in Hb by auto; discriminate Hb.
  - intros H. destruct (Hreturn H) as (bundle & Hb & _). exists bundle. exact Hb.
Qed.

Lemma update_feed_forward_raises_witness :
  snd (update (init example_parameters) 1 0 10 0 0 0 1) =
  Raised (AttributeError "poles").
Proof.
  destruct (update_feed_forward_raises (init example_parameters) 1 0 10 0 0 0 1)
    as (H & _).
  apply H. left. reflexivity.
Defined.

End DisturbanceRejectionFacts.

(** ** Recursive least squares *)

Section ArrayFacts.

Lemma dot_nil_r (u : list R) : dot u [] = 0.
Proof. destruct u; reflexivity. Qed.

Lemma dot_vadd (u a b : list R) :
  length a = length b -> dot u (vadd a b) = dot u a + dot u b.
Proof.
  revert a b. induction u as [|x u IH]; intros a b Hlen.
  - cbn. ring.
  - destruct a as [|y a], b as [|z b]; try discriminate Hlen.
    + cbn. ring.
    + cbn. rewrite IH by (injection Hlen as H; exact H). ring.
Qed.

Lemma dot_vscale (u v : list R) (c : R) : dot u (vscale v c) = dot u v * c.
Proof.
  revert v. induction u as [|x u IH]; intros [|y v]; cbn; try ring.
  fold (vscale v c). rewrite IH. ring.
Qed.

Lemma dot_vdiv (u v : list R) (c : R) : dot u (vdiv v c) = dot u v / c.
Proof.
  revert v. induction u as [|x u IH]; intros [|y v]; cbn;
    try (unfold Rdiv; ring).
  fold (vdiv v c). rewrite IH. unfold Rdiv. ring.
Qed.

Lemma dot_map_plus (A : Type) (f g : A -> R) (js : list A) (w : list R) :
  dot (map (fun j => f j + g j) js) w = dot (map f js) w + dot (map g js) w.
Proof.
  revert w. induction js as [|j js IH]; intros [|y w]; cbn; try ring.
  rewrite IH. ring.
Qed.

Lemma dot_map_scale (A : Type) (c : R) (f : A -> R) (js : list A) (w : list R) :
  dot (map (fun j => c * f j) js) w = c * dot (map f js) w.
Proof.
  revert w. induction js as [|j js IH]; intros [|y w]; cbn; try ring.
  rewrite IH. ring.
Qed.

Lemma dot_map_zero (A : Type) (js : list A) (w : list R) :
  dot (map (fun _ => 0) js) w = 0.
Proof.
  revert w. induction js as [|j js IH]; intros [|y w]; cbn; try ring.
  rewrite IH. ring.
Qed.

Lemma map_nth_seq (r : list R) :
  map (fun j => nth j r 0) (seq 0 (length r)) = r.
Proof.
  induction r as [|x r IH]; [reflexivity|].
  cbn [length seq map nth]. f_equal.
  rewrite <- seq_shift, map_map. exact IH.
Qed.

(** Entry-wise products against the columns of [M], for any column range. *)
Lemma dot_columns (n : nat) (u w : list R) (M : list (list R)) :
  Forall (fun r => length r = n) M ->
  dot (map (fun j => dot u (column j M)) (seq 0 n)) w = dot u (matvec M w).
Proof.
  intros HM. revert u. induction HM as [|r M Hr HM IH]; intros u.
  - destruct u; cbn; apply dot_map_zero.
  - destruct u as [|x u].
    + cbn. apply dot_map_zero.
    + cbn [column map matvec dot].
      rewrite (dot_map_plus nat (fun j => x * nth j r 0)
                 (fun j => dot u (column j M))).
      rewrite dot_map_scale. rewrite <- Hr, map_nth_seq, Hr.
      fold (matvec M w). rewrite <- IH. reflexivity.
Qed.

(** [(phi.T @ M) @ phi = phi.T @ (M @ phi)] on conformant shapes. *)
Lemma quadratic_form (n : nat) (phi : list R) (M : list (list R)) :
  length M = n -> Forall (fun r => length r = n) M ->
  dot (vecmat phi M) phi = dot phi (matvec M phi).
Proof.
  intros Hlen HM. unfold vecmat.
  destruct M as [|r M].
  - cbn. rewrite dot_nil_r. reflexivity.
  - assert (Hn : ncols (r :: M) = n) by (inversion HM; assumption).
    rewrite Hn. apply dot_columns. exact HM.
Qed.

Lemma vadd_zeros (v : list R) (c : R) : vadd v (vscale (zeros_like v) c) = v.
Proof.
  induction v as [|x v IH]; [reflexivity|].
  cbn. fold (zeros_like v). fold (vscale (zeros_like v) c). rewrite IH.
  f_equal. ring.
Qed.

End ArrayFacts.

Section RlsFacts.
Import SelfLearning SelfLearning.MotorParameterIdentification.

(** The shapes [rls_update] is called with: [theta] and [phi] of size [n]
    and an [n] by [n] covariance matrix. *)
Definition conformant (n : nat) (est : estimator) (phi : list R) : Prop :=
  length (theta est) = n /\ length phi = n /\ length (P est) = n /\
  Forall (fun r => length r = n) (P est).

(** The gain denominator [lambda + phi^T P phi]. *)
Definition gain_denominator (est : estimator) (phi : list R) : R :=
  lambda est + dot (vecmat phi (P est)) phi.

(** The residual [y - phi^T theta]. *)
Definition residual (est : estimator) (phi : list R) (y : R) : R :=
  y - dot phi (theta est).

Lemma rls_update_gain (n : nat) (est : estimator) (phi : list R) (y : R) :
  conformant n est phi ->
  Rabs (gain_denominator est phi) > 1e-10 ->
  residual (fst (rls_update est phi y)) phi y =
  residual est phi y * (lambda est / gain_denominator est phi).
Proof.
  intros (Ht & Hp & HP & Hrows) Hd. unfold residual, rls_update.
  fold (gain_denominator est phi).
  destruct (Rgt_dec (Rabs (gain_denominator est phi)) 1e-10) as [_|H];
    [|contradiction].
  cbn [fst theta].
  rewrite dot_vadd.
  - rewrite dot_vscale, dot_vdiv.
    rewrite <- (quadratic_form n phi (P est) HP Hrows).
    assert (Hne : gain_denominator est phi <> 0).
    { intros E. rewrite E, Rabs_R0 in Hd. lra. }
    unfold gain_denominator in *. field. exact Hne.
  - unfold vscale, vdiv, matvec. rewrite !length_map. congruence.
Qed.

Lemma rls_update_zero_gain (est : estimator) (phi : list R) (y : R) :
  Rabs (gain_denominator est phi) <= 1e-10 ->
  theta (fst (rls_update est phi y)) = theta est.
Proof.
  intros Hd. unfold rls_update. fold (gain_denominator est phi).
  destruct (Rgt_dec (Rabs (gain_denominator est phi)) 1e-10) as [H|_];
    [exfalso; lra|].
  cbn [fst theta]. apply vadd_zeros.
Qed.

(** C3 as amended.  On conformant shapes, when the gain denominator
    [d = lambda + phi^T P phi] has [|d| > 1e-10], one [rls_update] call
    multiplies the residual [y - phi^T theta] by [lambda / d]; so with
    [lambda > 0] the absolute residual does not grow when
    [phi^T P phi >= 0] and strictly shrinks when moreover
    [phi^T P phi > 0] and the residual is not zero.  When [|d| <= 1e-10]
    the gain is zero and [theta] is unchanged.  The returned error is the
    residual before the update. *)
Theorem rls_update_residual (n : nat) (est : estimator) (phi : list R) (y : R) :
  conformant n est phi ->
  snd (rls_update est phi y) = residual est phi y /\
  (Rabs (gain_denominator est phi) > 1e-10 ->
   residual (fst (rls_update est phi y)) phi y =
   residual est phi y * (lambda est / gain_denominator est phi)) /\
  (Rabs (gain_denominator est phi) > 1e-10 -> 0 < lambda est ->
   0 <= dot (vecmat phi (P est)) phi ->
   Rabs (residual (fst (rls_update est phi y)) phi y) <= Rabs (residual est phi y)) /\
  (Rabs (gain_denominator est phi) > 1e-10 -> 0 < lambda est ->
   0 < dot (vecmat phi (P est)) phi -> residual est phi y <> 0 ->
   Rabs (residual (fst (rls_update est phi y)) phi y) < Rabs (residual est phi y)) /\
  (Rabs (gain_denominator est phi) <= 1e-10 ->
   theta (fst (rls_update est phi y)) = theta est).
Proof.
  intros Hc.
  assert (Hratio : forall q, 0 < lambda est -> 0 <= q ->
            0 <= lambda est / (lambda est + q) <= 1 /\
            (0 < q -> lambda est / (lambda est + q) < 1)).
  { intros q Hl Hq.
    assert (Hi : 0 < / (lambda est + q)) by (apply Rinv_0_lt_compat; lra).
    assert (E : (lambda est + q) * / (lambda est + q) = 1) by (field; lra).
    unfold Rdiv. repeat split; intros; nra. }
  split; [reflexivity|]. split; [apply (rls_update_gain n); exact Hc|].
  split; [|split; [|apply rls_update_zero_gain]].
  - intros Hd Hl Hq. rewrite (rls_update_gain n) by assumption.
    destruct (Hratio _ Hl Hq) as [[H0 H1] _]. unfold gain_denominator.
    rewrite Rabs_mult, (Rabs_pos_eq (lambda est / _)) by exact H0.
    pose proof (Rabs_pos (residual est phi y)). nra.
  - intros Hd Hl Hq Hr. rewrite (rls_update_gain n) by assumption.
    destruct (Hratio _ Hl (Rlt_le _ _ Hq)) as [[H0 H1] H2]. specialize (H2 Hq).
    unfold gain_denominator.
    rewrite Rabs_mult, (Rabs_pos_eq (lambda est / _)) by exact H0.
    pose proof (Rabs_pos_lt _ Hr). nra.
Qed.

(** The resistance estimator of the example configuration. *)
Definition example_estimator : estimator := mk_estimator [0.5] eye1_1000 0.99.

Lemma rls_update_residual_witness :
  snd (rls_update example_estimator [2] 3) = residual example_estimator [2] 3 /\
  (Rabs (gain_denominator example_estimator [2]) > 1e-10 ->
   residual (fst (rls_update example_estimator [2] 3)) [2] 3 =
   residual example_estimator [2] 3 *
   (lambda example_estimator / gain_denominator example_estimator [2])) /\
  (Rabs (gain_denominator example_estimator [2]) > 1e-10 ->
   0 < lambda example_estimator ->
   0 <= dot (vecmat [2] (P example_estimator)) [2] ->
   Rabs (residual (fst (rls_update example_estimator [2] 3)) [2] 3) <=
   Rabs (residual example_estimator [2] 3)) /\
  (Rabs (gain_denominator example_estimator [2]) > 1e-10 ->
   0 < lambda example_estimator ->
   0 < dot (vecmat [2] (P example_estimator)) [2] ->
   residual example_estimator [2] 3 <> 0 ->
   Rabs (residual (fst (rls_update example_estimator [2] 3)) [2] 3) <
   Rabs (residual example_estimator [2] 3)) /\
  (Rabs (gain_denominator example_estimator [2]) <= 1e-10 ->
   theta (fst (rls_update example_estimator [2] 3)) = theta example_estimator).
Proof.
  apply (rls_update_residual 1 example_estimator [2] 3).
  repeat split; repeat constructor.
Defined.

(** C3 as stated fails: with a zero regressor the denominator is
    [lambda = 0.99], well above 1e-10, and the residual stays 5. *)
Lemma rls_update_no_strict_reduction :
  ~ (forall n est phi y,
       conformant n est phi -> 0 < lambda est <= 1 ->
       Rabs (gain_denominator est phi) >= 1e-10 ->
       Rabs (residual (fst (rls_update est phi y)) phi y) <
       Rabs (residual est phi y)).
Proof.
  intros H.
  assert (Hd : gain_denominator example_estimator [0] = 0.99).
  { unfold gain_denominator. cbn. lra. }
  specialize (H 1%nat example_estimator [0] 5).
  assert (E : residual (fst (rls_update example_estimator [0] 5)) [0] 5 =
              residual example_estimator [0] 5).
  { rewrite (rls_update_gain 1).
    - rewrite Hd. cbn. field. lra.
    - repeat split; repeat constructor.
    - rewrite Hd, Rabs_pos_eq; lra. }
  rewrite E in H. apply (Rlt_irrefl (Rabs (residual example_estimator [0] 5))).
  apply H.
  - repeat split; repeat constructor.
  - cbn. lra.
  - rewrite Hd, Rabs_pos_eq; lra.
Qed.

End RlsFacts.

(** ** Resistance identification *)

Section ResistanceFacts.
Import SelfLearning SelfLearning.MotorParameterIdentification.

(** The identifier built from the example configuration. *)
Definition example_identifier : t := init example_parameters.

(** One update of the resistance estimator with a single regression pair:
    [rls_update] on [Rs_estimator], then [Rs_identified] read from the new
    [theta[0]]. *)
Definition regress_resistance (self : t) (current voltage : R) : outcome t :=
  let est := fst (rls_update (Rs_estimator self) [current] voltage) in
  match theta est with
  | theta0 :: _ => Returned (set_Rs self est theta0)
  | [] => Raised IndexError
  end.

(** The identified resistance a call leaves, when the call returns. *)
Definition identified (result : outcome t) : option R :=
  match result with
  | Returned self => Some (Rs_identified self)
  | Raised _ => None
  end.

(** The scalar gain of a one-parameter estimator with covariance [p] for
    the regressor [i]. *)
Definition scalar_gain (lambda p i : R) : R :=
  if Rgt_dec (Rabs (lambda + i * p * i)) 1e-10
  then p * i / (lambda + i * p * i)
  else 0.

Lemma regress_resistance_scalar (self : t) (r p i v : R) :
  theta (Rs_estimator self) = [r] -> P (Rs_estimator self) = [[p]] ->
  identified (regress_resistance self i v) =
  Some (r + scalar_gain (lambda (Rs_estimator self)) p i * (v - i * r)).
Proof.
  intros Ht HP. unfold regress_resistance, rls_update, scalar_gain.
  rewrite Ht, HP. cbn [vecmat ncols length seq map column nth dot matvec].
  replace (lambda (Rs_estimator self) + ((i * p + 0) * i + 0))
    with (lambda (Rs_estimator self) + i * p * i) by ring.
  destruct (Rgt_dec (Rabs (lambda (Rs_estimator self) + i * p * i)) 1e-10);
    cbn; f_equal; unfold Rdiv; ring.
Qed.

(** C10 as amended.  [identify_resistance] updates the estimator only when
    [|wr|] is below the speed threshold.  It then regresses [vd] against
    [id] whenever [|id| > 0.1], whatever the q-axis current is; it
    regresses [vq] against [iq] only when [|id| <= 0.1] and [|iq| > 0.1];
    otherwise it changes nothing.  Each update uses the pair of one axis
    only: from the estimate [r] with covariance [p] it moves the
    identified resistance to [r + K * (voltage - current * r)], with [K]
    the gain for that axis's current. *)
Theorem identify_resistance_axis (self : t) (vd id vq iq wr : R) :
  (Rabs wr < min_speed_for_identification self -> Rabs id > 0.1 ->
   identify_resistance self vd id vq iq wr = regress_resistance self id vd) /\
  (Rabs wr < min_speed_for_identification self -> Rabs id <= 0.1 -> Rabs iq > 0.1 ->
   identify_resistance self vd id vq iq wr = regress_resistance self iq vq) /\
  (Rabs wr < min_speed_for_identification self -> Rabs id <= 0.1 -> Rabs iq <= 0.1 ->
   identify_resistance self vd id vq iq wr = Returned self) /\
  (Rabs wr >= min_speed_for_identification self ->
   identify_resistance self vd id vq iq wr = Returned self) /\
  (forall r p current voltage,
     theta (Rs_estimator self) = [r] -> P (Rs_estimator self) = [[p]] ->
     identified (regress_resistance self current voltage) =
     Some (r + scalar_gain (lambda (Rs_estimator self)) p current *
               (voltage - current * r))).
Proof.
  unfold identify_resistance.
  split; [|split; [|split; [|split]]];
    try (intros r p current voltage; apply regress_resistance_scalar);
    destruct (Rlt_dec (Rabs wr) (min_speed_for_identification self));
    destruct (Rgt_dec (Rabs id) 0.1); destruct (Rgt_dec (Rabs iq) 0.1);
    intros; try reflexivity; exfalso; lra.
Qed.

Lemma identify_resistance_axis_witness :
  identify_resistance example_identifier 1 0.2 2.5 5 0 =
  regress_resistance example_identifier 0.2 1.
Proof.
  destruct (identify_resistance_axis example_identifier 1 0.2 2.5 5 0) as (H & _).
  apply H.
  - cbn. rewrite Rabs_R0. lra.
  - rewrite Rabs_pos_eq; lra.
Defined.

Lemma example_call_regresses_d_axis :
  identify_resistance example_identifier 1 0.2 2.5 5 0 =
  regress_resistance example_identifier 0.2 1.
Proof.
  unfold identify_resistance.
  destruct (Rlt_dec (Rabs 0) (min_speed_for_identification example_identifier))
    as [_|H]; [|exfalso; apply H; cbn; rewrite Rabs_R0; lra].
  destruct (Rgt_dec (Rabs 0.2) 0.1) as [_|H]; [reflexivity|].
  exfalso. apply H. rewrite Rabs_pos_eq; lra.
Qed.

Lemma example_d_axis_regression :
  identified (regress_resistance example_identifier 0.2 1) =
  Some (0.5 + 1000 * 0.2 / (0.99 + 0.2 * 1000 * 0.2) * (1 - 0.2 * 0.5)).
Proof.
  rewrite (regress_resistance_scalar _ 0.5 1000) by reflexivity.
  unfold scalar_gain. cbn [lambda Rs_estimator example_identifier init].
  destruct (Rgt_dec (Rabs (0.99 + 0.2 * 1000 * 0.2)) 1e-10) as [_|H];
    [reflexivity|].
  exfalso. apply H. rewrite Rabs_pos_eq; lra.
Qed.

Lemma example_q_axis_regression :
  identified (regress_resistance example_identifier 5 2.5) = Some 0.5.
Proof.
  rewrite (regress_resistance_scalar _ 0.5 1000) by reflexivity.
  f_equal. replace (2.5 - 5 * 0.5) with 0 by lra. ring.
Qed.

(** C10 as stated fails: near stall with [id = 0.2] and [iq = 5] the
    q axis carries the larger current, and the call still regresses [vd]
    against [id]. *)
Lemma identify_resistance_prefers_d_axis :
  ~ (forall self vd id vq iq wr,
       Rabs wr < min_speed_for_identification self ->
       Rabs id < Rabs iq -> Rabs iq > 0.1 ->
       identify_resistance self vd id vq iq wr = regress_resistance self iq vq).
Proof.
  intros H. specialize (H example_identifier 1 0.2 2.5 5 0).
  rewrite example_call_regresses_d_axis in H.
  assert (E : identified (regress_resistance example_identifier 0.2 1) =
              identified (regress_resistance example_identifier 5 2.5)).
  { f_equal. apply H.
    - cbn. rewrite Rabs_R0. lra.
    - rewrite !Rabs_pos_eq; lra.
    - rewrite Rabs_pos_eq; lra. }
  rewrite example_d_axis_regression, example_q_axis_regression in E.
  injection E as E.
  assert (Hpos : 0 < 1000 * 0.2 / (0.99 + 0.2 * 1000 * 0.2) * (1 - 0.2 * 0.5)).
  { apply Rmult_lt_0_compat; [|lra].
    apply Rmult_lt_0_compat; [lra|]. apply Rinv_0_lt_compat. lra. }
  lra.
Qed.

End ResistanceFacts.

(** * Further properties of the control core *)

(** ** Coordinate transforms *)

Section TransformFacts.
Import FocControl.FOCController.

Lemma sqrt3_pos : 0 < sqrt 3.
Proof. apply sqrt_lt_R0. lra. Qed.

Lemma sqrt3_sqr : sqrt 3 * sqrt 3 = 3.
Proof. apply sqrt_sqrt. lra. Qed.

Lemma sin_cos_sqr (x : R) : sin x * sin x + cos x * cos x = 1.
Proof. pose proof (sin2_cos2 x) as H. unfold Rsqr in H. exact H. Qed.

(** X1.  The Park transform and its inverse undo each other at the same angle,
    and the Park transform keeps the length of the vector. *)
Theorem park_round_trip (a b theta_e : R) :
  (let '(d, q) := park_transform a b theta_e in
   inverse_park_transform d q theta_e) = (a, b) /\
  (let '(alpha, beta) := inverse_park_transform a b theta_e in
   park_transform alpha beta theta_e) = (a, b) /\
  (let '(d, q) := park_transform a b theta_e in d * d + q * q) = a * a + b * b.
Proof.
  pose proof (sin_cos_sqr theta_e) as H.
  unfold park_transform, inverse_park_transform.
  set (s := sin theta_e) in *. set (c := cos theta_e) in *.
  repeat split.
  - f_equal.
    + replace ((a * c + b * s) * c - (- a * s + b * c) * s)
        with (a * (s * s + c * c)) by ring. rewrite H. ring.
    + replace ((a * c + b * s) * s + (- a * s + b * c) * c)
        with (b * (s * s + c * c)) by ring. rewrite H. ring.
  - f_equal.
    + replace ((a * c - b * s) * c + (a * s + b * c) * s)
        with (a * (s * s + c * c)) by ring. rewrite H. ring.
    + replace (- (a * c - b * s) * s + (a * s + b * c) * c)
        with (b * (s * s + c * c)) by ring. rewrite H. ring.
  - replace ((a * c + b * s) * (a * c + b * s) + (- a * s + b * c) * (- a * s + b * c))
      with ((a * a + b * b) * (s * s + c * c)) by ring. rewrite H. ring.
Qed.

(** X2.  The phase voltages of the inverse Clarke transform add up to zero and
    the Clarke transform recovers the alpha-beta pair from them. *)
Theorem clarke_of_inverse_clarke (v_alpha v_beta : R) :
  (let '(va, vb, vc) := inverse_clarke_transform v_alpha v_beta in va + vb + vc) = 0 /\
  (let '(va, vb, vc) := inverse_clarke_transform v_alpha v_beta in
   clarke_transform va vb vc) = (v_alpha, v_beta).
Proof.
  pose proof sqrt3_pos as H3. unfold inverse_clarke_transform, clarke_transform.
  split; [field|]. f_equal. field. lra.
Qed.

(** X3.  On balanced phase currents the inverse Clarke transform undoes the
    Clarke transform. *)
Theorem inverse_clarke_of_clarke (ia ib ic : R) :
  ia + ib + ic = 0 ->
  (let '(i_alpha, i_beta) := clarke_transform ia ib ic in
   inverse_clarke_transform i_alpha i_beta) = (ia, ib, ic).
Proof.
  intros Hsum. pose proof sqrt3_pos as H3.
  unfold inverse_clarke_transform, clarke_transform.
  assert (E : sqrt 3 * ((ia + 2 * ib) / sqrt 3) = ia + 2 * ib) by (field; lra).
  rewrite E. repeat f_equal; lra.
Qed.

Lemma inverse_clarke_of_clarke_witness :
  (let '(i_alpha, i_beta) := clarke_transform 1 2 (-3) in
   inverse_clarke_transform i_alpha i_beta) = (1, 2, -3).
Proof. apply (inverse_clarke_of_clarke 1 2 (-3)). lra. Defined.

End TransformFacts.

(** ** The plant: phase currents *)

Section PhaseCurrentFacts.
Import PMSMModel.

(** The stationary-frame currents of a finite state. *)
Definition stator_alpha (a b theta : R) : R := a * cos theta - b * sin theta.
Definition stator_beta (a b theta : R) : R := a * sin theta + b * cos theta.

Lemma phase_currents_finite (self : t) (a b theta : R) :
  id self = Fin a -> iq self = Fin b -> theta_e self = Fin theta ->
  get_three_phase_currents self =
  (Fin (stator_alpha a b theta),
   Fin (- (1 / 2) * stator_alpha a b theta + sqrt 3 / 2 * stator_beta a b theta),
   Fin (- (1 / 2) * stator_alpha a b theta - sqrt 3 / 2 * stator_beta a b theta)).
Proof.
  intros Hid Hiq Hth. unfold get_three_phase_currents, stator_alpha, stator_beta.
  rewrite Hid, Hiq, Hth. cbn [fcos fsin fmul fsub fadd fneg fsqrt].
  destruct (Rle_dec 0 3) as [_|H]; [|exfalso; lra].
  cbn [fdiv]. destruct (Req_dec_T 2 0) as [H|_]; [exfalso; lra|].
  cbn [fmul fadd fsub fneg].
  f_equal; [f_equal|]; apply f_equal; lra.
Qed.

(** X4.  The three phase currents of a finite plant state are finite and add
    up to zero; they are what the controller's inverse Park and inverse
    Clarke transforms give for the d-q currents at the rotor angle. *)
Theorem three_phase_currents_balanced (self : t) (a b theta : R) :
  id self = Fin a -> iq self = Fin b -> theta_e self = Fin theta ->
  exists ia ib ic,
    get_three_phase_currents self = (Fin ia, Fin ib, Fin ic) /\
    ia + ib + ic = 0 /\
    (let '(i_alpha, i_beta) :=
       FocControl.FOCController.inverse_park_transform a b theta in
     FocControl.FOCController.inverse_clarke_transform i_alpha i_beta) = (ia, ib, ic).
Proof.
  intros Hid Hiq Hth. rewrite (phase_currents_finite self a b theta Hid Hiq Hth).
  do 3 eexists. split; [reflexivity|]. split; [lra|].
  unfold FocControl.FOCController.inverse_park_transform,
    FocControl.FOCController.inverse_clarke_transform, stator_alpha, stator_beta.
  f_equal; [f_equal|]; lra.
Qed.

(** X5.  The measurement path of the controller recovers the plant's d-q
    currents: Clarke then Park, at the plant's angle, applied to the phase
    currents of a finite state, give back [(id, iq)]. *)
Theorem measured_currents_are_plant_currents (self : t) (a b theta : R) :
  id self = Fin a -> iq self = Fin b -> theta_e self = Fin theta ->
  exists ia ib ic,
    get_three_phase_currents self = (Fin ia, Fin ib, Fin ic) /\
    (let '(i_alpha, i_beta) := FocControl.FOCController.clarke_transform ia ib ic in
     FocControl.FOCController.park_transform i_alpha i_beta theta) = (a, b).
Proof.
  intros Hid Hiq Hth. rewrite (phase_currents_finite self a b theta Hid Hiq Hth).
  do 3 eexists. split; [reflexivity|].
  unfold FocControl.FOCController.clarke_transform,
    FocControl.FOCController.park_transform.
  pose proof sqrt3_pos as H3. pose proof sqrt3_sqr as H33.
  pose proof (sin_cos_sqr theta) as H.
  set (al := stator_alpha a b theta). set (be := stator_beta a b theta).
  assert (E : (al + 2 * (- (1 / 2) * al + sqrt 3 / 2 * be)) / sqrt 3 = be)
    by (field; lra).
  rewrite E. unfold al, be, stator_alpha, stator_beta.
  set (s := sin theta) in *. set (c := cos theta) in *.
  f_equal.
  - replace ((a * c - b * s) * c + (a * s + b * c) * s)
      with (a * (s * s + c * c)) by ring. rewrite H. ring.
  - replace (- (a * c - b * s) * s + (a * s + b * c) * c)
      with (b * (s * s + c * c)) by ring. rewrite H. ring.
Qed.

(** X6.  The DC-bus current estimate of a finite state is a finite non-negative
    number, and it is zero exactly when both d-q currents are zero. *)
Theorem dc_bus_current_nonnegative (self : t) (a b theta : R) :
  id self = Fin a -> iq self = Fin b -> theta_e self = Fin theta ->
  exists i_dc,
    get_dc_bus_current self = Fin i_dc /\ 0 <= i_dc /\
    (i_dc = 0 <-> a = 0 /\ b = 0).
Proof.
  intros Hid Hiq Hth. unfold get_dc_bus_current.
  rewrite (phase_currents_finite self a b theta Hid Hiq Hth).
  cbn [fabs fadd]. eexists. split; [reflexivity|].
  pose proof sqrt3_pos as H3. pose proof (sin_cos_sqr theta) as H.
  set (al := stator_alpha a b theta). set (be := stator_beta a b theta).
  pose proof (Rabs_pos al) as P1.
  pose proof (Rabs_pos (- (1 / 2) * al + sqrt 3 / 2 * be)) as P2.
  pose proof (Rabs_pos (- (1 / 2) * al - sqrt 3 / 2 * be)) as P3.
  split; [lra|]. split.
  - intros Hz.
    assert (Z1 : Rabs al = 0) by lra.
    assert (Z2 : Rabs (- (1 / 2) * al + sqrt 3 / 2 * be) = 0) by lra.
    assert (Eal : al = 0).
    { destruct (Req_dec al 0) as [E|E]; [exact E|].
      apply Rabs_no_R0 in E. contradiction. }
    assert (E2 : - (1 / 2) * al + sqrt 3 / 2 * be = 0).
    { destruct (Req_dec (- (1 / 2) * al + sqrt 3 / 2 * be) 0) as [E|E]; [exact E|].
      apply Rabs_no_R0 in E. contradiction. }
    assert (Ebe : be = 0).
    { assert (E3 : sqrt 3 * be = 0) by lra.
      destruct (Rmult_integral _ _ E3); lra. }
    unfold al, be, stator_alpha, stator_beta in Eal, Ebe.
    set (s := sin theta) in *. set (c := cos theta) in *.
    assert (Ea : a * (s * s + c * c) = 0).
    { replace (a * (s * s + c * c))
        with ((a * c - b * s) * c + (a * s + b * c) * s) by ring.
      rewrite Eal, Ebe. ring. }
    assert (Eb : b * (s * s + c * c) = 0).
    { replace (b * (s * s + c * c))
        with (- (a * c - b * s) * s + (a * s + b * c) * c) by ring.
      rewrite Eal, Ebe. ring. }
    rewrite H in Ea, Eb. lra.
  - intros [-> ->]. unfold al, be, stator_alpha, stator_beta.
    replace (0 * cos theta - 0 * sin theta) with 0 by ring.
    replace (0 * sin theta + 0 * cos theta) with 0 by ring.
    replace (- (1 / 2) * 0 + sqrt 3 / 2 * 0) with 0 by ring.
    replace (- (1 / 2) * 0 - sqrt 3 / 2 * 0) with 0 by ring.
    rewrite Rabs_R0. lra.
Qed.

End PhaseCurrentFacts.

(** The example motor carrying id = 1 A and iq = 2 A at 3 rad/s, angle
    0.5 rad. *)
Definition example_running_motor : PMSMModel.t :=
  PMSMModel.set_state example_motor (Fin 1) (Fin 2) (Fin 3) (Fin 0.5) (Fin 0).

Lemma three_phase_currents_balanced_witness :
  exists ia ib ic,
    PMSMModel.get_three_phase_currents example_running_motor =
      (Fin ia, Fin ib, Fin ic) /\
    ia + ib + ic = 0 /\
    (let '(i_alpha, i_beta) :=
       FocControl.FOCController.inverse_park_transform 1 2 0.5 in
     FocControl.FOCController.inverse_clarke_transform i_alpha i_beta) = (ia, ib, ic).
Proof.
  apply (three_phase_currents_balanced example_running_motor 1 2 0.5); reflexivity.
Defined.

Lemma measured_currents_are_plant_currents_witness :
  exists ia ib ic,
    PMSMModel.get_three_phase_currents example_running_motor =
      (Fin ia, Fin ib, Fin ic) /\
    (let '(i_alpha, i_beta) := FocControl.FOCController.clarke_transform ia ib ic in
     FocControl.FOCController.park_transform i_alpha i_beta 0.5) = (1, 2).
Proof.
  apply (measured_currents_are_plant_currents example_running_motor 1 2 0.5);
    reflexivity.
Defined.

Lemma dc_bus_current_nonnegative_witness :
  exists i_dc,
    PMSMModel.get_dc_bus_current example_running_motor = Fin i_dc /\ 0 <= i_dc /\
    (i_dc = 0 <-> 1 = 0 /\ 2 = 0).
Proof.
  apply (dc_bus_current_nonnegative example_running_motor 1 2 0.5); reflexivity.
Defined.

(** ** The plant: clamps applied twice *)

Section ClampTwiceFacts.
Import PMSMModel.

Lemma circular_clamp_within (limit x y x' y' : R) :
  0 <= limit -> circular_clamp limit x y x' y' ->
  sqrt (x' * x' + y' * y') <= limit.
Proof.
  intros Hl (_ & Hover & Hunder).
  destruct (Rle_dec (sqrt (x * x + y * y)) limit) as [H|H].
  - destruct (Hunder H) as [-> ->]. exact H.
  - rewrite Hover by lra. lra.
Qed.

(** X7.  With a non-negative bus voltage and current limit, the vector either
    clamp returns is never longer than the limit, and clamping it a second
    time changes nothing. *)
Theorem limits_idempotent (self : t) (v_dc i_max x y : R) :
  dc_bus_voltage self = Fin v_dc -> 0 <= v_dc ->
  max_current self = Fin i_max -> 0 <= i_max ->
  (exists x' y',
     apply_voltage_limits self (Fin x) (Fin y) = (Fin x', Fin y') /\
     sqrt (x' * x' + y' * y') <= v_dc / sqrt 3 /\
     apply_voltage_limits self (Fin x') (Fin y') = (Fin x', Fin y')) /\
  (exists x' y',
     apply_current_limits self (Fin x) (Fin y) = (Fin x', Fin y') /\
     sqrt (x' * x' + y' * y') <= i_max /\
     apply_current_limits self (Fin x') (Fin y') = (Fin x', Fin y')).
Proof.
  intros Hv Hv0 Hi Hi0.
  assert (Hvmax : 0 <= v_dc / sqrt 3).
  { apply Rmult_le_pos; [exact Hv0|]. left. apply Rinv_0_lt_compat.
    apply sqrt3_pos. }
  assert (Hagain : forall limit u w, sqrt (u * u + w * w) <= limit ->
            (if fgt (Fin (sqrt (u * u + w * w))) (Fin limit)
             then ((Fin u * (Fin limit / Fin (sqrt (u * u + w * w))))%f64,
                   (Fin w * (Fin limit / Fin (sqrt (u * u + w * w))))%f64)
             else (Fin u, Fin w)) = (Fin u, Fin w)).
  { intros limit u w H. cbn [fgt].
    destruct (Rgt_dec (sqrt (u * u + w * w)) limit); [exfalso; lra|reflexivity]. }
  split.
  - unfold apply_voltage_limits. rewrite Hv, fsqrt_sum_squares, fdiv_sqrt3.
    destruct (clamp_body (v_dc / sqrt 3) x y _ Hvmax eq_refl) as (x' & y' & E & Hc).
    exists x', y'. rewrite E. split; [reflexivity|].
    pose proof (circular_clamp_within _ _ _ _ _ Hvmax Hc) as Hin.
    split; [exact Hin|]. rewrite fsqrt_sum_squares. apply Hagain. exact Hin.
  - unfold apply_current_limits. rewrite Hi, fsqrt_sum_squares.
    destruct (clamp_body i_max x y _ Hi0 eq_refl) as (x' & y' & E & Hc).
    exists x', y'. rewrite E. split; [reflexivity|].
    pose proof (circular_clamp_within _ _ _ _ _ Hi0 Hc) as Hin.
    split; [exact Hin|]. rewrite fsqrt_sum_squares. apply Hagain. exact Hin.
Qed.

Lemma limits_idempotent_witness :
  (exists x' y',
     apply_voltage_limits example_motor (Fin 30) (Fin 40) = (Fin x', Fin y') /\
     sqrt (x' * x' + y' * y') <= 24 / sqrt 3 /\
     apply_voltage_limits example_motor (Fin x') (Fin y') = (Fin x', Fin y')) /\
  (exists x' y',
     apply_current_limits example_motor (Fin 30) (Fin 40) = (Fin x', Fin y') /\
     sqrt (x' * x' + y' * y') <= 10 /\
     apply_current_limits example_motor (Fin x') (Fin y') = (Fin x', Fin y')).
Proof.
  apply (limits_idempotent example_motor 24 10 30 40).
  - reflexivity.
  - lra.
  - reflexivity.
  - lra.
Defined.

End ClampTwiceFacts.

(** ** PI controller: limits and wind-up *)

Section PIControllerMoreFacts.
Import FocControl.PIController.

Lemma np_clip_bounds (x lo hi : R) : lo <= hi -> lo <= np_clip x lo hi <= hi.
Proof.
  intros H. unfold np_clip, Rmin, Rmax.
  destruct (Rle_dec x lo); destruct (Rle_dec _ hi); lra.
Qed.

Lemma np_clip_inside (x lo hi : R) : lo <= x <= hi -> np_clip x lo hi = x.
Proof.
  intros H. unfold np_clip, Rmin, Rmax.
  destruct (Rle_dec x lo); destruct (Rle_dec _ hi); lra.
Qed.

Lemma update_keeps_configuration (self : t) (error dt : R) :
  kp (fst (update self error dt)) = kp self /\
  ki (fst (update self error dt)) = ki self /\
  output_limit (fst (update self error dt)) = output_limit self.
Proof.
  unfold update. cbn. destruct (output_limit self) as [[low high]|] eqn:E; cbn.
  - destruct (Rgt_dec _ high); [destruct (Rgt_dec error 0)|
      destruct (Rlt_dec _ low); [destruct (Rlt_dec error 0)|]]; cbn;
      repeat split; try reflexivity; exact E.
  - repeat split; try reflexivity; exact E.
Qed.

Lemma update_within (self : t) (error dt low high : R) :
  output_limit self = Some (low, high) -> low <= high ->
  low <= snd (update self error dt) <= high.
Proof.
  intros Hlim Hle. rewrite (update_output self error dt low high Hlim Hle).
  apply np_clip_bounds. exact Hle.
Qed.

(** X8.  With limits [low <= high] set, every output lies in [[low, high]], and
    [update] never changes the gains or the limits. *)
Theorem pi_output_within_limits (self : t) (error dt low high : R) :
  output_limit self = Some (low, high) -> low <= high ->
  low <= snd (update self error dt) <= high /\
  kp (fst (update self error dt)) = kp self /\
  ki (fst (update self error dt)) = ki self /\
  output_limit (fst (update self error dt)) = Some (low, high).
Proof.
  intros Hlim Hle. split; [apply update_within; assumption|].
  destruct (update_keeps_configuration self error dt) as (H1 & H2 & H3).
  rewrite H3. auto.
Qed.

Lemma pi_output_within_limits_witness :
  -1 <= snd (update scenario_pi 10 (1/10)) <= 1 /\
  kp (fst (update scenario_pi 10 (1/10))) = kp scenario_pi /\
  ki (fst (update scenario_pi 10 (1/10))) = ki scenario_pi /\
  output_limit (fst (update scenario_pi 10 (1/10))) = Some (-1, 1).
Proof.
  apply (pi_output_within_limits scenario_pi 10 (1/10) (-1) 1).
  - reflexivity.
  - lra.
Defined.

Lemma update_unlimited (self : t) (error dt : R) :
  output_limit self = None ->
  output_limit (fst (update self error dt)) = None /\
  integral (fst (update self error dt)) = integral self + error * dt /\
  snd (update self error dt) = kp self * error + ki self * (integral self + error * dt).
Proof.
  intros H. unfold update. cbn. rewrite H. cbn. rewrite H. auto.
Qed.

(** X9.  Without limits nothing stops the integral: after [n] calls with the
    same error it has grown by [n * error * dt], and each output is the
    unclamped [Kp*error + Ki*integral]. *)
Theorem pi_winds_up_without_limits (self : t) (error dt : R) (n : nat) :
  output_limit self = None ->
  integral (repeat_update n self error dt) = integral self + INR n * (error * dt) /\
  snd (update (repeat_update n self error dt) error dt) =
    kp self * error + ki self * (integral self + INR (S n) * (error * dt)).
Proof.
  intros Hnone.
  assert (Hinv : forall m c, output_limit c = None ->
            output_limit (repeat_update m c error dt) = None /\
            kp (repeat_update m c error dt) = kp c /\
            ki (repeat_update m c error dt) = ki c /\
            integral (repeat_update m c error dt) = integral c + INR m * (error * dt)).
  { induction m as [|m IH]; intros c Hc.
    - cbn. repeat split; try assumption. ring.
    - cbn [repeat_update].
      destruct (update_unlimited c error dt Hc) as (H1 & H2 & _).
      destruct (update_keeps_configuration c error dt) as (Hk & Hi & _).
      destruct (IH _ H1) as (I1 & I2 & I3 & I4).
      rewrite I2, I3, I4, Hk, Hi, H2, S_INR. repeat split; try assumption. ring. }
  destruct (Hinv n self Hnone) as (H1 & H2 & H3 & H4).
  split; [exact H4|].
  destruct (update_unlimited _ error dt H1) as (_ & _ & Hout).
  rewrite Hout, H2, H3, H4, S_INR. ring.
Qed.

Lemma pi_winds_up_without_limits_witness :
  integral (repeat_update 3 (init 1 1 None) 10 (1/10)) =
    integral (init 1 1 None) + INR 3 * (10 * (1/10)) /\
  snd (update (repeat_update 3 (init 1 1 None) 10 (1/10)) 10 (1/10)) =
    kp (init 1 1 None) * 10 +
    ki (init 1 1 None) * (integral (init 1 1 None) + INR 4 * (10 * (1/10))).
Proof. apply (pi_winds_up_without_limits (init 1 1 None) 10 (1/10) 3). reflexivity. Defined.

(** X10.  A zero error never moves the integral, whatever the limits; and a
    reset controller whose limits (if any) contain zero answers a zero
    error with a zero output. *)
Theorem pi_zero_error (self : t) (dt : R) :
  integral (fst (update self 0 dt)) = integral self /\
  (match output_limit self with
   | Some (low, high) => low <= 0 <= high
   | None => True
   end ->
   snd (update (reset self) 0 dt) = 0).
Proof.
  split.
  - unfold update. cbn. destruct (output_limit self) as [[low high]|]; cbn.
    + destruct (Rgt_dec _ high); [destruct (Rgt_dec 0 0); [exfalso; lra|]|
        destruct (Rlt_dec _ low); [destruct (Rlt_dec 0 0); [exfalso; lra|]|]];
        cbn; ring.
    + ring.
  - intros H. unfold update, reset. cbn.
    destruct (output_limit self) as [[low high]|]; cbn.
    + destruct (Rgt_dec _ high) as [H1|H1]; [exfalso; lra|].
      destruct (Rlt_dec _ low) as [H2|H2]; [exfalso; lra|]. cbn. ring.
    + ring.
Qed.

End PIControllerMoreFacts.

(** ** FOC controller: bounded references and voltages *)

Section FOCControllerFacts.
Import FocControl.FOCController.
Let PIupdate := FocControl.PIController.update.
Let PIlimit := FocControl.PIController.output_limit.

(** The limits [initialize_controllers] gives the three PI loops. *)
Definition loop_limits_set (self : t) : Prop :=
  PIlimit (id_controller self) = Some (- max_voltage self, max_voltage self) /\
  PIlimit (iq_controller self) = Some (- max_voltage self, max_voltage self) /\
  PIlimit (speed_controller self) = Some (- max_current self, max_current self).

(** The configuration attributes two controller objects share. *)
Definition same_configuration (self self' : t) : Prop :=
  max_current self' = max_current self /\ max_voltage self' = max_voltage self /\
  dc_bus_voltage self' = dc_bus_voltage self /\ sample_time self' = sample_time self.

Lemma init_loop_limits (params : MotorParameters) : loop_limits_set (init params).
Proof. repeat split. Qed.

Lemma speed_control_spec (self : t) (r a : R) :
  speed_control self r a =
  (set_state self (id_controller self) (iq_controller self)
     (fst (PIupdate (speed_controller self) (r - a) (sample_time self)))
     (id_ref self) (iq_ref self) (speed_ref self) (vd self) (vq self),
   snd (PIupdate (speed_controller self) (r - a) (sample_time self))).
Proof.
  unfold speed_control, PIupdate.
  destruct (FocControl.PIController.update _ _ _) as [c out]. reflexivity.
Qed.

(** The scale the voltage clamp applies to a vector. *)
Definition clamp_scale (v_max x y : R) : R :=
  if Rgt_dec (sqrt (x * x + y * y)) v_max then v_max / sqrt (x * x + y * y) else 1.

Lemma clamp_scale_bounds (v_max x y : R) :
  0 <= v_max ->
  0 <= clamp_scale v_max x y <= 1 /\
  sqrt (x * clamp_scale v_max x y * (x * clamp_scale v_max x y) +
        y * clamp_scale v_max x y * (y * clamp_scale v_max x y)) <= v_max.
Proof.
  intros Hv. unfold clamp_scale.
  destruct (Rgt_dec (sqrt (x * x + y * y)) v_max) as [H|H].
  - destruct (scaled_magnitude x y v_max Hv H) as [Hk Hm].
    rewrite Hm. split; [|lra]. split; [exact Hk|].
    set (m := sqrt (x * x + y * y)) in *.
    assert (Hm0 : 0 < m) by lra.
    apply (Rmult_le_reg_r m); [exact Hm0|].
    unfold Rdiv. rewrite Rmult_assoc, Rinv_l by lra. lra.
  - split; [lra|]. rewrite !Rmult_1_r. lra.
Qed.

Lemma current_control_spec (self : t) (idr iqr ida iqa theta_e : R) :
  let u := snd (PIupdate (id_controller self) (idr - ida) (sample_time self)) in
  let w := snd (PIupdate (iq_controller self) (iqr - iqa) (sample_time self)) in
  let k := clamp_scale (dc_bus_voltage self / sqrt 3) u w in
  current_control self idr iqr ida iqa theta_e =
  (set_state self
     (fst (PIupdate (id_controller self) (idr - ida) (sample_time self)))
     (fst (PIupdate (iq_controller self) (iqr - iqa) (sample_time self)))
     (speed_controller self) (id_ref self) (iq_ref self) (speed_ref self)
     (u * k) (w * k),
   (u * k, w * k)).
Proof.
  unfold current_control, PIupdate, clamp_scale.
  destruct (FocControl.PIController.update (id_controller self) _ _) as [c1 u].
  destruct (FocControl.PIController.update (iq_controller self) _ _) as [c2 w].
  cbn [fst snd].
  destruct (Rgt_dec (sqrt (u * u + w * w)) (dc_bus_voltage self / sqrt 3)).
  - reflexivity.
  - rewrite !Rmult_1_r. reflexivity.
Qed.

(** With non-negative limits, the voltage pair [current_control] returns
    and stores is never longer than [dc_bus_voltage / sqrt 3], and each
    component stays within [max_voltage]. *)
Lemma current_control_bounded (self : t) (idr iqr ida iqa theta_e : R) :
  loop_limits_set self -> 0 <= max_voltage self -> 0 <= dc_bus_voltage self ->
  let '(self', (vd', vq')) := current_control self idr iqr ida iqa theta_e in
  sqrt (vd' * vd' + vq' * vq') <= dc_bus_voltage self / sqrt 3 /\
  Rabs vd' <= max_voltage self /\ Rabs vq' <= max_voltage self /\
  vd self' = vd' /\ vq self' = vq' /\
  loop_limits_set self' /\ same_configuration self self'.
Proof.
  intros (L1 & L2 & L3) Hv Hdc. rewrite current_control_spec. cbv zeta.
  set (u := snd (PIupdate (id_controller self) (idr - ida) (sample_time self))).
  set (w := snd (PIupdate (iq_controller self) (iqr - iqa) (sample_time self))).
  assert (Hvmax : 0 <= dc_bus_voltage self / sqrt 3).
  { apply Rmult_le_pos; [exact Hdc|]. left. apply Rinv_0_lt_compat. apply sqrt3_pos. }
  destruct (clamp_scale_bounds (dc_bus_voltage self / sqrt 3) u w Hvmax) as [[K0 K1] Hm].
  set (k := clamp_scale (dc_bus_voltage self / sqrt 3) u w) in *.
  assert (Hu : - max_voltage self <= u <= max_voltage self)
    by (apply update_within; [exact L1|lra]).
  assert (Hw : - max_voltage self <= w <= max_voltage self)
    by (apply update_within; [exact L2|lra]).
  split; [exact Hm|].
  split; [apply Rabs_le; split; nra|].
  split; [apply Rabs_le; split; nra|].
  split; [reflexivity|]. split; [reflexivity|].
  split; [|repeat split].
  unfold loop_limits_set. cbn. unfold PIlimit, PIupdate.
  destruct (update_keeps_configuration (id_controller self) (idr - ida)
              (sample_time self)) as (_ & _ & ->).
  destruct (update_keeps_configuration (iq_controller self) (iqr - iqa)
              (sample_time self)) as (_ & _ & ->).
  auto.
Qed.

(** X11.  One FOC step on a controller whose loops carry their configured
    limits, with non-negative limits: the q-axis reference it produces is
    within the current limit, the commanded voltage vector is within
    [dc_bus_voltage / sqrt 3] and each component within [max_voltage], the
    d-axis reference is passed through untouched, the returned telemetry
    is the stored state, and the loops keep their limits. *)
Theorem foc_update_bounded (self : t) (ia ib ic r a theta_e : R) :
  loop_limits_set self ->
  0 <= max_current self -> 0 <= max_voltage self -> 0 <= dc_bus_voltage self ->
  let '(self', tel) := update self ia ib ic r a theta_e in
  - max_current self <= out_iq_ref tel <= max_current self /\
  sqrt (out_vd tel * out_vd tel + out_vq tel * out_vq tel)
    <= dc_bus_voltage self / sqrt 3 /\
  Rabs (out_vd tel) <= max_voltage self /\ Rabs (out_vq tel) <= max_voltage self /\
  out_id_ref tel = id_ref self /\
  (id_ref self', iq_ref self', vd self', vq self') =
    (out_id_ref tel, out_iq_ref tel, out_vd tel, out_vq tel) /\
  loop_limits_set self' /\ same_configuration self self'.
Proof.
  intros HL Hi Hv Hdc. unfold update.
  destruct (clarke_transform ia ib ic) as [i_alpha i_beta].
  destruct (park_transform i_alpha i_beta theta_e) as [ida iqa].
  rewrite speed_control_spec.
  set (q := snd (PIupdate (speed_controller self) (r - a) (sample_time self))).
  set (sc := fst (PIupdate (speed_controller self) (r - a) (sample_time self))).
  set (self1 := set_state _ _ _ _ _ q _ _ _).
  assert (HL1 : loop_limits_set self1).
  { destruct HL as (L1 & L2 & L3). unfold loop_limits_set, self1, sc. cbn.
    unfold PIlimit, PIupdate in *.
    destruct (update_keeps_configuration (speed_controller self) (r - a)
                (sample_time self)) as (_ & _ & ->). auto. }
  assert (Hq : - max_current self <= q <= max_current self).
  { destruct HL as (_ & _ & L3). apply update_within; [exact L3|lra]. }
  pose proof (current_control_bounded self1 (id_ref self1) (iq_ref self1)
                ida iqa theta_e HL1 Hv Hdc) as Hcc.
  destruct (current_control self1 (id_ref self1) (iq_ref self1) ida iqa theta_e)
    as [self2 [vd' vq']] eqn:Ecc.
  destruct Hcc as (Hm & Hvd & Hvq & Evd & Evq & HL2 & Hsame).
  assert (Erefs : id_ref self2 = id_ref self /\ iq_ref self2 = q).
  { rewrite current_control_spec in Ecc. cbv zeta in Ecc.
    injection Ecc as <- _ _. split; reflexivity. }
  destruct Erefs as [Eid Eiq].
  destruct (inverse_park_transform (vd self2) (vq self2) theta_e) as [v_alpha v_beta].
  destruct (space_vector_modulation self2 v_alpha v_beta) as [[da db] dc].
  cbn [out_iq_ref out_vd out_vq out_id_ref].
  rewrite Evd, Evq, Eid, Eiq.
  change (max_voltage self1) with (max_voltage self) in *.
  change (dc_bus_voltage self1) with (dc_bus_voltage self) in *.
  split; [exact Hq|]. split; [exact Hm|]. split; [exact Hvd|].
  split; [exact Hvq|]. split; [reflexivity|]. split; [reflexivity|].
  split; [exact HL2|exact Hsame].
Qed.

End FOCControllerFacts.

(** The controller built from the example configuration. *)
Definition example_foc : FocControl.FOCController.t :=
  FocControl.FOCController.init example_parameters.

Lemma foc_update_bounded_witness :
  let '(self', tel) :=
    FocControl.FOCController.update example_foc 0 0 0 100 0 0 in
  - FocControl.FOCController.max_current example_foc
    <= FocControl.FOCController.out_iq_ref tel
    <= FocControl.FOCController.max_current example_foc /\
  sqrt (FocControl.FOCController.out_vd tel * FocControl.FOCController.out_vd tel +
        FocControl.FOCController.out_vq tel * FocControl.FOCController.out_vq tel)
    <= FocControl.FOCController.dc_bus_voltage example_foc / sqrt 3 /\
  Rabs (FocControl.FOCController.out_vd tel)
    <= FocControl.FOCController.max_voltage example_foc /\
  Rabs (FocControl.FOCController.out_vq tel)
    <= FocControl.FOCController.max_voltage example_foc /\
  FocControl.FOCController.out_id_ref tel =
    FocControl.FOCController.id_ref example_foc /\
  (FocControl.FOCController.id_ref self', FocControl.FOCController.iq_ref self',
   FocControl.FOCController.vd self', FocControl.FOCController.vq self') =
  (FocControl.FOCController.out_id_ref tel, FocControl.FOCController.out_iq_ref tel,
   FocControl.FOCController.out_vd tel, FocControl.FOCController.out_vq tel) /\
  loop_limits_set self' /\ same_configuration example_foc self'.
Proof.
  apply (foc_update_bounded example_foc 0 0 0 100 0 0).
  - apply init_loop_limits.
  - cbn. lra.
  - cbn. lra.
  - cbn. lra.
Defined.

Section ModulationFacts.
Import FocControl.FOCController.

Lemma get_sector_origin : get_sector 0 0 = 1%Z.
Proof.
  apply (get_sector_interval 0 0 0); [lia|].
  assert (E : normalized_angle 0 0 = 0).
  { unfold normalized_angle, np_arctan2.
    destruct (Rlt_dec 0 0) as [H|_]; [exfalso; lra|].
    destruct (Rlt_dec 0 0) as [H|_]; [exfalso; lra|]. reflexivity. }
  rewrite E. pose proof PI_RGT_0. lra.
Qed.

(** X12.  For a non-zero bus voltage, in every sector the duty of the phase that
    carries both active times and the duty of the phase that carries
    none add up to one: phases a and c in sectors 1 and 4, b and c in
    sectors 2 and 5, a and b in sectors 3 and 6. *)
Theorem modulation_complementary_duties (self : t) (v_alpha v_beta : R) :
  dc_bus_voltage self <> 0 ->
  let '(da, db, dc) := space_vector_modulation self v_alpha v_beta in
  let sector := get_sector v_alpha v_beta in
  (sector = 1%Z \/ sector = 4%Z -> da + dc = 1) /\
  (sector = 2%Z \/ sector = 5%Z -> db + dc = 1) /\
  (sector = 3%Z \/ sector = 6%Z -> da + db = 1).
Proof.
  intros Hdc. unfold space_vector_modulation.
  pose proof (get_sector_range v_alpha v_beta) as Hr.
  set (sector := get_sector v_alpha v_beta) in *.
  destruct (Z.eqb_spec sector 1) as [E1|N1];
    [|destruct (Z.eqb_spec sector 2) as [E2|N2];
      [|destruct (Z.eqb_spec sector 3) as [E3|N3];
        [|destruct (Z.eqb_spec sector 4) as [E4|N4];
          [|destruct (Z.eqb_spec sector 5) as [E5|N5]]]]];
    cbv zeta; repeat split; intros [H|H]; try lia; field; exact Hdc.
Qed.

Lemma modulation_complementary_duties_witness :
  let '(da, db, dc) := space_vector_modulation example_foc 0 0 in
  let sector := get_sector 0 0 in
  (sector = 1%Z \/ sector = 4%Z -> da + dc = 1) /\
  (sector = 2%Z \/ sector = 5%Z -> db + dc = 1) /\
  (sector = 3%Z \/ sector = 6%Z -> da + db = 1).
Proof.
  apply (modulation_complementary_duties example_foc 0 0). cbn. lra.
Defined.

Lemma pi_update_at_rest (c : FocControl.PIController.t) (error dt low high : R) :
  FocControl.PIController.output_limit c = Some (low, high) -> low <= 0 <= high ->
  FocControl.PIController.integral c = 0 -> error = 0 ->
  snd (FocControl.PIController.update c error dt) = 0.
Proof.
  intros Hlim Hz Hint ->.
  rewrite (update_output c 0 dt low high Hlim) by lra.
  unfold raw_output. rewrite Hint.
  replace (FocControl.PIController.kp c * 0 +
           FocControl.PIController.ki c * (0 + 0 * dt)) with 0 by ring.
  apply np_clip_inside. exact Hz.
Qed.

(** X13.  A freshly reset controller that measures zero phase currents and no
    speed error commands nothing: the q-axis reference and both voltages
    are zero and all three phases get 50 % duty (limits non-negative, bus
    voltage positive). *)
Theorem foc_reset_commands_zero (self : t) (w theta_e : R) :
  loop_limits_set self ->
  0 <= max_current self -> 0 <= max_voltage self -> 0 < dc_bus_voltage self ->
  snd (update (reset self) 0 0 0 w w theta_e) =
  mk_telemetry (1 / 2) (1 / 2) (1 / 2) 0 0 0 0 0 0.
Proof.
  intros (L1 & L2 & L3) Hi Hv Hdc. unfold update, clarke_transform, park_transform.
  assert (H3 : 0 < sqrt 3) by apply sqrt3_pos.
  replace ((0 + 2 * 0) / sqrt 3) with 0 by (field; lra).
  replace (0 * cos theta_e + 0 * sin theta_e) with 0 by ring.
  replace (- 0 * sin theta_e + 0 * cos theta_e) with 0 by ring.
  rewrite speed_control_spec.
  assert (Eq : snd (FocControl.PIController.update (speed_controller (reset self))
                      (w - w) (sample_time (reset self))) = 0).
  { apply (pi_update_at_rest _ _ _ (- max_current self) (max_current self));
      [exact L3|lra|reflexivity|ring]. }
  rewrite Eq. rewrite current_control_spec. cbv zeta. cbn [fst snd].
  cbn [id_controller iq_controller id_ref iq_ref sample_time dc_bus_voltage
       set_state reset vd vq].
  assert (Eu : snd (FocControl.PIController.update
                      (FocControl.PIController.reset (id_controller self))
                      (0 - 0) (sample_time self)) = 0).
  { apply (pi_update_at_rest _ _ _ (- max_voltage self) (max_voltage self));
      [exact L1|lra|reflexivity|ring]. }
  assert (Ew : snd (FocControl.PIController.update
                      (FocControl.PIController.reset (iq_controller self))
                      (0 - 0) (sample_time self)) = 0).
  { apply (pi_update_at_rest _ _ _ (- max_voltage self) (max_voltage self));
      [exact L2|lra|reflexivity|ring]. }
  rewrite Eu, Ew. unfold inverse_park_transform.
  replace (0 * clamp_scale (dc_bus_voltage self / sqrt 3) 0 0) with 0 by ring.
  replace (0 * cos theta_e - 0 * sin theta_e) with 0 by ring.
  replace (0 * sin theta_e + 0 * cos theta_e) with 0 by ring.
  unfold space_vector_modulation. rewrite get_sector_origin.
  cbn [Z.eqb Pos.eqb dc_bus_voltage set_state]. cbv zeta.
  cbn [snd id_ref iq_ref vd vq set_state reset].
  change (dc_bus_voltage (reset self)) with (dc_bus_voltage self).
  f_equal; try reflexivity; field; lra.
Qed.

Lemma foc_reset_commands_zero_witness :
  snd (update (reset example_foc) 0 0 0 100 100 0.5) =
  mk_telemetry (1 / 2) (1 / 2) (1 / 2) 0 0 0 0 0 0.
Proof.
  apply (foc_reset_commands_zero example_foc 100 0.5).
  - apply init_loop_limits.
  - cbn. lra.
  - cbn. lra.
  - cbn. lra.
Defined.

End ModulationFacts.

(** ** Flux weakening: ranges of the three policies *)

Section FluxWeakeningMoreFacts.
Import FluxWeakening.FluxWeakeningController.

(** The state in which the voltage-feedback policy starts: no injected
    current, an empty integrator, a positive proportional gain, an upper
    output limit of zero and a non-negative sample time. *)
Definition voltage_policy_idle (c : t) : Prop :=
  id_fw c = 0 /\ PI.integral (fw_controller c) = 0 /\
  0 < PI.kp (fw_controller c) /\ 0 <= PI.ki (fw_controller c) /\
  (exists low, PI.output_limit (fw_controller c) = Some (low, 0)) /\
  0 <= sample_time c.

Lemma init_voltage_policy_idle (params : MotorParameters) :
  0 <= p_sample_time params -> voltage_policy_idle (init params).
Proof.
  intros H. unfold voltage_policy_idle, init. cbn.
  repeat split; try lra; try exact H. eexists. reflexivity.
Qed.

Lemma voltage_step_idle (c : t) (wr vd vq : R) :
  voltage_policy_idle c ->
  voltage_policy_idle (fst (voltage_based_flux_weakening c wr vd vq)) /\
  snd (voltage_based_flux_weakening c wr vd vq) = 0.
Proof.
  intros (Hid & Hint & Hkp & Hki & (low & Hlim) & Hdt).
  unfold voltage_based_flux_weakening.
  set (e := sqrt (vd * vd + vq * vq) - dc_bus_voltage c / sqrt 3 * voltage_margin c).
  destruct (Rgt_dec e 0) as [He|He].
  - unfold PI.update. cbn [PI.set_integral PI.kp PI.ki PI.integral PI.output_limit
                            PI.prev_error].
    rewrite Hlim, Hint.
    assert (Hraw : PI.kp (fw_controller c) * e +
                   PI.ki (fw_controller c) * (0 + e * sample_time c) > 0).
    { assert (Hed : 0 <= e * sample_time c) by (apply Rmult_le_pos; lra).
      assert (0 <= PI.ki (fw_controller c) * (0 + e * sample_time c))
        by (apply Rmult_le_pos; lra).
      assert (0 < PI.kp (fw_controller c) * e) by (apply Rmult_lt_0_compat; lra).
      lra. }
    destruct (Rgt_dec _ 0) as [_|H]; [|contradiction].
    destruct (Rgt_dec e 0) as [_|H]; [|contradiction].
    cbn. unfold voltage_policy_idle. cbn.
    repeat split; try assumption; try ring. exists low. exact Hlim.
  - cbn [set_fw id_fw fw_controller]. rewrite Hid.
    destruct (Rlt_dec (Rabs (0 * 0.95)) 0.01) as [_|H].
    + cbn. unfold voltage_policy_idle. cbn.
      repeat split; try assumption. exists low. exact Hlim.
    + exfalso. apply H. rewrite Rmult_0_l, Rabs_R0. lra.
Qed.

(** The d-axis currents a sequence of voltage-feedback calls returns. *)
Fixpoint voltage_feedback_outputs (c : t) (calls : list (R * R * R)) : list R :=
  match calls with
  | [] => []
  | (wr, vd, vq) :: rest =>
      snd (voltage_based_flux_weakening c wr vd vq) ::
      voltage_feedback_outputs (fst (voltage_based_flux_weakening c wr vd vq)) rest
  end.

(** X14.  The voltage-feedback policy never weakens the flux: on a controller
    built from a configuration with a non-negative sample time, every
    call of any sequence returns a d-axis current of exactly zero (the
    voltage error is positive, the PI output is clamped at its upper limit
    0, and the anti-windup rolls the integral back every time). *)
Theorem voltage_feedback_never_injects (params : MotorParameters)
    (calls : list (R * R * R)) :
  0 <= p_sample_time params ->
  Forall (fun id_fw => id_fw = 0) (voltage_feedback_outputs (init params) calls).
Proof.
  intros H. pose proof (init_voltage_policy_idle params H) as Hidle.
  revert Hidle. generalize (init params) as c.
  induction calls as [|[[wr vd] vq] rest IH]; intros c Hidle; cbn.
  - constructor.
  - destruct (voltage_step_idle c wr vd vq Hidle) as [Hnext Hout].
    constructor; [exact Hout|]. apply IH. exact Hnext.
Qed.

Lemma voltage_feedback_never_injects_witness :
  Forall (fun id_fw => id_fw = 0)
    (voltage_feedback_outputs (init example_parameters)
       [(300, 20, 20); (300, 1, 1); (300, 30, 0)]).
Proof.
  apply (voltage_feedback_never_injects example_parameters). cbn. lra.
Defined.

(** The flux-weakening controller as [__init__] leaves it and every
    policy keeps it: PI limits [[-max_current, 0]], a stored current in
    that range, a non-negative current limit. *)
Definition weakening_in_range (c : t) : Prop :=
  PI.output_limit (fw_controller c) = Some (- max_current c, 0) /\
  - max_current c <= id_fw c <= 0 /\ 0 <= max_current c.

Lemma init_weakening_in_range (params : MotorParameters) :
  0 <= p_max_current params -> weakening_in_range (init params).
Proof. intros H. unfold weakening_in_range, init. cbn. repeat split; lra. Qed.

Lemma voltage_step_in_range (c : t) (wr vd vq : R) :
  weakening_in_range c ->
  weakening_in_range (fst (voltage_based_flux_weakening c wr vd vq)) /\
  - max_current c <= snd (voltage_based_flux_weakening c wr vd vq) <= 0.
Proof.
  intros (Hlim & Hid & Hmax). unfold voltage_based_flux_weakening.
  set (e := sqrt (vd * vd + vq * vq) - dc_bus_voltage c / sqrt 3 * voltage_margin c).
  destruct (Rgt_dec e 0) as [He|He].
  - pose proof (update_within (fw_controller c) e (sample_time c) _ _ Hlim) as Hw.
    destruct (update_keeps_configuration (fw_controller c) e (sample_time c))
      as (_ & _ & Hk).
    change FocControl.PIController.update with PI.update in *.
    destruct (PI.update (fw_controller c) e (sample_time c)) as [pi out].
    cbn [fst snd] in *. unfold weakening_in_range. cbn.
    rewrite Hk. split; [|apply Hw; lra].
    split; [exact Hlim|]. split; [apply Hw; lra|exact Hmax].
  - cbn [set_fw id_fw fw_controller].
    destruct (Rlt_dec (Rabs (id_fw c * 0.95)) 0.01) as [H|H];
      cbn; unfold weakening_in_range; cbn; repeat split;
      try assumption; lra.
Qed.

(** X15.  Starting from a controller in range, with non-zero [Ld] and base
    speed, every call of [update], whatever the method string, returns a
    d-axis current in [[-max_current, 0]] and leaves the controller in
    range; a controller built from a configuration with a non-negative
    current limit starts in range. *)
Theorem flux_weakening_current_in_range (c : t) (wr vd vq iq_ref : R)
    (method : string) :
  weakening_in_range c -> Ld c <> 0 -> base_speed c <> 0 ->
  exists c' id_fw',
    update c wr vd vq iq_ref method = Returned (c', id_fw') /\
    - max_current c <= id_fw' <= 0 /\
    weakening_in_range c' /\ max_current c' = max_current c /\
    Ld c' = Ld c /\ base_speed c' = base_speed c.
Proof.
  intros Hin HLd Hbase. pose proof Hin as (Hlim & Hid & Hmax).
  assert (Hclip : forall x, - max_current c <= np_clip x (- max_current c) 0 <= 0)
    by (intros x; apply np_clip_bounds; lra).
  unfold update.
  destruct (method =? "voltage")%string.
  { destruct (voltage_step_in_range c wr vd vq Hin) as [Hnext Hout].
    do 2 eexists. split; [apply f_equal; apply surjective_pairing|].
    split; [exact Hout|]. split; [exact Hnext|].
    unfold voltage_based_flux_weakening.
    destruct (Rgt_dec _ 0);
      [destruct (PI.update _ _ _)|destruct (Rlt_dec _ 0.01)]; repeat split. }
  destruct (method =? "speed")%string.
  { unfold speed_based_flux_weakening.
    destruct (Rgt_dec wr (base_speed c)); cbn; do 2 eexists;
      (split; [reflexivity|]); unfold weakening_in_range; cbn;
      repeat split; try assumption; try apply Hclip; lra. }
  destruct (method =? "lookup")%string.
  { unfold lookup_table_flux_weakening.
    destruct (Rle_dec (wr / base_speed c) 1); do 2 eexists;
      (split; [reflexivity|]); repeat split; try assumption;
      try apply Hclip; lra. }
  do 2 eexists. split; [reflexivity|]. repeat split; try assumption; lra.
Qed.

Lemma flux_weakening_current_in_range_witness :
  exists c' id_fw',
    update example_flux_weakening 150 20 20 5 "lookup" = Returned (c', id_fw') /\
    - max_current example_flux_weakening <= id_fw' <= 0 /\
    weakening_in_range c' /\
    max_current c' = max_current example_flux_weakening /\
    Ld c' = Ld example_flux_weakening /\
    base_speed c' = base_speed example_flux_weakening.
Proof.
  apply (flux_weakening_current_in_range example_flux_weakening 150 20 20 5 "lookup").
  - unfold weakening_in_range. cbn. repeat split; lra.
  - cbn. lra.
  - cbn. lra.
Defined.

Lemma np_clip_monotone (x y lo hi : R) :
  x <= y -> np_clip x lo hi <= np_clip y lo hi.
Proof.
  intros H. unfold np_clip, Rmin, Rmax.
  destruct (Rle_dec x lo); destruct (Rle_dec y lo);
    repeat match goal with |- context [Rle_dec ?a ?b] => destruct (Rle_dec a b) end;
    lra.
Qed.

(** X16.  Between base speed and twice base speed the lookup policy asks for no
    more weakening than the speed-threshold policy (for positive [Ld] and
    base speed and a non-negative flux linkage), and at exactly twice base
    speed the two policies return the same current. *)
Theorem lookup_policy_is_milder (c : t) (wr iq_ref : R) :
  0 < base_speed c -> 0 < Ld c -> 0 <= flux_linkage c ->
  base_speed c < wr <= 2 * base_speed c ->
  snd (speed_based_flux_weakening c wr iq_ref) <=
    snd (lookup_table_flux_weakening c wr iq_ref) /\
  (wr = 2 * base_speed c ->
   snd (speed_based_flux_weakening c wr iq_ref) =
   snd (lookup_table_flux_weakening c wr iq_ref)).
Proof.
  intros Hb HLd Hf [Hlo Hhi].
  assert (Hib : 0 < / base_speed c) by (apply Rinv_0_lt_compat; exact Hb).
  assert (Hil : 0 < / Ld c) by (apply Rinv_0_lt_compat; exact HLd).
  assert (Hr : 1 < wr / base_speed c <= 2).
  { assert (E : base_speed c * / base_speed c = 1) by (field; lra).
    unfold Rdiv. split; nra. }
  unfold speed_based_flux_weakening, lookup_table_flux_weakening.
  destruct (Rgt_dec wr (base_speed c)) as [_|H]; [|exfalso; lra].
  destruct (Rle_dec (wr / base_speed c) 1) as [H|_]; [exfalso; lra|].
  cbn [snd id_fw set_fw].
  set (r := wr / base_speed c) in *.
  assert (Hfl : 0 <= flux_linkage c * / Ld c) by (apply Rmult_le_pos; lra).
  split.
  - apply np_clip_monotone. unfold Rdiv. nra.
  - intros E. f_equal.
    assert (Er : r = 2).
    { unfold r. rewrite E. field. lra. }
    rewrite Er. field. lra.
Qed.

Lemma lookup_policy_is_milder_witness :
  snd (speed_based_flux_weakening example_flux_weakening 150 5) <=
    snd (lookup_table_flux_weakening example_flux_weakening 150 5) /\
  (150 = 2 * base_speed example_flux_weakening ->
   snd (speed_based_flux_weakening example_flux_weakening 150 5) =
   snd (lookup_table_flux_weakening example_flux_weakening 150 5)).
Proof.
  apply (lookup_policy_is_milder example_flux_weakening 150 5); cbn; lra.
Defined.

(** X17.  A surface-mounted machine ([|Ld - Lq| < 1e-6]) at or below base speed,
    with non-zero pole count and flux linkage and a non-negative current
    limit: the optimal references keep the d-axis current at zero and
    leave the controller untouched; the q-axis current is within the
    current limit, delivers exactly the requested torque when that needs
    no more than the limit, and otherwise sits on the limit with the sign
    of the request. *)
Theorem optimal_references_surface_mounted (c : t) (wr torque_ref : R) :
  Rabs (Ld c - Lq c) < 1e-6 -> wr <= base_speed c ->
  poles c <> 0 -> flux_linkage c <> 0 -> 0 <= max_current c ->
  exists id_ref iq_ref,
    get_optimal_current_references c wr torque_ref = (c, (id_ref, iq_ref)) /\
    id_ref = 0 /\ Rabs iq_ref <= max_current c /\
    (Rabs (torque_ref / (1.5 * poles c * flux_linkage c)) <= max_current c ->
     1.5 * poles c * flux_linkage c * iq_ref = torque_ref) /\
    (Rabs (torque_ref / (1.5 * poles c * flux_linkage c)) > max_current c ->
     Rabs iq_ref = max_current c /\
     0 <= iq_ref * (torque_ref / (1.5 * poles c * flux_linkage c))).
Proof.
  intros Hs Hw Hp Hf Hmax. unfold get_optimal_current_references.
  destruct (Rlt_dec (Rabs (Ld c - Lq c)) 1e-6) as [_|H]; [|contradiction].
  destruct (Rle_dec wr (base_speed c)) as [_|H]; [|contradiction].
  set (q := torque_ref / (1.5 * poles c * flux_linkage c)).
  assert (Hmag : sqrt (0 * 0 + q * q) = Rabs q).
  { replace (0 * 0 + q * q) with (Rsqr q) by (unfold Rsqr; ring).
    apply sqrt_Rsqr_abs. }
  rewrite Hmag.
  assert (Hden : 1.5 * poles c * flux_linkage c <> 0).
  { intros E. apply Rmult_integral in E. destruct E as [E|E]; [|contradiction].
    apply Rmult_integral in E. destruct E as [E|E]; [lra|contradiction]. }
  destruct (Rgt_dec (Rabs q) (max_current c)) as [Hgt|Hle].
  - do 2 eexists. split; [reflexivity|].
    assert (Hq0 : 0 < Rabs q) by lra.
    assert (Hk : 0 <= max_current c / Rabs q).
    { apply Rmult_le_pos; [exact Hmax|]. left. apply Rinv_0_lt_compat. exact Hq0. }
    assert (Habs : Rabs (q * (max_current c / Rabs q)) = max_current c).
    { rewrite Rabs_mult, (Rabs_pos_eq (max_current c / Rabs q)) by exact Hk.
      field. lra. }
    split; [ring|]. split; [lra|]. split; [intros H; exfalso; lra|].
    intros _. split; [exact Habs|].
    replace (q * (max_current c / Rabs q) * q)
      with ((q * q) * (max_current c / Rabs q)) by ring.
    apply Rmult_le_pos; [nra|exact Hk].
  - do 2 eexists. split; [reflexivity|].
    split; [reflexivity|]. split; [lra|].
    split; [intros _; unfold q; field; repeat split; try assumption; lra|].
    intros H. exfalso. lra.
Qed.

Lemma optimal_references_surface_mounted_witness :
  exists id_ref iq_ref,
    get_optimal_current_references example_flux_weakening 50 3 =
      (example_flux_weakening, (id_ref, iq_ref)) /\
    id_ref = 0 /\ Rabs iq_ref <= max_current example_flux_weakening /\
    (Rabs (3 / (1.5 * poles example_flux_weakening *
                flux_linkage example_flux_weakening))
       <= max_current example_flux_weakening ->
     1.5 * poles example_flux_weakening * flux_linkage example_flux_weakening *
       iq_ref = 3) /\
    (Rabs (3 / (1.5 * poles example_flux_weakening *
                flux_linkage example_flux_weakening))
       > max_current example_flux_weakening ->
     Rabs iq_ref = max_current example_flux_weakening /\
     0 <= iq_ref * (3 / (1.5 * poles example_flux_weakening *
                         flux_linkage example_flux_weakening))).
Proof.
  apply (optimal_references_surface_mounted example_flux_weakening 50 3).
  - cbn. replace (0.001 - 0.001) with 0 by lra. rewrite Rabs_R0. lra.
  - cbn. lra.
  - cbn. lra.
  - cbn. lra.
  - cbn. lra.
Defined.

End FluxWeakeningMoreFacts.

(** ** Disturbance rejection: gains, switching law, buffers *)

Section AdaptiveFacts.
Import DisturbanceRejection.AdaptiveController.

(** X18.  After [update_gains], with [min_gain <= max_gain], all six adaptive
    gains lie in [[min_gain, max_gain]] whatever they were before; the
    bounds are unchanged; and with a non-negative sample time the three
    error-energy accumulators stay non-negative. *)
Theorem adaptive_gains_stay_bounded (self : t) (id_error iq_error speed_error wr : R) :
  min_gain self <= max_gain self ->
  let self' := update_gains self id_error iq_error speed_error wr in
  let inside g := min_gain self <= g <= max_gain self in
  inside (id_kp_adaptive self') /\ inside (id_ki_adaptive self') /\
  inside (iq_kp_adaptive self') /\ inside (iq_ki_adaptive self') /\
  inside (speed_kp_adaptive self') /\ inside (speed_ki_adaptive self') /\
  min_gain self' = min_gain self /\ max_gain self' = max_gain self /\
  (0 <= sample_time self ->
   0 <= id_error_integral self -> 0 <= iq_error_integral self ->
   0 <= speed_error_integral self ->
   0 <= id_error_integral self' /\ 0 <= iq_error_integral self' /\
   0 <= speed_error_integral self').
Proof.
  intros Hmm. cbv zeta. unfold update_gains.
  set (a := id_error_integral self + id_error * id_error * sample_time self).
  set (b := iq_error_integral self + iq_error * iq_error * sample_time self).
  set (d := speed_error_integral self + speed_error * speed_error * sample_time self).
  assert (Hpos : 0 <= sample_time self ->
            0 <= id_error_integral self -> 0 <= iq_error_integral self ->
            0 <= speed_error_integral self -> 0 <= a /\ 0 <= b /\ 0 <= d).
  { intros Hdt Ha Hb Hd. unfold a, b, d.
    pose proof (Rle_0_sqr id_error) as S1. pose proof (Rle_0_sqr iq_error) as S2.
    pose proof (Rle_0_sqr speed_error) as S3. unfold Rsqr in *.
    repeat split; apply Rplus_le_le_0_compat; try assumption;
      apply Rmult_le_pos; assumption. }
  destruct (Rgt_dec a 0.1); destruct (Rgt_dec b 0.1); destruct (Rgt_dec d 1);
    destruct (py_int wr mod 100 =? 0)%Z; cbn;
    (repeat (split; [apply np_clip_bounds; exact Hmm|]));
    (split; [reflexivity|]); (split; [reflexivity|]);
    intros Hdt Ha Hb Hd; destruct (Hpos Hdt Ha Hb Hd) as (P1 & P2 & P3);
    repeat split; lra.
Qed.

Lemma adaptive_gains_stay_bounded_witness :
  let self := init example_parameters in
  let self' := update_gains self 1 2 3 100 in
  let inside g := min_gain self <= g <= max_gain self in
  inside (id_kp_adaptive self') /\ inside (id_ki_adaptive self') /\
  inside (iq_kp_adaptive self') /\ inside (iq_ki_adaptive self') /\
  inside (speed_kp_adaptive self') /\ inside (speed_ki_adaptive self') /\
  min_gain self' = min_gain self /\ max_gain self' = max_gain self /\
  (0 <= sample_time self ->
   0 <= id_error_integral self -> 0 <= iq_error_integral self ->
   0 <= speed_error_integral self ->
   0 <= id_error_integral self' /\ 0 <= iq_error_integral self' /\
   0 <= speed_error_integral self').
Proof.
  apply (adaptive_gains_stay_bounded (init example_parameters) 1 2 3 100).
  cbn. lra.
Defined.

End AdaptiveFacts.

Section RobustFacts.
Import DisturbanceRejection.RobustController.

(** X19.  The sliding-mode law is the equivalent control
    [-error_dot - 10*error], minus the disturbance estimate, plus a
    switching term whose magnitude never exceeds the (non-negative)
    sliding gain, inside the boundary layer as well as outside; the call
    stores the sliding surface [error_dot + 10*error]. *)
Theorem sliding_mode_switching_bounded (self : t)
    (error error_dot disturbance_estimate : R) :
  0 <= sliding_gain self ->
  let '(self', control) :=
    sliding_mode_control self error error_dot disturbance_estimate in
  sliding_surface self' = error_dot + 10 * error /\
  Rabs (control - (- error_dot - 10 * error - disturbance_estimate))
    <= sliding_gain self /\
  (boundary_layer self <= Rabs (error_dot + 10 * error) ->
   control = - error_dot - 10 * error
             - sliding_gain self * np_sign (error_dot + 10 * error)
             - disturbance_estimate).
Proof.
  intros Hk. unfold sliding_mode_control. cbn.
  set (s := error_dot + 10 * error).
  split; [reflexivity|].
  destruct (Rlt_dec (Rabs s) (boundary_layer self)) as [Hin|Hout].
  - split; [|intros H; exfalso; lra].
    pose proof (Rabs_pos s) as Hs.
    assert (Hb : 0 < boundary_layer self) by lra.
    replace (- error_dot - 10 * error +
             - sliding_gain self * s / boundary_layer self - disturbance_estimate -
             (- error_dot - 10 * error - disturbance_estimate))
      with (- (sliding_gain self * (s / boundary_layer self)))
      by (field; lra).
    rewrite Rabs_Ropp, Rabs_mult, (Rabs_pos_eq (sliding_gain self)) by exact Hk.
    assert (Hq : Rabs (s / boundary_layer self) <= 1).
    { unfold Rdiv. rewrite Rabs_mult, (Rabs_pos_eq (/ boundary_layer self)).
      - apply (Rmult_le_reg_r (boundary_layer self)); [exact Hb|].
        rewrite Rmult_assoc, Rinv_l by lra. lra.
      - left. apply Rinv_0_lt_compat. exact Hb. }
    pose proof (Rabs_pos (s / boundary_layer self)). nra.
  - split; [|intros _; ring].
    replace (- error_dot - 10 * error + - sliding_gain self * np_sign s -
             disturbance_estimate -
             (- error_dot - 10 * error - disturbance_estimate))
      with (- (sliding_gain self * np_sign s)) by ring.
    rewrite Rabs_Ropp, Rabs_mult, (Rabs_pos_eq (sliding_gain self)) by exact Hk.
    assert (Hsg : Rabs (np_sign s) <= 1).
    { unfold np_sign. destruct (Rlt_dec s 0); [|destruct (Rgt_dec s 0)].
      - rewrite Rabs_left by lra. lra.
      - rewrite Rabs_R1. lra.
      - rewrite Rabs_R0. lra. }
    pose proof (Rabs_pos (np_sign s)). nra.
Qed.

Lemma sliding_mode_switching_bounded_witness :
  let self := init example_parameters in
  let '(self', control) := sliding_mode_control self 0.001 0 0.3 in
  sliding_surface self' = 0 + 10 * 0.001 /\
  Rabs (control - (- 0 - 10 * 0.001 - 0.3)) <= sliding_gain self /\
  (boundary_layer self <= Rabs (0 + 10 * 0.001) ->
   control = - 0 - 10 * 0.001 - sliding_gain self * np_sign (0 + 10 * 0.001) - 0.3).
Proof.
  apply (sliding_mode_switching_bounded (init example_parameters) 0.001 0 0.3).
  cbn. lra.
Defined.

End RobustFacts.

Section ObserverFacts.
Import DisturbanceRejection.DisturbanceObserver.

(** X20.  An observer whose speed estimate equals the measured speed and whose
    disturbance estimate balances the torque equation is at rest: the
    update leaves both estimates as they are and returns the disturbance
    estimate plus the load estimate ([J] non-zero). *)
Theorem observer_equilibrium (self : t) (Te wr_actual load_torque_estimate : R) :
  J self <> 0 ->
  speed_estimate self = wr_actual ->
  disturbance_estimate self = Te - B self * wr_actual ->
  let '(self', torque) := update self Te wr_actual load_torque_estimate in
  disturbance_estimate self' = disturbance_estimate self /\
  speed_estimate self' = speed_estimate self /\
  torque = disturbance_estimate self + load_torque_estimate /\
  observed_torque self' = torque.
Proof.
  intros HJ Hs Hd. unfold update. cbn. rewrite Hs, Hd.
  repeat split; try field; try exact HJ.
Qed.

Lemma observer_equilibrium_witness :
  let self := set_state (init example_parameters) 0.25 30 0 in
  let '(self', torque) := update self 0.253 30 0 in
  disturbance_estimate self' = disturbance_estimate self /\
  speed_estimate self' = speed_estimate self /\
  torque = disturbance_estimate self + 0 /\
  observed_torque self' = torque.
Proof.
  apply (observer_equilibrium (set_state (init example_parameters) 0.25 30 0) 0.253 30 0).
  - cbn. lra.
  - reflexivity.
  - cbn. lra.
Defined.

End ObserverFacts.

Section BufferFacts.
Import DisturbanceRejection.DisturbanceRejectionController.

Lemma deque_append_length (maxlen : nat) (d : list R) (x : R) :
  (0 < maxlen)%nat -> (length d <= maxlen)%nat ->
  length (deque_append maxlen d x) = Nat.min (S (length d)) maxlen.
Proof.
  intros Hpos Hlen. unfold deque_append.
  destruct (Nat.ltb_spec (length d) maxlen) as [H|H].
  - rewrite length_app. cbn [length]. lia.
  - destruct d as [|y d]; cbn [length tl] in *; [lia|].
    rewrite length_app. cbn [length]. lia.
Qed.

Lemma deque_append_last (maxlen : nat) (d : list R) (x : R) :
  last (deque_append maxlen d x) 0 = x.
Proof.
  unfold deque_append. destruct (length d <? maxlen)%nat; apply last_last.
Qed.

Lemma metrics_keep_buffers (self : t) :
  speed_error_buffer (update_performance_metrics self) = speed_error_buffer self /\
  torque_buffer (update_performance_metrics self) = torque_buffer self /\
  disturbance_buffer (update_performance_metrics self) = disturbance_buffer self /\
  disturbance_observer (update_performance_metrics self) = disturbance_observer self /\
  control_mode (update_performance_metrics self) = control_mode self.
Proof.
  unfold update_performance_metrics.
  destruct (10 <? length (speed_error_buffer self))%nat; repeat split.
Qed.

(** X21.  Every [update] call, also one that raises, advances the observer and
    appends one sample to each of the three history buffers: the speed
    error, the torque and the observer's disturbance estimate.  The
    buffers are bounded: a buffer of at most 1000 samples has
    [min (n + 1, 1000)] afterwards, the newest sample last. *)
Theorem update_records_sample (self : t)
    (Te wr_actual wr_ref id_actual iq_actual id_ref iq_ref : R) :
  (length (speed_error_buffer self) <= 1000)%nat ->
  (length (torque_buffer self) <= 1000)%nat ->
  (length (disturbance_buffer self) <= 1000)%nat ->
  let self' := fst (update self Te wr_actual wr_ref id_actual iq_actual id_ref iq_ref) in
  let observed := DisturbanceRejection.DisturbanceObserver.update
                    (disturbance_observer self) Te wr_actual 0 in
  disturbance_observer self' = fst observed /\
  speed_error_buffer self' =
    deque_append 1000 (speed_error_buffer self) (wr_ref - wr_actual) /\
  torque_buffer self' = deque_append 1000 (torque_buffer self) Te /\
  disturbance_buffer self' =
    deque_append 1000 (disturbance_buffer self) (snd observed) /\
  length (speed_error_buffer self') =
    Nat.min (S (length (speed_error_buffer self))) 1000 /\
  length (torque_buffer self') = Nat.min (S (length (torque_buffer self))) 1000 /\
  length (disturbance_buffer self') =
    Nat.min (S (length (disturbance_buffer self))) 1000 /\
  last (speed_error_buffer self') 0 = wr_ref - wr_actual /\
  control_mode self' = control_mode self.
Proof.
  intros H1 H2 H3. cbv zeta.
  assert (E : disturbance_observer
                (fst (update self Te wr_actual wr_ref id_actual iq_actual id_ref iq_ref)) =
              fst (DisturbanceRejection.DisturbanceObserver.update
                     (disturbance_observer self) Te wr_actual 0) /\
              speed_error_buffer
                (fst (update self Te wr_actual wr_ref id_actual iq_actual id_ref iq_ref)) =
              deque_append 1000 (speed_error_buffer self) (wr_ref - wr_actual) /\
              torque_buffer
                (fst (update self Te wr_actual wr_ref id_actual iq_actual id_ref iq_ref)) =
              deque_append 1000 (torque_buffer self) Te /\
              disturbance_buffer
                (fst (update self Te wr_actual wr_ref id_actual iq_actual id_ref iq_ref)) =
              deque_append 1000 (disturbance_buffer self)
                (snd (DisturbanceRejection.DisturbanceObserver.update
                        (disturbance_observer self) Te wr_actual 0)) /\
              control_mode
                (fst (update self Te wr_actual wr_ref id_actual iq_actual id_ref iq_ref)) =
              control_mode self).
  { unfold update.
    destruct (DisturbanceRejection.DisturbanceObserver.update _ _ _ _) as [obs dq].
    cbn [control_mode fst snd].
    destruct (control_mode self =? "observer")%string; [cbn; repeat split|].
    destruct (control_mode self =? "adaptive")%string.
    { cbn [fst]. set (m := set_controllers _ _ _).
      destruct (metrics_keep_buffers m) as (M1 & M2 & M3 & M4 & M5).
      rewrite M1, M2, M3, M4, M5. repeat split. }
    destruct (control_mode self =? "robust")%string.
    { cbn [fst DisturbanceRejection.RobustController.sliding_mode_control].
      set (m := set_controllers _ _ _).
      destruct (metrics_keep_buffers m) as (M1 & M2 & M3 & M4 & M5).
      rewrite M1, M2, M3, M4, M5. repeat split. }
    destruct (control_mode self =? "combined")%string; [cbn; repeat split|].
    cbn [fst]. set (m := mk _ _ _ _ _ _ _ _).
    destruct (metrics_keep_buffers m) as (M1 & M2 & M3 & M4 & M5).
    rewrite M1, M2, M3, M4, M5. repeat split. }
  destruct E as (E1 & E2 & E3 & E4 & E5).
  rewrite E1, E2, E3, E4, E5.
  repeat split; try (apply deque_append_length; [lia|assumption]).
  apply deque_append_last.
Qed.

Lemma update_records_sample_witness :
  let self := init example_parameters in
  let self' := fst (update self 1 0 10 0 0 0 1) in
  let observed := DisturbanceRejection.DisturbanceObserver.update
                    (disturbance_observer self) 1 0 0 in
  disturbance_observer self' = fst observed /\
  speed_error_buffer self' = deque_append 1000 (speed_error_buffer self) (10 - 0) /\
  torque_buffer self' = deque_append 1000 (torque_buffer self) 1 /\
  disturbance_buffer self' =
    deque_append 1000 (disturbance_buffer self) (snd observed) /\
  length (speed_error_buffer self') =
    Nat.min (S (length (speed_error_buffer self))) 1000 /\
  length (torque_buffer self') = Nat.min (S (length (torque_buffer self))) 1000 /\
  length (disturbance_buffer self') =
    Nat.min (S (length (disturbance_buffer self))) 1000 /\
  last (speed_error_buffer self') 0 = 10 - 0 /\
  control_mode self' = control_mode self.
Proof.
  apply (update_records_sample (init example_parameters) 1 0 10 0 0 0 1); cbn; lia.
Defined.

Lemma fold_max_ge (d : R) (l : list R) : d <= fold_right Rmax d l.
Proof.
  induction l as [|x l IH]; cbn; [lra|].
  pose proof (Rmax_r x (fold_right Rmax d l)). lra.
Qed.

Lemma fold_min_le (d : R) (l : list R) : fold_right Rmin d l <= d.
Proof.
  induction l as [|x l IH]; cbn; [lra|].
  pose proof (Rmin_r x (fold_right Rmin d l)). lra.
Qed.

(** X22.  [update_performance_metrics] leaves the metrics alone while the speed
    error history has at most 10 samples; beyond that the RMS speed error
    it stores is non-negative, and the torque ripple and the
    disturbance-rejection ratio stay non-negative if they were. *)
Theorem metrics_stay_nonnegative (self : t) :
  ((length (speed_error_buffer self) <= 10)%nat ->
   update_performance_metrics self = self) /\
  ((10 < length (speed_error_buffer self))%nat ->
   speed_error_rms (performance_metrics (update_performance_metrics self)) =
     sqrt (np_mean (map (fun e => e * e) (speed_error_buffer self))) /\
   0 <= speed_error_rms (performance_metrics (update_performance_metrics self)) /\
   (0 <= torque_ripple (performance_metrics self) ->
    0 <= torque_ripple (performance_metrics (update_performance_metrics self))) /\
   (0 <= disturbance_rejection_ratio (performance_metrics self) ->
    0 <= disturbance_rejection_ratio
           (performance_metrics (update_performance_metrics self)))).
Proof.
  unfold update_performance_metrics. split; intros Hlen.
  - destruct (Nat.ltb_spec 10 (length (speed_error_buffer self))); [lia|reflexivity].
  - destruct (Nat.ltb_spec 10 (length (speed_error_buffer self))) as [_|H]; [|lia].
    set (rms := sqrt (np_mean (map (fun e => e * e) (speed_error_buffer self)))).
    assert (Hrms : 0 <= rms) by apply sqrt_pos.
    destruct ((0 <? length (torque_buffer self))%nat &&
              (if Rgt_dec (np_mean (map Rabs (torque_buffer self))) 0
               then true else false)) eqn:ET;
      destruct ((0 <? length (disturbance_buffer self))%nat &&
                (if Rgt_dec (np_max (map Rabs (disturbance_buffer self))) 0
                 then true else false)) eqn:ED;
      cbn; (split; [reflexivity|]); (split; [exact Hrms|]); split; intros Hold;
      try exact Hold.
    all: try (apply andb_prop in ET; destruct ET as [_ ET];
              destruct (Rgt_dec (np_mean (map Rabs (torque_buffer self))) 0)
                as [Hm|]; [|discriminate ET];
              apply Rmult_le_pos;
              [pose proof (fold_max_ge (hd 0 (torque_buffer self)) (torque_buffer self));
               pose proof (fold_min_le (hd 0 (torque_buffer self)) (torque_buffer self));
               unfold np_max, np_min; lra
              |left; apply Rinv_0_lt_compat; lra]).
    all: apply andb_prop in ED; destruct ED as [_ ED];
      destruct (Rgt_dec (np_max (map Rabs (disturbance_buffer self))) 0)
        as [Hm|]; [|discriminate ED];
      apply Rmult_le_pos; [exact Hrms|left; apply Rinv_0_lt_compat; lra].
Qed.

End BufferFacts.

(** ** Recursive least squares: shapes, fixed points, covariance *)

Section RlsMoreFacts.
Import SelfLearning SelfLearning.MotorParameterIdentification.

(** An estimator for [n] parameters: [theta] of size [n], [P] of size
    [n] by [n]. *)
Definition estimator_shape (n : nat) (est : estimator) : Prop :=
  length (theta est) = n /\ length (P est) = n /\
  Forall (fun r => length r = n) (P est).

Lemma vadd_length (u v : list R) : length (vadd u v) = Nat.min (length u) (length v).
Proof.
  revert v. induction u as [|x u IH]; intros [|y v]; cbn [vadd length]; try reflexivity.
  rewrite IH. reflexivity.
Qed.

Lemma vsub_length (u v : list R) : length (vsub u v) = Nat.min (length u) (length v).
Proof.
  revert v. induction u as [|x u IH]; intros [|y v]; cbn [vsub length]; try reflexivity.
  rewrite IH. reflexivity.
Qed.

Lemma msub_shape (n : nat) (M N : list (list R)) :
  Forall (fun r => length r = n) M -> Forall (fun r => length r = n) N ->
  length (msub M N) = Nat.min (length M) (length N) /\
  Forall (fun r => length r = n) (msub M N).
Proof.
  intros HM. revert N. induction HM as [|r M Hr HM IH]; intros N HN.
  - cbn. split; [reflexivity|constructor].
  - destruct HN as [|s N Hs HN]; cbn [msub length].
    + split; [reflexivity|constructor].
    + destruct (IH N HN) as [Hl Hf]. split; [rewrite Hl; reflexivity|].
      constructor; [|exact Hf]. rewrite vsub_length, Hr, Hs. apply Nat.min_id.
Qed.

Lemma vecmat_length (n : nat) (v : list R) (M : list (list R)) :
  length M = n -> Forall (fun r => length r = n) M -> length (vecmat v M) = n.
Proof.
  intros Hlen HM. unfold vecmat. rewrite length_map, length_seq.
  destruct HM as [|r M Hr HM]; cbn in *; [exact Hlen|exact Hr].
Qed.

Lemma gain_length (n : nat) (est : estimator) (phi : list R) (d : R) :
  estimator_shape n est ->
  length (if Rgt_dec (Rabs d) 1e-10
          then vdiv (matvec (P est) phi) d
          else zeros_like (theta est)) = n.
Proof.
  intros (Ht & HP & _). destruct (Rgt_dec (Rabs d) 1e-10).
  - unfold vdiv, matvec. rewrite !length_map. exact HP.
  - unfold zeros_like. rewrite length_map. exact Ht.
Qed.

Lemma rls_update_shape (n : nat) (est : estimator) (phi : list R) (y : R) :
  estimator_shape n est -> length phi = n ->
  estimator_shape n (fst (rls_update est phi y)) /\
  lambda (fst (rls_update est phi y)) = lambda est.
Proof.
  intros Hs Hphi. pose proof Hs as (Ht & HP & Hrows).
  unfold rls_update. cbn [fst theta P lambda].
  set (d := lambda est + dot (vecmat phi (P est)) phi).
  pose proof (gain_length n est phi d Hs) as HK.
  set (K := if Rgt_dec (Rabs d) 1e-10 then _ else _) in *.
  split; [|reflexivity]. unfold estimator_shape. cbn [theta P].
  assert (Houter : length (outer K (vecmat phi (P est))) = n /\
                   Forall (fun r => length r = n) (outer K (vecmat phi (P est)))).
  { unfold outer. rewrite length_map. split; [exact HK|].
    apply Forall_forall. intros r Hr. apply in_map_iff in Hr.
    destruct Hr as (x & <- & _). rewrite length_map.
    apply (vecmat_length n); assumption. }
  destruct Houter as [Hol Hof].
  destruct (msub_shape n _ _ Hrows Hof) as [Hml Hmf].
  split; [|split].
  - rewrite vadd_length. unfold vscale. rewrite length_map, Ht, HK. apply Nat.min_id.
  - unfold mdiv. rewrite length_map, Hml, HP, Hol. apply Nat.min_id.
  - unfold mdiv. apply Forall_forall. intros r Hr. apply in_map_iff in Hr.
    destruct Hr as (s & <- & Hin). unfold vdiv. rewrite length_map.
    rewrite Forall_forall in Hmf. apply Hmf. exact Hin.
Qed.

(** X23.  [rls_update] keeps the shape of the estimator and its forgetting
    factor: after any update with a regressor of the right size, [theta]
    still has [n] entries and [P] is still [n] by [n]. *)
Theorem rls_update_keeps_shape (n : nat) (est : estimator) (phi : list R) (y : R) :
  estimator_shape n est -> length phi = n ->
  estimator_shape n (fst (rls_update est phi y)) /\
  lambda (fst (rls_update est phi y)) = lambda est.
Proof. intros Hs Hphi. apply rls_update_shape; assumption. Qed.

Lemma rls_update_keeps_shape_witness :
  estimator_shape 1 (fst (rls_update example_estimator [2] 3)) /\
  lambda (fst (rls_update example_estimator [2] 3)) = lambda example_estimator.
Proof.
  apply (rls_update_keeps_shape 1 example_estimator [2] 3).
  - repeat split; repeat constructor.
  - reflexivity.
Defined.

Lemma vadd_scaled_by_zero (v k : list R) :
  length k = length v -> vadd v (vscale k 0) = v.
Proof.
  revert k. induction v as [|x v IH]; intros [|z k] Hlen; try discriminate Hlen.
  - reflexivity.
  - cbn. fold (vscale k 0). rewrite IH by (injection Hlen as H; exact H).
    f_equal. ring.
Qed.

(** X24.  A measurement the current estimate already explains moves nothing:
    when the residual [y - phi^T theta] is zero, [theta] is unchanged,
    whatever the covariance. *)
Theorem rls_update_fixed_point (n : nat) (est : estimator) (phi : list R) (y : R) :
  estimator_shape n est -> length phi = n ->
  y - dot phi (theta est) = 0 ->
  theta (fst (rls_update est phi y)) = theta est /\
  snd (rls_update est phi y) = 0.
Proof.
  intros Hs Hphi Hres. unfold rls_update. cbn [fst snd theta].
  split; [|exact Hres]. rewrite Hres. apply vadd_scaled_by_zero.
  rewrite (gain_length n est phi _ Hs). symmetry. apply Hs.
Qed.

Lemma rls_update_fixed_point_witness :
  theta (fst (rls_update example_estimator [2] 1)) = theta example_estimator /\
  snd (rls_update example_estimator [2] 1) = 0.
Proof.
  apply (rls_update_fixed_point 1 example_estimator [2] 1).
  - repeat split; repeat constructor.
  - reflexivity.
  - cbn. lra.
Defined.

(** X25.  A one-parameter estimator with a positive covariance [p] and a
    positive forgetting factor keeps a positive covariance, never above
    [p / lambda]; when the gain is computed ([|d| > 1e-10]) the new
    covariance is [p / (lambda + phi*p*phi)]. *)
Theorem scalar_covariance_stays_positive (est : estimator) (r p i y : R) :
  theta est = [r] -> P est = [[p]] -> 0 < lambda est -> 0 < p ->
  exists p',
    P (fst (rls_update est [i] y)) = [[p']] /\
    0 < p' <= p / lambda est /\
    (Rabs (lambda est + i * p * i) > 1e-10 -> p' = p / (lambda est + i * p * i)).
Proof.
  intros Ht HP Hl Hp. unfold rls_update. rewrite Ht, HP.
  cbn [fst P lambda vecmat ncols length seq map column nth dot matvec].
  replace (lambda est + ((i * p + 0) * i + 0)) with (lambda est + i * p * i) by ring.
  assert (Hd : 0 < lambda est + i * p * i) by nra.
  assert (Hil : 0 < / lambda est) by (apply Rinv_0_lt_compat; exact Hl).
  assert (Hid : 0 < / (lambda est + i * p * i)) by (apply Rinv_0_lt_compat; exact Hd).
  destruct (Rgt_dec (Rabs (lambda est + i * p * i)) 1e-10) as [Hg|Hg].
  - cbn. eexists. split; [reflexivity|].
    assert (E : (p - (p * i + 0) / (lambda est + i * p * i) * (i * p + 0)) / lambda est
                = p / (lambda est + i * p * i)) by (field; lra).
    rewrite E. split; [|intros _; reflexivity].
    unfold Rdiv. split; [nra|].
    apply Rmult_le_compat_l; [lra|]. apply Rinv_le_contravar; nra.
  - cbn. eexists. split; [reflexivity|].
    replace ((p - 0 * (i * p + 0)) / lambda est) with (p / lambda est)
      by (field; lra).
    split; [|intros H; contradiction]. unfold Rdiv. split; [nra|lra].
Qed.

Lemma scalar_covariance_stays_positive_witness :
  exists p',
    P (fst (rls_update example_estimator [2] 3)) = [[p']] /\
    0 < p' <= 1000 / lambda example_estimator /\
    (Rabs (lambda example_estimator + 2 * 1000 * 2) > 1e-10 ->
     p' = 1000 / (lambda example_estimator + 2 * 1000 * 2)).
Proof.
  apply (scalar_covariance_stays_positive example_estimator 0.5 1000 2 3).
  - reflexivity.
  - reflexivity.
  - cbn. lra.
  - lra.
Defined.

End RlsMoreFacts.

(** ** Parameter identification: one sample at a time *)

Section SessionFacts.
Import SelfLearning SelfLearning.MotorParameterIdentification.

(** The four estimators have the sizes [initialize_estimators] gives
    them. *)
Definition identifier_shaped (self : t) : Prop :=
  estimator_shape 1 (Rs_estimator self) /\ estimator_shape 2 (L_estimator self) /\
  estimator_shape 1 (flux_estimator self) /\ estimator_shape 2 (mech_estimator self).

Definition status (self : t) : bool * Z * bool * R * R :=
  (identification_enabled self, identification_count self,
   identification_complete self, sample_time self,
   min_speed_for_identification self).

Definition resistance_part (self : t) : estimator * R :=
  (Rs_estimator self, Rs_identified self).

Definition inductance_part (self : t) : estimator * R * R :=
  (L_estimator self, Ld_identified self, Lq_identified self).

Definition flux_part (self : t) : estimator * R :=
  (flux_estimator self, flux_identified self).

Definition mechanical_part (self : t) : estimator * R * R :=
  (mech_estimator self, J_identified self, B_identified self).

Lemma init_shaped (params : MotorParameters) : identifier_shaped (init params).
Proof. unfold identifier_shaped, estimator_shape. cbn. repeat split; repeat constructor. Qed.

Lemma updated_shape (n : nat) (est est' : estimator) (phi : list R) (y err : R) :
  estimator_shape n est -> length phi = n ->
  rls_update est phi y = (est', err) -> estimator_shape n est'.
Proof.
  intros Hs Hphi E. destruct (rls_update_shape n est phi y Hs Hphi) as [H _].
  rewrite E in H. exact H.
Qed.

Lemma shape_head (n : nat) (est : estimator) :
  estimator_shape (S n) est -> exists x rest, theta est = x :: rest /\ length rest = n.
Proof.
  intros (H & _). destruct (theta est) as [|x rest]; [discriminate H|].
  exists x, rest. split; [reflexivity|]. injection H as H. exact H.
Qed.

(** Closes a frame goal: the call returned [self'], whose shape is [Hsh],
    and every part it did not touch is syntactically the old one. *)
Ltac frame Hsh :=
  split; [reflexivity|]; split; [exact Hsh|];
  repeat (split; [reflexivity|]).

Lemma identify_resistance_frame (self : t) (vd id vq iq wr : R) :
  identifier_shaped self ->
  exists self',
    identify_resistance self vd id vq iq wr = Returned self' /\
    identifier_shaped self' /\ status self' = status self /\
    inductance_part self' = inductance_part self /\
    flux_part self' = flux_part self /\
    mechanical_part self' = mechanical_part self /\
    (Rabs wr >= min_speed_for_identification self -> self' = self).
Proof.
  intros Hsh. pose proof Hsh as (HRs & HL & Hf & Hm). unfold identify_resistance.
  assert (Hbranch : forall x v,
    Rabs wr < min_speed_for_identification self ->
    exists self',
      (let '(Rs_estimator, _) := rls_update (Rs_estimator self) [x] v in
       match theta Rs_estimator with
       | theta0 :: _ => Returned (set_Rs self Rs_estimator theta0)
       | [] => Raised IndexError
       end) = Returned self' /\
      identifier_shaped self' /\ status self' = status self /\
      inductance_part self' = inductance_part self /\
      flux_part self' = flux_part self /\
      mechanical_part self' = mechanical_part self /\
      (Rabs wr >= min_speed_for_identification self -> self' = self)).
  { intros x v Hw.
    destruct (rls_update (Rs_estimator self) [x] v) as [est err] eqn:E.
    assert (Hest : estimator_shape 1 est)
      by (eapply updated_shape; [exact HRs| |exact E]; reflexivity).
    destruct (shape_head 0 est Hest) as (t0 & rest & Et & _). rewrite Et.
    eexists. frame (conj Hest (conj HL (conj Hf Hm))). intros; exfalso; lra. }
  destruct (Rlt_dec (Rabs wr) (min_speed_for_identification self)) as [Hw|Hw].
  - destruct (Rgt_dec (Rabs id) 0.1); [apply Hbranch; exact Hw|].
    destruct (Rgt_dec (Rabs iq) 0.1); [apply Hbranch; exact Hw|].
    exists self. frame Hsh. reflexivity.
  - exists self. frame Hsh. reflexivity.
Qed.

Lemma identify_inductance_frame (self : t) (vd id vq iq wr did_dt diq_dt : R) :
  identifier_shaped self ->
  exists self',
    identify_inductance self vd id vq iq wr did_dt diq_dt = Returned self' /\
    identifier_shaped self' /\ status self' = status self /\
    resistance_part self' = resistance_part self /\
    flux_part self' = flux_part self /\
    mechanical_part self' = mechanical_part self /\
    (Rabs wr <= min_speed_for_identification self -> self' = self) /\
    (did_dt = 0 -> diq_dt = 0 -> self' = self).
Proof.
  intros Hsh. unfold identify_inductance.
  destruct (Rgt_dec (Rabs wr) (min_speed_for_identification self)) as [Hw|Hw];
    [|exists self; frame Hsh; split; reflexivity].
  assert (Hfirst : exists self1,
    (if Rgt_dec (Rabs diq_dt) 1e-6
     then
       theta0 <- array_set0 (theta (L_estimator self)) (Ld_identified self) ;;
       (let '(L_estimator', _) :=
          rls_update
            (mk_estimator theta0 (P (L_estimator self)) (lambda (L_estimator self)))
            [wr * id; diq_dt]
            (vq - Rs_identified self * iq - wr * flux_identified self) in
        Ld <- array_get (theta L_estimator') 0 ;;
        Returned (set_L self L_estimator' Ld))
     else Returned self) = Returned self1 /\
    identifier_shaped self1 /\ status self1 = status self /\
    resistance_part self1 = resistance_part self /\
    flux_part self1 = flux_part self /\
    mechanical_part self1 = mechanical_part self /\
    (diq_dt = 0 -> self1 = self)).
  { pose proof Hsh as (HRs & HL & Hf & Hm).
    destruct (Rgt_dec (Rabs diq_dt) 1e-6) as [Hd|Hd];
      [|exists self; frame Hsh; reflexivity].
    destruct (shape_head 1 _ HL) as (t0 & rest & Et & Hrest). rewrite Et.
    cbn [array_set0 bind].
    assert (Hs0 : estimator_shape 2
              (mk_estimator (Ld_identified self :: rest) (P (L_estimator self))
                 (lambda (L_estimator self)))).
    { destruct HL as (_ & HP & Hrows). unfold estimator_shape. cbn [theta P length].
      rewrite Hrest. split; [reflexivity|]. split; assumption. }
    destruct (rls_update _ [wr * id; diq_dt] _) as [est err] eqn:E.
    assert (Hest : estimator_shape 2 est)
      by (eapply updated_shape; [exact Hs0| |exact E]; reflexivity).
    destruct (shape_head 1 est Hest) as (x & rest' & Ex & _).
    unfold array_get. rewrite Ex. cbn [nth_error bind].
    eexists. frame (conj HRs (conj Hest (conj Hf Hm))).
    intros Hz. exfalso. rewrite Hz, Rabs_R0 in Hd. lra. }
  destruct Hfirst as (self1 & E1 & Hsh1 & Hst1 & Hr1 & Hf1 & Hm1 & Hz1).
  rewrite E1. cbn [bind].
  destruct (Rgt_dec (Rabs did_dt) 1e-6) as [Hd|Hd].
  - pose proof Hsh1 as (HRs & HL & Hf & Hm).
    assert (Hs0 : estimator_shape 2
              (mk_estimator [Lq_identified self1; Ld_identified self1]
                 (P (L_estimator self1)) (lambda (L_estimator self1)))).
    { destruct HL as (_ & HP & Hrows). unfold estimator_shape. cbn [theta P length].
      split; [reflexivity|]. split; assumption. }
    destruct (rls_update _ [- wr * iq; did_dt] _) as [est err] eqn:E.
    assert (Hest : estimator_shape 2 est)
      by (eapply updated_shape; [exact Hs0| |exact E]; reflexivity).
    destruct (shape_head 1 est Hest) as (x & rest' & Ex & _).
    unfold array_get. rewrite Ex. cbn [nth_error bind].
    eexists. split; [reflexivity|].
    split; [exact Hsh1|]. split; [exact Hst1|]. split; [exact Hr1|].
    split; [exact Hf1|]. split; [exact Hm1|].
    split; [intros; exfalso; lra|].
    intros Hz. exfalso. rewrite Hz, Rabs_R0 in Hd. lra.
  - exists self1. split; [reflexivity|].
    split; [exact Hsh1|]. split; [exact Hst1|]. split; [exact Hr1|].
    split; [exact Hf1|]. split; [exact Hm1|].
    split; [intros; exfalso; lra|].
    intros _ Hz. apply Hz1. exact Hz.
Qed.

Lemma identify_flux_linkage_frame (self : t) (vd id vq iq wr : R) :
  identifier_shaped self ->
  exists self',
    identify_flux_linkage self vd id vq iq wr = Returned self' /\
    identifier_shaped self' /\ status self' = status self /\
    resistance_part self' = resistance_part self /\
    inductance_part self' = inductance_part self /\
    mechanical_part self' = mechanical_part self /\
    (Rabs wr <= min_speed_for_identification self -> self' = self).
Proof.
  intros Hsh. pose proof Hsh as (HRs & HL & Hf & Hm). unfold identify_flux_linkage.
  destruct (Rgt_dec (Rabs wr) (min_speed_for_identification self)) as [Hw|Hw];
    [|exists self; frame Hsh; reflexivity].
  destruct (Rgt_dec (Rabs iq) 0.1); [|exists self; frame Hsh; reflexivity].
  destruct (rls_update (flux_estimator self) [wr] _) as [est err] eqn:E.
  assert (Hest : estimator_shape 1 est)
    by (eapply updated_shape; [exact Hf| |exact E]; reflexivity).
  destruct (shape_head 0 est Hest) as (x & rest' & Ex & _).
  unfold array_get. rewrite Ex. cbn [nth_error bind].
  eexists. frame (conj HRs (conj HL (conj Hest Hm))).
  intros; exfalso; lra.
Qed.

Lemma identify_mechanical_frame (self : t) (Te wr dwr_dt : R) :
  identifier_shaped self ->
  exists self',
    identify_mechanical_parameters self Te wr dwr_dt = Returned self' /\
    identifier_shaped self' /\ status self' = status self /\
    resistance_part self' = resistance_part self /\
    inductance_part self' = inductance_part self /\
    flux_part self' = flux_part self /\
    (dwr_dt = 0 -> self' = self).
Proof.
  intros Hsh. pose proof Hsh as (HRs & HL & Hf & Hm).
  unfold identify_mechanical_parameters.
  destruct (Rgt_dec (Rabs dwr_dt) 1e-6) as [Hd|Hd];
    [|exists self; frame Hsh; reflexivity].
  destruct (rls_update (mech_estimator self) [dwr_dt; wr] Te) as [est err] eqn:E.
  assert (Hest : estimator_shape 2 est)
    by (eapply updated_shape; [exact Hm| |exact E]; reflexivity).
  destruct (shape_head 1 est Hest) as (x & rest' & Ex & Hrest).
  destruct rest' as [|x' rest'']; [discriminate Hrest|].
  unfold array_get. rewrite Ex. cbn [nth_error bind].
  eexists. frame (conj HRs (conj HL (conj Hf Hest))).
  intros Hz. exfalso. rewrite Hz, Rabs_R0 in Hd. lra.
Qed.

Lemma status_fields (a b : t) :
  status a = status b ->
  identification_enabled a = identification_enabled b /\
  identification_count a = identification_count b /\
  identification_complete a = identification_complete b /\
  sample_time a = sample_time b /\
  min_speed_for_identification a = min_speed_for_identification b.
Proof. unfold status. intros H. injection H as H1 H2 H3 H4 H5. repeat split; assumption. Qed.

(** The four identification calls of [update], one after the other, with
    whatever follows them as [k]. *)
Lemma identify_chain (A : Type) (self : t)
    (vd id vq iq wr did_dt diq_dt dwr_dt : R) (Te : option R) (k : t -> outcome A) :
  identifier_shaped self ->
  exists self',
    (self1 <- identify_resistance self vd id vq iq wr ;;
     self2 <- identify_inductance self1 vd id vq iq wr did_dt diq_dt ;;
     self3 <- identify_flux_linkage self2 vd id vq iq wr ;;
     self4 <- match Te with
              | Some Te => identify_mechanical_parameters self3 Te wr dwr_dt
              | None => Returned self3
              end ;;
     k self4) = k self' /\
    identifier_shaped self' /\ status self' = status self /\
    (Rabs wr >= min_speed_for_identification self ->
     resistance_part self' = resistance_part self) /\
    (Rabs wr <= min_speed_for_identification self ->
     inductance_part self' = inductance_part self /\
     flux_part self' = flux_part self) /\
    (did_dt = 0 -> diq_dt = 0 -> inductance_part self' = inductance_part self) /\
    (Te = None \/ dwr_dt = 0 -> mechanical_part self' = mechanical_part self).
Proof.
  intros Hsh.
  destruct (identify_resistance_frame self vd id vq iq wr Hsh)
    as (s1 & E1 & Sh1 & St1 & L1 & F1 & M1 & Z1).
  destruct (identify_inductance_frame s1 vd id vq iq wr did_dt diq_dt Sh1)
    as (s2 & E2 & Sh2 & St2 & R2 & F2 & M2 & Z2 & D2).
  destruct (identify_flux_linkage_frame s2 vd id vq iq wr Sh2)
    as (s3 & E3 & Sh3 & St3 & R3 & L3 & M3 & Z3).
  destruct (status_fields _ _ St1) as (_ & _ & _ & _ & Hm1).
  destruct (status_fields _ _ St2) as (_ & _ & _ & _ & Hm2).
  rewrite E1. cbn [bind]. rewrite E2. cbn [bind]. rewrite E3. cbn [bind].
  assert (Hrest : forall s4,
    identifier_shaped s4 -> status s4 = status s3 ->
    resistance_part s4 = resistance_part s3 ->
    inductance_part s4 = inductance_part s3 ->
    flux_part s4 = flux_part s3 ->
    (Te = None \/ dwr_dt = 0 -> mechanical_part s4 = mechanical_part s3) ->
    identifier_shaped s4 /\ status s4 = status self /\
    (Rabs wr >= min_speed_for_identification self ->
     resistance_part s4 = resistance_part self) /\
    (Rabs wr <= min_speed_for_identification self ->
     inductance_part s4 = inductance_part self /\
     flux_part s4 = flux_part self) /\
    (did_dt = 0 -> diq_dt = 0 -> inductance_part s4 = inductance_part self) /\
    (Te = None \/ dwr_dt = 0 -> mechanical_part s4 = mechanical_part self)).
  { intros s4 Sh4 St4 R4 L4 F4 M4.
    split; [exact Sh4|]. split; [congruence|].
    split; [intros Hw; rewrite R4, R3, R2, (Z1 Hw); reflexivity|].
    split.
    { intros Hw.
      assert (H2 : s2 = s1) by (apply Z2; rewrite Hm1; exact Hw).
      assert (H3 : s3 = s2) by (apply Z3; rewrite Hm2, Hm1; exact Hw).
      split; [rewrite L4, H3, H2; exact L1|rewrite F4, H3, H2; exact F1]. }
    split.
    { intros Hd Hq. rewrite L4, L3, (D2 Hd Hq). exact L1. }
    intros HT. rewrite (M4 HT), M3, M2. exact M1. }
  destruct Te as [Te|]; cbn [bind].
  - destruct (identify_mechanical_frame s3 Te wr dwr_dt Sh3)
      as (s4 & E4 & Sh4 & St4 & R4 & L4 & F4 & Z4).
    rewrite E4. cbn [bind]. exists s4. split; [reflexivity|].
    apply Hrest; try assumption.
    intros [HT|HT]; [discriminate HT|]. rewrite (Z4 HT). reflexivity.
  - exists s3. split; [reflexivity|]. apply Hrest; auto.
Qed.

(** The finite differences [update] computes from the buffers. *)
Definition current_derivatives (s : session) (id iq : R) : R * R :=
  match second_last (buffer_append 1000 (current_buffer s) (id, iq)) with
  | Some (id_prev, iq_prev) =>
      ((id - id_prev) / sample_time (identifier s),
       (iq - iq_prev) / sample_time (identifier s))
  | None => (0, 0)
  end.

Definition speed_derivative (s : session) (wr : R) : R :=
  match second_last (buffer_append 1000 (speed_buffer s) wr) with
  | Some wr_prev => (wr - wr_prev) / sample_time (identifier s)
  | None => 0
  end.

Lemma update_step (s : session) (vd id vq iq wr : R) (Te : option R)
    (load_torque : R) :
  identifier_shaped (identifier s) ->
  identification_enabled (identifier s) = true ->
  exists self',
    update s vd id vq iq wr Te load_torque =
      Returned (mk_session
        (set_status self' true (identification_count (identifier s) + 1)
           (if (identification_count (identifier s) + 1 >? 100)%Z then true
            else identification_complete (identifier s)))
        (buffer_append 1000 (voltage_buffer s) (vd, vq))
        (buffer_append 1000 (current_buffer s) (id, iq))
        (buffer_append 1000 (speed_buffer s) wr)
        (match Te with
         | Some Te => buffer_append 1000 (torque_buffer s) Te
         | None => torque_buffer s
         end)) /\
    identifier_shaped self' /\ status self' = status (identifier s) /\
    (Rabs wr >= min_speed_for_identification (identifier s) ->
     resistance_part self' = resistance_part (identifier s)) /\
    (Rabs wr <= min_speed_for_identification (identifier s) ->
     inductance_part self' = inductance_part (identifier s) /\
     flux_part self' = flux_part (identifier s)) /\
    (current_derivatives s id iq = (0, 0) ->
     inductance_part self' = inductance_part (identifier s)) /\
    (Te = None \/ speed_derivative s wr = 0 ->
     mechanical_part self' = mechanical_part (identifier s)).
Proof.
  intros Hsh Hen. unfold update. rewrite Hen. cbn [negb]. cbv zeta.
  fold (current_derivatives s id iq). fold (speed_derivative s wr).
  destruct (current_derivatives s id iq) as [did_dt diq_dt].
  match goal with
  | |- context [bind _ (fun _ => bind _ (fun _ => bind _ (fun _ => bind _ ?k)))] =>
      destruct (identify_chain session (identifier s) vd id vq iq wr did_dt diq_dt
                  (speed_derivative s wr) Te k Hsh)
        as (self' & E & Sh & St & HR & HL & HD & HM)
  end.
  destruct (status_fields _ _ St) as (He & Hc & Hcm & _ & _).
  exists self'. split.
  { rewrite E, He, Hc, Hcm, Hen. reflexivity. }
  split; [exact Sh|]. split; [exact St|]. split; [exact HR|]. split; [exact HL|].
  split; [|exact HM].
  intros Hz. injection Hz as Hd Hq. apply HD; assumption.
Qed.

(** A session on which [update] works: the estimators have their sizes,
    identification is enabled and the sample time is not zero. *)
Definition session_ready (s : session) : Prop :=
  identifier_shaped (identifier s) /\
  identification_enabled (identifier s) = true /\
  sample_time (identifier s) <> 0.

(** Parts of the object that [set_status] does not touch. *)
Lemma set_status_parts (self : t) (e : bool) (c : Z) (d : bool) :
  resistance_part (set_status self e c d) = resistance_part self /\
  inductance_part (set_status self e c d) = inductance_part self /\
  flux_part (set_status self e c d) = flux_part self /\
  mechanical_part (set_status self e c d) = mechanical_part self /\
  identifier_shaped (set_status self e c d) = identifier_shaped self /\
  sample_time (set_status self e c d) = sample_time self.
Proof. repeat split. Qed.

(** X26.  Which estimator runs is decided by the speed alone: at or above the
    minimum speed (10 rad/s) the resistance and its estimator are left as
    they are, at or below it the inductances and the flux linkage are, so
    that at exactly the minimum speed no electrical parameter is
    identified; without a torque value the mechanical parameters and the
    torque buffer are left as they are. *)
Theorem speed_gates_identification (s : session) (vd id vq iq wr : R)
    (Te : option R) (load_torque : R) :
  session_ready s ->
  exists s',
    update s vd id vq iq wr Te load_torque = Returned s' /\
    (Rabs wr >= min_speed_for_identification (identifier s) ->
     resistance_part (identifier s') = resistance_part (identifier s)) /\
    (Rabs wr <= min_speed_for_identification (identifier s) ->
     inductance_part (identifier s') = inductance_part (identifier s) /\
     flux_part (identifier s') = flux_part (identifier s)) /\
    (Te = None ->
     mechanical_part (identifier s') = mechanical_part (identifier s) /\
     torque_buffer s' = torque_buffer s).
Proof.
  intros (Hsh & Hen & _).
  destruct (update_step s vd id vq iq wr Te load_torque Hsh Hen)
    as (self' & E & _ & _ & HR & HL & _ & HM).
  eexists. split; [exact E|]. cbn [identifier torque_buffer].
  split; [exact HR|]. split; [exact HL|].
  intros HT. split; [apply HM; left; exact HT|]. rewrite HT. reflexivity.
Qed.

Lemma speed_gates_identification_witness :
  exists s',
    update (new_session example_parameters) 1 1 0 0 10 None 0 = Returned s' /\
    (Rabs 10 >= min_speed_for_identification
                  (identifier (new_session example_parameters)) ->
     resistance_part (identifier s') =
       resistance_part (identifier (new_session example_parameters))) /\
    (Rabs 10 <= min_speed_for_identification
                  (identifier (new_session example_parameters)) ->
     inductance_part (identifier s') =
       inductance_part (identifier (new_session example_parameters)) /\
     flux_part (identifier s') =
       flux_part (identifier (new_session example_parameters))) /\
    (@None R = None ->
     mechanical_part (identifier s') =
       mechanical_part (identifier (new_session example_parameters)) /\
     torque_buffer s' = torque_buffer (new_session example_parameters)).
Proof.
  apply (speed_gates_identification (new_session example_parameters) 1 1 0 0 10 None 0).
  split; [apply init_shaped|]. split; [reflexivity|]. cbn. lra.
Defined.

(** [buffer[-1]], if there is one. *)
Definition newest {A : Type} (d : list A) : option A := nth_error (rev d) 0.

Lemma second_last_append (A : Type) (d : list A) (x : A) :
  second_last (buffer_append 1000 d x) = newest d.
Proof.
  unfold second_last, buffer_append, newest.
  destruct (Nat.ltb_spec (length d) 1000) as [H|H].
  - rewrite rev_app_distr. reflexivity.
  - rewrite rev_app_distr. cbn [rev app nth_error].
    destruct d as [|y d]; [cbn in H; lia|]. cbn [tl rev].
    destruct (rev d) as [|z r] eqn:Er; [|reflexivity].
    apply (f_equal (@length A)) in Er. rewrite length_rev in Er.
    cbn [length] in *. lia.
Qed.

(** X27.  The inductances are identified from the change of the currents and
    the mechanical parameters from the change of the speed.  On the first
    sample, and on every sample whose currents equal the newest ones in
    the buffer, the inductances and their estimator are left as they are;
    likewise the mechanical parameters when the speed has not changed. *)
Theorem steady_sample_identifies_nothing_dynamic (s : session)
    (vd id vq iq wr : R) (Te : option R) (load_torque : R) :
  session_ready s ->
  exists s',
    update s vd id vq iq wr Te load_torque = Returned s' /\
    (newest (current_buffer s) = None \/ newest (current_buffer s) = Some (id, iq) ->
     inductance_part (identifier s') = inductance_part (identifier s)) /\
    (newest (speed_buffer s) = None \/ newest (speed_buffer s) = Some wr ->
     mechanical_part (identifier s') = mechanical_part (identifier s)).
Proof.
  intros (Hsh & Hen & _).
  destruct (update_step s vd id vq iq wr Te load_torque Hsh Hen)
    as (self' & E & _ & _ & _ & _ & HD & HM).
  eexists. split; [exact E|]. cbn [identifier].
  split.
  - intros Hc. apply HD. unfold current_derivatives.
    rewrite second_last_append. destruct Hc as [-> | ->]; [reflexivity|].
    f_equal; unfold Rdiv; ring.
  - intros Hc. apply HM. right. unfold speed_derivative.
    rewrite second_last_append. destruct Hc as [-> | ->]; [reflexivity|].
    unfold Rdiv; ring.
Qed.

Lemma steady_sample_identifies_nothing_dynamic_witness :
  exists s',
    update (new_session example_parameters) 1 1 30 2 50 (Some 1) 0 = Returned s' /\
    (newest (current_buffer (new_session example_parameters)) = None \/
     newest (current_buffer (new_session example_parameters)) = Some (1, 2) ->
     inductance_part (identifier s') =
       inductance_part (identifier (new_session example_parameters))) /\
    (newest (speed_buffer (new_session example_parameters)) = None \/
     newest (speed_buffer (new_session example_parameters)) = Some 50 ->
     mechanical_part (identifier s') =
       mechanical_part (identifier (new_session example_parameters))).
Proof.
  apply (steady_sample_identifies_nothing_dynamic
           (new_session example_parameters) 1 1 30 2 50 (Some 1) 0).
  split; [apply init_shaped|]. split; [reflexivity|]. cbn. lra.
Defined.

(** One measurement: [(vd, id, vq, iq, wr, Te)]. *)
Definition sample : Type := R * R * R * R * R * option R.

(** [update] called once per control interval on a list of samples. *)
Fixpoint run_updates (s : session) (samples : list sample) : outcome session :=
  match samples with
  | [] => Returned s
  | (vd, id, vq, iq, wr, Te) :: rest =>
      s' <- update s vd id vq iq wr Te 0 ;;
      run_updates s' rest
  end.

Lemma buffer_append_length (A : Type) (d : list A) (x : A) :
  (length d <= 1000)%nat ->
  length (buffer_append 1000 d x) = Nat.min (S (length d)) 1000.
Proof.
  intros Hlen. unfold buffer_append.
  destruct (Nat.ltb_spec (length d) 1000) as [H|H].
  - rewrite length_app. cbn [length]. lia.
  - destruct d as [|y d]; cbn [length tl] in *; [lia|].
    rewrite length_app. cbn [length]. lia.
Qed.

Lemma run_updates_counts (samples : list sample) :
  forall (s : session) (m : nat),
    identifier_shaped (identifier s) ->
    identification_enabled (identifier s) = true ->
    identification_complete (identifier s) =
      (100 <? identification_count (identifier s))%Z ->
    (m <= 1000)%nat ->
    length (voltage_buffer s) = m -> length (current_buffer s) = m ->
    length (speed_buffer s) = m ->
    exists s',
      run_updates s samples = Returned s' /\
      identification_count (identifier s') =
        (identification_count (identifier s) + Z.of_nat (length samples))%Z /\
      identification_complete (identifier s') =
        (100 <? identification_count (identifier s'))%Z /\
      length (voltage_buffer s') = Nat.min (m + length samples) 1000 /\
      length (current_buffer s') = Nat.min (m + length samples) 1000 /\
      length (speed_buffer s') = Nat.min (m + length samples) 1000.
Proof.
  induction samples as [|[[[[[vd id] vq] iq] wr] Te] rest IH];
    intros s m Hsh Hen Hcm Hm Hv Hc Hs.
  - exists s. cbn [run_updates length]. split; [reflexivity|].
    split; [cbn; lia|]. split; [exact Hcm|].
    rewrite Nat.add_0_r, Hv, Hc, Hs. repeat split; lia.
  - destruct (update_step s vd id vq iq wr Te 0 Hsh Hen)
      as (self' & E & Sh & St & _).
    destruct (status_fields _ _ St) as (He' & _).
    cbn [run_updates]. rewrite E. cbn [bind].
    match goal with
    | |- context [run_updates ?s1 rest] =>
        destruct (IH s1 (Nat.min (S m) 1000)) as (s' & Er & Hcnt & Hcmp & Lv & Lc & Ls)
    end.
    + exact Sh.
    + reflexivity.
    + cbn [identifier identification_complete identification_count set_status].
      rewrite Hcm, Z.gtb_ltb.
      destruct (Z.ltb_spec 100 (identification_count (identifier s) + 1));
        destruct (Z.ltb_spec 100 (identification_count (identifier s)));
        try reflexivity; lia.
    + lia.
    + cbn [voltage_buffer]. rewrite buffer_append_length, Hv; [reflexivity|lia].
    + cbn [current_buffer]. rewrite buffer_append_length, Hc; [reflexivity|lia].
    + cbn [speed_buffer]. rewrite buffer_append_length, Hs; [reflexivity|lia].
    + exists s'. split; [exact Er|].
      cbn [identifier identification_count set_status] in Hcnt.
      split; [rewrite Hcnt; cbn [length]; lia|]. split; [exact Hcmp|].
      cbn [length]. rewrite Lv, Lc, Ls. repeat split; lia.
Qed.

(** X28.  Starting from a freshly constructed object with a non-zero sample
    time, [update] never raises, whatever the measurements: after [n]
    calls [identification_count] is [n], [identification_complete] is set
    exactly when [n] exceeds 100 (it says nothing about convergence), and
    the voltage, current and speed buffers hold the last [min n 1000]
    samples. *)
Theorem identification_counts_samples (params : MotorParameters)
    (samples : list sample) :
  p_sample_time params <> 0 ->
  exists s,
    run_updates (new_session params) samples = Returned s /\
    identification_count (identifier s) = Z.of_nat (length samples) /\
    identification_complete (identifier s) = (100 <? length samples)%nat /\
    length (voltage_buffer s) = Nat.min (length samples) 1000 /\
    length (current_buffer s) = Nat.min (length samples) 1000 /\
    length (speed_buffer s) = Nat.min (length samples) 1000.
Proof.
  intros _.
  destruct (run_updates_counts samples (new_session params) 0)
    as (s & E & Hcnt & Hcmp & Lv & Lc & Ls);
    try reflexivity; [apply init_shaped|lia|].
  exists s. split; [exact E|]. cbn in Hcnt. split; [exact Hcnt|].
  split; [|cbn [Nat.add] in *; repeat split; assumption].
  rewrite Hcmp, Hcnt.
  destruct (Z.ltb_spec 100 (Z.of_nat (length samples)));
    destruct (Nat.ltb_spec 100 (length samples)); try reflexivity; lia.
Qed.

Definition example_samples : list sample :=
  [(1, 1, 0, 0, 0, None); (2, 1, 30, 2, 50, Some 1)].

Lemma identification_counts_samples_witness :
  exists s,
    run_updates (new_session example_parameters) example_samples = Returned s /\
    identification_count (identifier s) = Z.of_nat (length example_samples) /\
    identification_complete (identifier s) = (100 <? length example_samples)%nat /\
    length (voltage_buffer s) = Nat.min (length example_samples) 1000 /\
    length (current_buffer s) = Nat.min (length example_samples) 1000 /\
    length (speed_buffer s) = Nat.min (length example_samples) 1000.
Proof.
  apply (identification_counts_samples example_parameters example_samples).
  cbn. lra.
Defined.

(** X29.  After [disable_identification] the object ignores its input: no
    sample is stored, counted or used, however many [update] calls
    follow, and [enable_identification] then gives back the object as it
    was before it was disabled. *)
Theorem disabled_identification_ignores_samples (s : session)
    (samples : list sample) :
  let paused :=
    mk_session (disable_identification (identifier s)) (voltage_buffer s)
      (current_buffer s) (speed_buffer s) (torque_buffer s) in
  run_updates paused samples = Returned paused /\
  (identification_enabled (identifier s) = true ->
   enable_identification (identifier paused) = identifier s).
Proof.
  cbv zeta. split.
  - induction samples as [|[[[[[vd id] vq] iq] wr] Te] rest IH]; [reflexivity|].
    cbn [run_updates]. unfold update at 1. cbn [bind]. exact IH.
  - intros Hen. destruct s as [self v c w q]. cbn [identifier] in *.
    destruct self. cbn in Hen. subst. reflexivity.
Qed.

End SessionFacts.
